(** * shapeshift-labs-vis: colour matching and morph-target precomputation

    A shallow embedding of [src/lib/colors.ts] and of the geometry helpers of
    the precompute script ([trimBottomRow], [clampPositions],
    [adjustVertexCount], [reorderToNearest]), followed by the properties the
    specification states about them.

    JavaScript numbers are IEEE-754 binary64 values and are modelled by Rocq's
    primitive [float]; comparisons are the IEEE ones ([NaN] compares false).
    A [Float32Array] is modelled by the list of the binary64 values of its
    elements.  Every store performed by the geometry helpers below writes
    either a value read from a [Float32Array] or the constant 0, for which
    the binary32 rounding of the store is the identity. *)

From Stdlib Require Import String.
From Stdlib Require Import ZArith List Floats Bool Lia Arith PeanoNat.
From Stdlib Require Import Permutation FinFun Sorted.
Import ListNotations.
Set Warnings "-inexact-float".
Set Warnings "-abstract-large-number".

(* ===================================================================== *)
(** * JavaScript number primitives *)
(* ===================================================================== *)

Module JS.
Local Open Scope float_scope.

(** [Number.MAX_VALUE] *)
Definition MAX_VALUE : float := 0x1.fffffffffffffp+1023.

(** [Number.isFinite(x)] *)
Definition isFinite (x : float) : bool :=
  match Prim2SF x with
  | S754_nan | S754_infinity _ => false
  | _ => true
  end.

(** Truthiness of a number: [NaN], [0] and [-0] are falsy. *)
Definition truthy (x : float) : bool := negb (is_nan x || is_zero x).

(** [x || 0].  An out-of-range array read gives [undefined], which is
    falsy like [NaN]; reads use [NaN] for it (see [rd] below). *)
Definition orZero (x : float) : float := if truthy x then x else 0.

(** [x ** 2] and [Math.pow(x, 2)]: the square, which the engines compute
    as the correctly rounded product [x * x]. *)
Definition sq (x : float) : float := x * x.

(** The integer [z] as a number (exact for [|z| < 2^53]). *)
Definition ofZ (z : Z) : float := SF2Prim (binary_normalize prec emax z 0 false).

(** [Math.floor(x)]: NaN, infinities, zeros and integral values are
    returned unchanged; otherwise the largest integer below [x]. *)
Definition Math_floor (x : float) : float :=
  match Prim2SF x with
  | S754_finite s m e =>
      if (0 <=? e)%Z then x
      else
        let q := (cond_Zopp s (Zpos m) / 2 ^ (- e))%Z in
        if (q =? 0)%Z then 0 else ofZ q
  | _ => x
  end.

(** [Math.round(x)]: nearest integer, ties towards +Infinity; a result in
    [[-0.5, 0)] is [-0]. *)
Definition Math_round (x : float) : float :=
  match Prim2SF x with
  | S754_finite s m e =>
      if (0 <=? e)%Z then x
      else
        let d := (2 ^ (- e))%Z in
        let q := ((2 * cond_Zopp s (Zpos m) + d) / (2 * d))%Z in
        if (q =? 0)%Z then (if s then -0 else 0) else ofZ q
  | _ => x
  end.

(** [Math.max(x, y)]: NaN if either is NaN; [+0] is larger than [-0]. *)
Definition Math_max (x y : float) : float :=
  if is_nan x || is_nan y then nan
  else if x <? y then y
  else if y <? x then x
  else if is_zero x && get_sign x then y
  else x.

Definition Math_max3 (x y z : float) : float :=
  Math_max (Math_max (Math_max neg_infinity x) y) z.

(** [Math.min(x, y)]: NaN if either is NaN; [-0] is smaller than [+0]. *)
Definition Math_min (x y : float) : float :=
  if is_nan x || is_nan y then nan
  else if x <? y then x
  else if y <? x then y
  else if is_zero x && get_sign x then x
  else y.

(** [Math.fround(x)]: the nearest binary32 value (ties to even, overflow to
    an infinity), which is what a store into a [Float32Array] keeps. *)
Definition Math_fround (x : float) : float :=
  match Prim2SF x with
  | S754_finite s m e => SF2Prim (binary_round 24 128 s m e)
  | _ => x
  end.
End JS.

(* ===================================================================== *)
(** * src/lib/colors.ts *)
(* ===================================================================== *)

Module Colors.
Import JS.
Local Open Scope float_scope.

(** [type RGB = { r; g; b }] *)
Record RGB : Type := mkRGB { rgb_r : float; rgb_g : float; rgb_b : float }.

(** [type Lab = { l; a; b }] *)
Record Lab : Type := mkLab { lab_l : float; lab_a : float; lab_b : float }.

(** The body shared by the three nearest-colour loops:
<<
    let closestIndex = 0; let smallestDistance = Number.MAX_VALUE;
    for (let i = 0; i < paletteLab.length; i++) {
      const distance = ...;
      if (distance < smallestDistance) { smallestDistance = distance; closestIndex = i; }
    }
    return closestIndex;
>>
    The state is [(closestIndex, smallestDistance)]. *)
Definition closestStep (distance : Lab -> float)
           (st : nat * float) (ip : nat * Lab) : nat * float :=
  let d := distance (snd ip) in
  if d <? snd st then (fst ip, d) else st.

Definition closestLoop (distance : Lab -> float) (paletteLab : list Lab)
  : nat * float :=
  fold_left (closestStep distance)
            (combine (seq 0 (length paletteLab)) paletteLab)
            (0%nat, MAX_VALUE).

(** The distance of [findClosestColorIndex]. *)
Definition distFull (labColor p : Lab) : float :=
  sqrt (sq (lab_l labColor - lab_l p)
        + sq (lab_a labColor - lab_a p)
        + sq (lab_b labColor - lab_b p)).

(** The distance of [findClosestColorIndexAB]. *)
Definition distAB (labColor p : Lab) : float :=
  let distance := distFull labColor p in
  distance * 0.5
  + 2 * sqrt (sq (lab_a labColor - lab_a p) + sq (lab_b labColor - lab_b p)).

(** The distance of [findClosestColorIndexL]. *)
Definition distL (labColor p : Lab) : float :=
  let distance := distFull labColor p in
  distance * 0.5 + abs (lab_l labColor - lab_l p).

Definition findClosestColorIndex (labColor : Lab) (paletteLab : list Lab) : nat :=
  fst (closestLoop (distFull labColor) paletteLab).

Definition findClosestColorIndexAB (labColor : Lab) (paletteLab : list Lab) : nat :=
  fst (closestLoop (distAB labColor) paletteLab).

Definition findClosestColorIndexL (labColor : Lab) (paletteLab : list Lab) : nat :=
  fst (closestLoop (distL labColor) paletteLab).

Definition t1 : float := 6 / 29.
Definition t2 : float := 3 * t1 * t1.
Definition t3 : float := t1 * t1 * t1.

Definition lab2xyz (t : float) : float :=
  if t1 <? t then t * t * t else t2 * (t - 4 / 29).

Section WithPow.
(** [Math.pow] at the fractional exponents [2.4], [1 / 2.4] and [1 / 3].
    ECMAScript leaves its rounding to the implementation, so it is a
    parameter of the conversion functions. *)
Variable Math_pow : float -> float -> float.

Definition rgb2lrgb (x : float) : float :=
  let x2 := x / 255 in
  if x2 <=? 0.04045 then x2 / 12.92 else Math_pow ((x2 + 0.055) / 1.055) 2.4.

Definition xyz2lab (t : float) : float :=
  if t3 <? t then Math_pow t (1 / 3) else t / t2 + 4 / 29.

Definition rgbToLab (color : RGB) : Lab :=
  let r := rgb2lrgb (rgb_r color) in
  let g := rgb2lrgb (rgb_g color) in
  let b := rgb2lrgb (rgb_b color) in
  let y := xyz2lab (0.2225045 * r + 0.7168786 * g + 0.0606169 * b) in
  let x :=
    if (r =? g) && (g =? b) then y
    else xyz2lab ((0.4360747 * r + 0.3850649 * g + 0.1430804 * b) / 0.96422) in
  let z :=
    if (r =? g) && (g =? b) then y
    else xyz2lab ((0.0139322 * r + 0.0971045 * g + 0.7141733 * b) / 0.82521) in
  {| lab_l := 116 * y - 16; lab_a := 500 * (x - y); lab_b := 200 * (y - z) |}.

Definition lrgb2rgb (x : float) : float :=
  orZero (Math_round
            (255 * (if x <=? 0.0031308 then 12.92 * x
                    else 1.055 * Math_pow x (1 / 2.4) - 0.055))).

Definition labToRgb (c : Lab) : RGB :=
  let baseY := (lab_l c + 16) / 116 in
  let x := 0.96422 * lab2xyz (baseY + lab_a c / 500) in
  let y := lab2xyz baseY in
  let z := 0.82521 * lab2xyz (baseY - lab_b c / 200) in
  {| rgb_r := lrgb2rgb (3.1338561 * x - 1.6168667 * y - 0.4906146 * z);
     rgb_g := lrgb2rgb (-0.9787684 * x + 1.9161415 * y + 0.033454 * z);
     rgb_b := lrgb2rgb (0.0719453 * x - 0.2289914 * y + 1.4052427 * z) |}.

Definition colorDistance (color1 color2 : RGB) : float :=
  let lab1 := rgbToLab color1 in
  let lab2 := rgbToLab color2 in
  let deltaL := lab_l lab1 - lab_l lab2 in
  let deltaA := lab_a lab1 - lab_a lab2 in
  let deltaB := lab_b lab1 - lab_b lab2 in
  sqrt (sq deltaL + sq deltaA + sq deltaB).

Definition createDistanceMatrix (colors1 colors2 : list RGB) : list (list float) :=
  map (fun c1 => map (fun c2 => colorDistance c1 c2) colors2) colors1.

(** [munkres] is the default export of the npm package [munkres-js]; it
    takes the cost matrix and returns [[row, column]] index pairs, or
    throws, here [None]. *)
Variable munkres : list (list float) -> option (list (nat * nat)).

End WithPow.

(** [array.map(f)] for a callback that may throw: the first exception
    aborts the whole map ([None]). *)
Fixpoint mapThrowing {A B : Type} (f : A -> option B) (l : list A) : option (list B) :=
  match l with
  | [] => Some []
  | a :: rest =>
      match f a with
      | None => None
      | Some b =>
          match mapThrowing f rest with
          | None => None
          | Some bs => Some (b :: bs)
          end
      end
  end.

(** [Math.round(c1 + (c2 - c1) * i)] *)
Definition blend (c1 c2 i : float) : float := Math_round (c1 + (c2 - c1) * i).

(** [interpolatePalette(palette1, palette2, i)].  For an index beyond
    [palette2], [color2] is [undefined] and reading [color2.r] throws a
    TypeError, here [None]. *)
Definition interpolatePalette (palette1 palette2 : list RGB) (i : float)
  : option (list RGB) :=
  mapThrowing
    (fun ic : nat * RGB =>
       let index := fst ic in
       let color1 := snd ic in
       match nth_error palette2 index with
       | None => None
       | Some color2 =>
           Some {| rgb_r := blend (rgb_r color1) (rgb_r color2) i;
                   rgb_g := blend (rgb_g color1) (rgb_g color2) i;
                   rgb_b := blend (rgb_b color1) (rgb_b color2) i |}
       end)
    (combine (seq 0 (length palette1)) palette1).
End Colors.

(* ===================================================================== *)
(** * The precompute script: trim, clamp, equalize and align point clouds *)
(* ===================================================================== *)

Module Morph.
Import JS.

(** A position array holds whole points, [x, y, z] interleaved; every
    caller passes such arrays, so [positions.length / 3] is an integer. *)
Definition Float32Array := list float.

(** [a[i]].  An index outside the array reads [undefined], which converts
    to [NaN] wherever it is compared, computed with or stored. *)
Definition rd (a : Float32Array) (i : nat) : float := nth i a nan.

(** [a[i]] for an index that may be negative. *)
Definition rdZ (a : Float32Array) (i : Z) : float :=
  if (i <? 0)%Z then nan else rd a (Z.to_nat i).

(** [a[i] = v].  A store outside a typed array is ignored; the one plain
    array written to, [available], is only written inside its length. *)
Fixpoint wr {A : Type} (a : list A) (i : nat) (v : A) : list A :=
  match a, i with
  | [], _ => []
  | _ :: t, O => v :: t
  | h :: t, S i' => h :: wr t i' v
  end.

(** The values taken by [i] in [for (let i = start; i < n; i += 3)]. *)
Definition by3 (start n : nat) : list nat :=
  map (fun k => start + 3 * k) (seq 0 ((n + 2 - start) / 3)).

(** ** trimBottomRow *)

(** The first loop of [trimBottomRow]: [(minY, maxY)]. *)
Definition yRange (positions : Float32Array) : float * float :=
  fold_left
    (fun (mm : float * float) i =>
       let y := rd positions i in
       ((if y <? fst mm then y else fst mm)%float,
        (if snd mm <? y then y else snd mm)%float))
    (by3 1 (length positions)) (infinity, neg_infinity).

Definition trimThreshold (positions : Float32Array) : float :=
  let (minY, maxY) := yRange positions in
  let height := (maxY - minY)%float in
  (minY + height * 0.01)%float.

(** The second loop of [trimBottomRow]: the array [kept]. *)
Definition trimKept (positions : Float32Array) (threshold : float) : list float :=
  fold_left
    (fun kept i =>
       let y := rd positions (i + 1) in
       if (y <=? threshold)%float then kept
       else kept ++ [rd positions i; rd positions (i + 1); rd positions (i + 2)])
    (by3 0 (length positions)) [].

Definition trimBottomRow (positions : Float32Array) : Float32Array :=
  if length positions <? 3 then positions
  else
    let threshold := trimThreshold positions in
    let kept := trimKept positions threshold in
    if 3 <=? length kept then kept else positions.

(** ** clampPositions *)

(** [Math.ceil(a / b)] on counts. *)
Definition ceilDiv (a b : nat) : nat := (a + b - 1) / b.

(** [for (let i = 0; i < vertCount && ri < result.length / 3; i += stride)].
    [ri] counts the iterations and stays below [result.length / 3], which
    bounds their number. *)
Fixpoint clampLoop (fuel : nat) (positions : Float32Array)
         (vertCount stride i ri : nat) (result : Float32Array) : Float32Array :=
  match fuel with
  | O => result
  | S fuel' =>
      if (i <? vertCount) && (ri <? length result / 3) then
        let pi := i * 3 in
        let result := wr result (ri * 3) (rd positions pi) in
        let result := wr result (ri * 3 + 1) (rd positions (pi + 1)) in
        let result := wr result (ri * 3 + 2) (rd positions (pi + 2)) in
        clampLoop fuel' positions vertCount stride (i + stride) (S ri) result
      else result
  end.

Definition clampPositions (positions : Float32Array) (maxVertices : nat)
  : Float32Array :=
  let vertCount := length positions / 3 in
  if vertCount <=? maxVertices then positions
  else
    let stride := ceilDiv vertCount maxVertices in
    let keptVertices := vertCount / stride in
    let result := repeat 0%float (keptVertices * 3) in
    clampLoop keptVertices positions vertCount stride 0 0 result.

(** ** adjustVertexCount *)

(** [while (pIndex < finalLength) { a[pIndex++] = lastX; a[pIndex++] = lastY;
    a[pIndex++] = lastZ; }]; at most [finalCount] rounds. *)
Fixpoint padLoop (fuel : nat) (adjustedPositions : Float32Array)
         (pIndex finalLength : nat) (lastX lastY lastZ : float) : Float32Array :=
  match fuel with
  | O => adjustedPositions
  | S fuel' =>
      if pIndex <? finalLength then
        let a := wr adjustedPositions pIndex lastX in
        let a := wr a (pIndex + 1) lastY in
        let a := wr a (pIndex + 2) lastZ in
        padLoop fuel' a (pIndex + 3) finalLength lastX lastY lastZ
      else adjustedPositions
  end.

Definition adjustVertexCount (positions : Float32Array) (finalCount : nat)
  : Float32Array :=
  let finalLength := finalCount * 3 in
  let adjustedPositions := repeat 0%float finalLength in
  let copyLength := Nat.min (length positions) finalLength in
  let adjustedPositions :=
    fold_left (fun a i => wr a i (rd positions i)) (seq 0 copyLength)
              adjustedPositions in
  let loadedVertices := copyLength / 3 in
  if loadedVertices <? finalCount then
    let lastX := orZero (rdZ adjustedPositions (Z.of_nat copyLength - 3)) in
    let lastY := orZero (rdZ adjustedPositions (Z.of_nat copyLength - 2)) in
    let lastZ := orZero (rdZ adjustedPositions (Z.of_nat copyLength - 1)) in
    let pIndex := loadedVertices * 3 in
    padLoop finalCount adjustedPositions pIndex finalLength lastX lastY lastZ
  else adjustedPositions.

(** ** reorderToNearest *)

Inductive Exn : Type :=
| Error (message : String.string)   (** [throw new Error(message)] *)
| RangeError.                       (** [new Array(len)] with a fractional [len] *)

Record Bounds : Type := mkBounds
  { minX : float; minY : float; minZ : float;
    maxX : float; maxY : float; maxZ : float }.

Definition noBounds : Bounds :=
  mkBounds infinity infinity infinity neg_infinity neg_infinity neg_infinity.

(** [updateBounds(arr)], as a function of the six bounds it assigns. *)
Definition updateBounds (arr : Float32Array) (b : Bounds) : Bounds :=
  fold_left
    (fun b i =>
       let x := rd arr i in
       let y := rd arr (i + 1) in
       let z := rd arr (i + 2) in
       mkBounds (if x <? minX b then x else minX b)%float
                (if y <? minY b then y else minY b)%float
                (if z <? minZ b then z else minZ b)%float
                (if maxX b <? x then x else maxX b)%float
                (if maxY b <? y then y else maxY b)%float
                (if maxZ b <? z then z else maxZ b)%float)
    (by3 0 (length arr)) b.

Definition cellSizeOf (b : Bounds) : float :=
  let sizeX := (maxX b - minX b)%float in
  let sizeY := (maxY b - minY b)%float in
  let sizeZ := (maxZ b - minZ b)%float in
  let maxDim := Math_max3 sizeX sizeY sizeZ in
  if (0 <? maxDim)%float then (maxDim / 20)%float else 1%float.

(** [Math.floor((v - min) / cellSize)] *)
Definition cellOf (v mn cellSize : float) : float :=
  Math_floor ((v - mn) / cellSize)%float.

(** A bucket key is the string [`${ix}|${iy}|${iz}`].  Number-to-string
    conversion gives different strings for different numbers, except that
    [-0] prints as [0]; a key is modelled by the three numbers in their
    [spec_float] form with the sign of a zero dropped. *)
Definition keyNum (x : float) : spec_float :=
  match Prim2SF x with
  | S754_zero _ => S754_zero false
  | f => f
  end.

Definition Key : Type := spec_float * spec_float * spec_float.

Definition bucketKey (ix iy iz : float) : Key := (keyNum ix, keyNum iy, keyNum iz).

Definition sf_eqb (x y : spec_float) : bool :=
  match x, y with
  | S754_nan, S754_nan => true
  | S754_zero s, S754_zero s' => Bool.eqb s s'
  | S754_infinity s, S754_infinity s' => Bool.eqb s s'
  | S754_finite s m e, S754_finite s' m' e' =>
      Bool.eqb s s' && Pos.eqb m m' && Z.eqb e e'
  | _, _ => false
  end.

(** Equality of key strings. *)
Definition key_eqb (k k' : Key) : bool :=
  let '(a, b, c) := k in
  let '(a', b', c') := k' in
  sf_eqb a a' && sf_eqb b b' && sf_eqb c c'.

(** [buckets : Map<string, number[]>], entries in insertion order. *)
Definition Buckets : Type := list (Key * list nat).

(** [buckets.get(key)] *)
Fixpoint bucket_get (key : Key) (buckets : Buckets) : option (list nat) :=
  match buckets with
  | [] => None
  | (k, arr) :: rest => if key_eqb k key then Some arr else bucket_get key rest
  end.

(** In-place update of the array stored under [key]. *)
Fixpoint bucket_modify (key : Key) (f : list nat -> list nat) (buckets : Buckets)
  : Buckets :=
  match buckets with
  | [] => []
  | (k, arr) :: rest =>
      if key_eqb k key then (k, f arr) :: rest
      else (k, arr) :: bucket_modify key f rest
  end.

(** [if (!buckets.has(key)) buckets.set(key, []); buckets.get(key).push(i);] *)
Definition bucket_push (key : Key) (i : nat) (buckets : Buckets) : Buckets :=
  match bucket_get key buckets with
  | None => buckets ++ [(key, [i])]
  | Some _ => bucket_modify key (fun arr => arr ++ [i]) buckets
  end.

(** [const pos = arr.indexOf(idx); if (pos >= 0) arr.splice(pos, 1);] *)
Fixpoint splice_out (idx : nat) (arr : list nat) : list nat :=
  match arr with
  | [] => []
  | h :: t => if h =? idx then t else h :: splice_out idx t
  end.

(** The values taken by [d] in [for (let d = -r; d <= r; d++)]. *)
Fixpoint countUp (n : nat) (d : float) : list float :=
  match n with
  | O => []
  | S n' => d :: countUp n' (d + 1)%float
  end.

Definition offsets (r : nat) : list float :=
  countUp (2 * r + 1) (- ofZ (Z.of_nat r))%float.

(** The [(dx, dy, dz)] visited by the three nested loops, in order. *)
Definition cells (r : nat) : list (float * float * float) :=
  flat_map (fun dx =>
    flat_map (fun dy =>
      map (fun dz => (dx, dy, dz)) (offsets r)) (offsets r)) (offsets r).

(** [(tx - rx) ** 2 + (ty - ry) ** 2 + (tz - rz) ** 2] *)
Definition dist2 (tx ty tz rx ry rz : float) : float :=
  (sq (tx - rx) + sq (ty - ry) + sq (tz - rz))%float.

(** [(bestIdx, bestDist2)]; [bestIdx === -1] is [None]. *)
Definition Best : Type := option nat * float.

Definition maxRadius : nat := 2.

Section Reorder.
Variables referencePositions targetPositions : Float32Array.

Definition len : nat := length referencePositions / 3.

Definition bounds : Bounds :=
  updateBounds targetPositions (updateBounds referencePositions noBounds).

Definition cellSize : float := cellSizeOf bounds.

(** The bucket key of target point [idx]. *)
Definition targetKey (idx : nat) : Key :=
  let x := rd targetPositions (idx * 3) in
  let y := rd targetPositions (idx * 3 + 1) in
  let z := rd targetPositions (idx * 3 + 2) in
  bucketKey (cellOf x (minX bounds) cellSize)
            (cellOf y (minY bounds) cellSize)
            (cellOf z (minZ bounds) cellSize).

Definition initialBuckets : Buckets :=
  fold_left (fun buckets i => bucket_push (targetKey i) i buckets) (seq 0 len) [].

Definition removeFromBucket (idx : nat) (buckets : Buckets) : Buckets :=
  bucket_modify (targetKey idx) (splice_out idx) buckets.

(** The body run for one candidate [idx] (in a bucket or in the linear
    scan): skip it if unavailable, else keep it if strictly closer. *)
Definition consider (available : list bool) (rx ry rz : float)
           (best : Best) (idx : nat) : Best :=
  if negb (nth idx available false) then best
  else
    let tx := rd targetPositions (idx * 3) in
    let ty := rd targetPositions (idx * 3 + 1) in
    let tz := rd targetPositions (idx * 3 + 2) in
    let d := dist2 tx ty tz rx ry rz in
    if (d <? snd best)%float then (Some idx, d) else best.

Definition scanCell (buckets : Buckets) (available : list bool)
           (cx cy cz rx ry rz : float)
           (best : Best) (d : float * float * float) : Best :=
  let '(dx, dy, dz) := d in
  match bucket_get (bucketKey (cx + dx) (cy + dy) (cz + dz))%float buckets with
  | None => best
  | Some arr => fold_left (consider available rx ry rz) arr best
  end.

(** [for (let r = 0; r <= maxRadius && bestIdx === -1; r++)] over the
    remaining radii [rs]. *)
Fixpoint ringSearch (buckets : Buckets) (available : list bool)
         (cx cy cz rx ry rz : float) (rs : list nat) (best : Best) : Best :=
  match rs with
  | [] => best
  | r :: rs' =>
      match fst best with
      | Some _ => best
      | None =>
          ringSearch buckets available cx cy cz rx ry rz rs'
            (fold_left (scanCell buckets available cx cy cz rx ry rz)
                       (cells r) best)
      end
  end.

Definition findNearest (buckets : Buckets) (available : list bool)
           (rx ry rz : float) : option nat :=
  let cx := cellOf rx (minX bounds) cellSize in
  let cy := cellOf ry (minY bounds) cellSize in
  let cz := cellOf rz (minZ bounds) cellSize in
  let best :=
    ringSearch buckets available cx cy cz rx ry rz
               (seq 0 (maxRadius + 1)) (None, infinity) in
  let best :=
    match fst best with
    | None => fold_left (consider available rx ry rz) (seq 0 len) best
    | Some _ => best
    end in
  fst best.

(** The state of the main loop.  [chosen] is not a variable of the
    script: it records the value of [nearestIdx] at each iteration
    ([None] for [-1]), the accounting the specification speaks of. *)
Record MatchState : Type := mkState
  { available : list bool;
    buckets : Buckets;
    reordered : Float32Array;
    chosen : list (option nat) }.

Definition matchStep (st : MatchState) (i : nat) : MatchState :=
  let rx := rd referencePositions (i * 3) in
  let ry := rd referencePositions (i * 3 + 1) in
  let rz := rd referencePositions (i * 3 + 2) in
  match findNearest (buckets st) (available st) rx ry rz with
  | None => mkState (available st) (buckets st) (reordered st) (chosen st ++ [None])
  | Some nearestIdx =>
      let r := reordered st in
      let r := wr r (i * 3) (rd targetPositions (nearestIdx * 3)) in
      let r := wr r (i * 3 + 1) (rd targetPositions (nearestIdx * 3 + 1)) in
      let r := wr r (i * 3 + 2) (rd targetPositions (nearestIdx * 3 + 2)) in
      mkState (wr (available st) nearestIdx false)
              (removeFromBucket nearestIdx (buckets st))
              r
              (chosen st ++ [Some nearestIdx])
  end.

Definition matchLoop : MatchState :=
  fold_left matchStep (seq 0 len)
    (mkState (repeat true len) initialBuckets
             (repeat 0%float (length targetPositions)) []).

Definition reorderToNearest : Exn + Float32Array :=
  if negb (length targetPositions =? length referencePositions) then
    inl (Error "reorderToNearest requires equal-length position arrays."%string)
  else if negb (length referencePositions mod 3 =? 0) then inl RangeError
  else inr (reordered matchLoop).
End Reorder.

(** ** normalizePositions *)

(** Its first loop is the loop of [updateBounds], started from the same
    infinite bounds; the second loop stores computed values, which the
    [Float32Array] rounds to binary32. *)
Definition normalizePositions (positions : Float32Array) : Float32Array :=
  let b := updateBounds positions noBounds in
  let centerX := ((minX b + maxX b) / 2)%float in
  let centerY := ((minY b + maxY b) / 2)%float in
  let centerZ := ((minZ b + maxZ b) / 2)%float in
  let sizeX := (maxX b - minX b)%float in
  let sizeY := (maxY b - minY b)%float in
  let sizeZ := (maxZ b - minZ b)%float in
  let maxDim := Math_max3 sizeX sizeY sizeZ in
  let scale := if (0 <? maxDim)%float then (3.0 / maxDim)%float else 1.0%float in
  fold_left
    (fun normalized i =>
       let n := wr normalized i
                   (Math_fround ((rd positions i - centerX) * scale)%float) in
       let n := wr n (i + 1)
                   (Math_fround ((rd positions (i + 1) - centerY) * scale)%float) in
       wr n (i + 2)
          (Math_fround ((rd positions (i + 2) - centerZ) * scale)%float))
    (by3 0 (length positions)) (repeat 0%float (length positions)).

(** ** loadGLB, from the merged positions on *)

Definition MAX_VERTEX_COUNT : nat := 20000.

(** The part of [loadGLB] that follows the traversal of the parsed scene:
    [mergedPositions] holds the numbers pushed from every mesh; the promise
    is rejected ([inl]) when there are none, and otherwise resolves to the
    normalized, trimmed and clamped positions. *)
Definition loadGLB (mergedPositions : list float) : Exn + Float32Array :=
  if length mergedPositions =? 0 then inl (Error "No vertices found in GLB"%string)
  else
    let normalized := normalizePositions (map Math_fround mergedPositions) in
    let normalized := trimBottomRow normalized in
    let normalized := clampPositions normalized MAX_VERTEX_COUNT in
    inr normalized.

(** ** main, from the loaded positions to the processed ones *)

(** [Math.max(...loaded.map((l) => l.positions.length / 3))] for the
    non-empty list [first :: rest]. *)
Definition targetVertexCountOf (first : Float32Array) (rest : list Float32Array)
  : nat :=
  fold_left Nat.max (map (fun positions => length positions / 3) rest)
            (length first / 3).

(** The loop [for (let i = 1; i < loaded.length; i++)]: a throw of
    [reorderToNearest] ends [main]. *)
Fixpoint alignAll (reference : Float32Array) (targetVertexCount : nat)
         (rest : list Float32Array) : Exn + list Float32Array :=
  match rest with
  | [] => inr []
  | positions :: rest' =>
      let adjusted := adjustVertexCount positions targetVertexCount in
      match reorderToNearest reference adjusted with
      | inl e => inl e
      | inr aligned =>
          match alignAll reference targetVertexCount rest' with
          | inl e => inl e
          | inr others => inr (aligned :: others)
          end
      end
  end.

(** The computation of [main] between loading and writing: the shared
    vertex count and the positions of [processed], the reference first.
    [main] exits before it when no model was found, so there is a first
    loaded model. *)
Definition main (first : Float32Array) (rest : list Float32Array)
  : Exn + (nat * list Float32Array) :=
  let targetVertexCount := targetVertexCountOf first rest in
  let reference := adjustVertexCount first targetVertexCount in
  match alignAll reference targetVertexCount rest with
  | inl e => inl e
  | inr aligned => inr (targetVertexCount, reference :: aligned)
  end.

(** ** doubleVertices (src/app/page.tsx), for one morph target *)

(** [dst.set(src, 0)] followed by the loop that copies vertex [i] of [src]
    to vertex [vertCount + i] of [dst]. *)
Definition doubleVertices (src : Float32Array) : Float32Array :=
  let vertCount := length src / 3 in
  let dst := repeat 0%float (length src * 2) in
  let dst := fold_left (fun d i => wr d i (rd src i)) (seq 0 (length src)) dst in
  fold_left
    (fun d i =>
       let srcIdx := i * 3 in
       let dstIdx := (vertCount + i) * 3 in
       let d := wr d dstIdx (rd src srcIdx) in
       let d := wr d (dstIdx + 1) (rd src (srcIdx + 1)) in
       wr d (dstIdx + 2) (rd src (srcIdx + 2)))
    (seq 0 vertCount) dst.

(** ** alignBottoms (src/app/page.tsx) *)

(** The lowest height of one target: the loop over [t[1], t[4], ...]. *)
Definition lowestY (t : Float32Array) : float :=
  fold_left (fun minY i => if (rd t i <? minY)%float then rd t i else minY)
            (by3 1 (length t)) infinity.

(** The copy of [t] with every height lowered by [delta]; the difference
    is computed, so the store rounds it to binary32. *)
Definition shiftDown (t : Float32Array) (delta : float) : Float32Array :=
  fold_left
    (fun shifted i =>
       let s := wr shifted i (rd t i) in
       let s := wr s (i + 1) (Math_fround (rd t (i + 1) - delta)%float) in
       wr s (i + 2) (rd t (i + 2)))
    (by3 0 (length t)) (repeat 0%float (length t)).

Definition alignBottoms (targets : list Float32Array) : list Float32Array :=
  if length targets =? 0 then targets
  else
    let mins := map lowestY targets in
    let baseline := fold_left Math_min mins infinity in
    map (fun it : nat * Float32Array =>
           let idx := fst it in
           let t := snd it in
           let delta := (nth idx mins nan - baseline)%float in
           if (abs delta <? 1e-6)%float then t else shiftDown t delta)
        (combine (seq 0 (length targets)) targets).
End Morph.

(* ===================================================================== *)
(** * Vocabulary of the specification *)
(* ===================================================================== *)

Module ColorsSpec.
Import JS Colors.



(** Three candidates, the last two tied at distance 0 from the query. *)
Definition tiedPalette : list Lab :=
  [mkLab 50 0 0; mkLab 10 0 0; mkLab 10 0 0]%float.

(** Entry [[row][column]] of a cost matrix. *)
Definition costAt (m : list (list float)) (pair : nat * nat) : float :=
  nth (snd pair) (nth (fst pair) m []) nan.

(** The exact value of a finite number, counted in units of [2^-1074]:
    every finite binary64 number is a whole number of them, so sums of
    these values do not round and do not depend on the order of the
    summands. *)
Definition exactUnits (x : float) : Z :=
  match Prim2SF x with
  | S754_finite s m e => Z.shiftl (cond_Zopp s (Zpos m)) (e + 1074)
  | _ => 0%Z
  end.

(** The exact total cost of a list of [[row, column]] pairs. *)
Definition exactCost (m : list (list float)) (pairs : list (nat * nat)) : Z :=
  fold_right (fun pair acc => (exactUnits (costAt m pair) + acc)%Z) 0%Z pairs.

(** Every entry of the matrix is a finite number. *)
Definition finiteMatrix (m : list (list float)) : Prop :=
  forall row, In row m -> forall x, In x row -> isFinite x = true.

(** A one-to-one partial matching between [M] rows and [N] columns. *)
Definition isMatching (M N : nat) (pairs : list (nat * nat)) : Prop :=
  NoDup (map fst pairs) /\ NoDup (map snd pairs) /\
  forall pair, In pair pairs -> fst pair < M /\ snd pair < N.

(** No matching of size [min(M, N)] has a smaller exact total cost than
    [pairs]. *)
Definition minimalCost (m : list (list float)) (M N : nat)
           (pairs : list (nat * nat)) : Prop :=
  forall other, isMatching M N other -> length other = Nat.min M N ->
                (exactCost m pairs <= exactCost m other)%Z.

(** The contract of the assignment solver for an [M x N] cost matrix.  On
    the empty matrix it throws (it reads the length of row 0).  Otherwise
    it returns a one-to-one matching of size [min(M, N)], listed by
    ascending row, and of minimal total cost when the costs are finite. *)
Definition solverContract (m : list (list float)) (M N : nat)
           (result : option (list (nat * nat))) : Prop :=
  match result with
  | None => M = 0
  | Some results =>
      0 < M /\ isMatching M N results /\ length results = Nat.min M N /\
      StronglySorted lt (map fst results) /\
      (finiteMatrix m -> minimalCost m M N results)
  end.

Section Pairing.
Variable Math_pow : float -> float -> float.
Variable munkres : list (list float) -> option (list (nat * nat)).


(** Every colour of the first palette is at a finite distance from every
    colour of the second. *)
Definition finiteDistances (colors1 colors2 : list RGB) : Prop :=
  forall c1 c2, In c1 colors1 -> In c2 colors2 ->
                isFinite (colorDistance Math_pow c1 c2) = true.



End Pairing.





(** [r] is the smallest index whose candidate is at distance exactly [0]. *)
Definition firstZero (distance : Lab -> float) (pal : list Lab) (dflt : Lab)
           (r : nat) : Prop :=
  r < length pal /\ distance (nth r pal dflt) = 0%float /\
  forall j, j < r -> distance (nth j pal dflt) <> 0%float.

(** The three coordinates of a Lab colour are finite numbers. *)
Definition finiteLab (c : Lab) : bool :=
  isFinite (lab_l c) && isFinite (lab_a c) && isFinite (lab_b c).

(** A number is neither NaN nor [-0]. *)
Definition plainNumber (x : float) : Prop :=
  is_nan x = false /\ (is_zero x = true -> x = 0%float).

(** The channel values [0], [1], ..., [255]. *)
Definition bytes : list float := map (fun k => ofZ (Z.of_nat k)) (seq 0 256).

Definition isByte (x : float) : bool :=
  existsb (fun b => PrimFloat.Leibniz.eqb x b) bytes.

(** A colour whose three channels are integers from 0 to 255. *)
Definition byteColor (c : RGB) : bool :=
  isByte (rgb_r c) && isByte (rgb_g c) && isByte (rgb_b c).

(** Blending the channel values [a] and [b] at [0] gives [a], and at [1]
    gives [b]. *)
Definition blendsAt (a b : float) : bool :=
  PrimFloat.Leibniz.eqb (blend a b 0) a && PrimFloat.Leibniz.eqb (blend a b 1) b.

(** The colour [interpolatePalette] builds from a pair of colours. *)
Definition blendColor (i : float) (color1 color2 : RGB) : RGB :=
  {| rgb_r := blend (rgb_r color1) (rgb_r color2) i;
     rgb_g := blend (rgb_g color1) (rgb_g color2) i;
     rgb_b := blend (rgb_b color1) (rgb_b color2) i |}.

(** A coordinate of the query is NaN. *)
Definition nanLab (c : Lab) : bool :=
  is_nan (lab_l c) || is_nan (lab_a c) || is_nan (lab_b c).

(** The channel values [0], [1], ..., [10]. *)
Definition lowBytes : list float := map (fun k => ofZ (Z.of_nat k)) (seq 0 11).

(** A colour whose three channels are integers from 0 to 10. *)
Definition lowColor (c : RGB) : Prop :=
  In (rgb_r c) lowBytes /\ In (rgb_g c) lowBytes /\ In (rgb_b c) lowBytes.

(** A [Math.pow] for examples: the base itself. *)
Definition powBase (x y : float) : float := x.
End ColorsSpec.

Module MorphSpec.
Import JS Morph.

(** ** Point clouds and their position arrays *)

Definition Point : Type := float * float * float.

Definition px (p : Point) : float := fst (fst p).

Definition py (p : Point) : float := snd (fst p).

Definition pz (p : Point) : float := snd p.

(** The position array of a cloud: [x, y, z] of each point in order. *)
Definition flat (pts : list Point) : Float32Array :=
  flat_map (fun p => [px p; py p; pz p]) pts.

(** Point [k] of a cloud; outside the cloud every read is [undefined]. *)
Definition pt (pts : list Point) (k : nat) : Point := nth k pts (nan, nan, nan).

(** The smallest and the largest of a list of heights, by the comparisons
    of the first loop of [trimBottomRow]. *)
Definition minOf (ys : list float) : float :=
  fold_left (fun m y => if (y <? m)%float then y else m) ys infinity.

Definition maxOf (ys : list float) : float :=
  fold_left (fun m y => if (m <? y)%float then y else m) ys neg_infinity.

(** The points that survive the trim: those not at or below the threshold. *)
Definition survivors (threshold : float) (pts : list Point) : list Point :=
  filter (fun p => negb (py p <=? threshold)%float) pts.

(** The points at the indices that are multiples of [stride]. *)
Definition everyStrideth (stride : nat) (pts : list Point) : list Point :=
  map (pt pts) (filter (fun i => i mod stride =? 0) (seq 0 (length pts))).

(** The first [count] of them: indices [0, stride, ..., (count - 1) * stride]. *)
Definition strided (stride count : nat) (pts : list Point) : list Point :=
  map (fun k => pt pts (k * stride)) (seq 0 count).

(** The specification's wording of the decimation: every stride-th point is
    kept when the cloud exceeds the cap, and the cloud is unchanged
    otherwise. *)
Definition clamp_keeps_every_strideth (pts : list Point) (maxVertices : nat) : Prop :=
  (maxVertices < length pts ->
   clampPositions (flat pts) maxVertices =
   flat (everyStrideth (ceilDiv (length pts) maxVertices) pts)) /\
  (length pts <= maxVertices -> clampPositions (flat pts) maxVertices = flat pts).

(** Five points on a line, [(k, k, k)] for [k = 0 .. 4]. *)
Definition fivePoints : list Point :=
  [(0, 0, 0); (1, 1, 1); (2, 2, 2); (3, 3, 3); (4, 4, 4)]%float.

(** The final point of a cloud, if it has one. *)
Definition lastPoint (pts : list Point) : option Point :=
  nth_error pts (length pts - 1).

(** The point used for padding: each coordinate of the final point passed
    through [|| 0], and the origin for an empty cloud. *)
Definition padPoint (pts : list Point) : Point :=
  match lastPoint pts with
  | Some p => (orZero (px p), orZero (py p), orZero (pz p))
  | None => (0, 0, 0)%float
  end.

(** The specification's wording of the equalizer: exactly [targetN] points,
    the first [min(L, targetN)] verbatim, and every remaining point equal to
    the input's final point. *)
Definition adjust_pads_with_final_point (pts : list Point) (targetN : nat) : Prop :=
  exists out : list Point,
    adjustVertexCount (flat pts) targetN = flat out /\
    length out = targetN /\
    firstn (Nat.min (length pts) targetN) out =
    firstn (Nat.min (length pts) targetN) pts /\
    (length pts < targetN ->
     forall k, length pts <= k < targetN -> nth_error out k = lastPoint pts).

(** The specification's wording of the correspondence: the target indices
    chosen by the successive iterations are each of [0 .. N-1] exactly once,
    and output point [i] is the target point chosen for reference index
    [i]. *)
Definition uses_every_target_once (refPts tgtPts : list Point) : Prop :=
  exists sigma : list nat,
    Permutation sigma (seq 0 (length tgtPts)) /\
    chosen (matchLoop (flat refPts) (flat tgtPts)) = map Some sigma /\
    reorderToNearest (flat refPts) (flat tgtPts) =
    inr (flat (map (pt tgtPts) sigma)).

(** The specification's wording of the identity case: a cloud aligned with
    itself is returned unchanged, each reference index being assigned its
    own point. *)
Definition returns_the_cloud (pts : list Point) : Prop :=
  reorderToNearest (flat pts) (flat pts) = inr (flat pts) /\
  chosen (matchLoop (flat pts) (flat pts)) = map Some (seq 0 (length pts)).

(** The target indices chosen so far, in the order they were chosen. *)
Definition choices (picks : list (option nat)) : list nat :=
  flat_map (fun c => match c with Some j => [j] | None => [] end) picks.

(** All three coordinates are finite numbers. *)
Definition finitePoint (p : Point) : bool :=
  isFinite (px p) && isFinite (py p) && isFinite (pz p).

(** Four reference points and four target points near them in another
    order. *)
Definition refCloud : list Point :=
  [(0, 0, 0); (1, 1, 1); (5, 5, 5); (9, 9, 9)]%float.

Definition tgtCloud : list Point :=
  [(9, 9, 8); (0.5, 0.5, 0.5); (0, 0, 1); (5, 5, 4)]%float.

(** No coordinate of [p] is strictly outside the box [b]. *)
Definition encloses (b : Bounds) (p : Point) : Prop :=
  (px p <? minX b)%float = false /\ (maxX b <? px p)%float = false /\
  (py p <? minY b)%float = false /\ (maxY b <? py p)%float = false /\
  (pz p <? minZ b)%float = false /\ (maxZ b <? pz p)%float = false.

(** What [normalizePositions] stores for the point [p] of a cloud whose
    box is [b]: the offset from the centre of the box times the scale,
    rounded to binary32. *)
Definition normalizedPoint (b : Bounds) (p : Point) : Point :=
  let centerX := ((minX b + maxX b) / 2)%float in
  let centerY := ((minY b + maxY b) / 2)%float in
  let centerZ := ((minZ b + maxZ b) / 2)%float in
  let maxDim := Math_max3 (maxX b - minX b) (maxY b - minY b)
                          (maxZ b - minZ b) in
  let scale := if (0 <? maxDim)%float then (3.0 / maxDim)%float else 1.0%float in
  (Math_fround ((px p - centerX) * scale),
   Math_fround ((py p - centerY) * scale),
   Math_fround ((pz p - centerZ) * scale))%float.

(** Each coordinate rounded to binary32, as [new Float32Array(numbers)]
    stores it. *)
Definition froundPoint (p : Point) : Point :=
  (Math_fround (px p), Math_fround (py p), Math_fround (pz p)).

(** The first coordinate of the array returned is a finite number. *)
Definition firstIsFinite (r : Exn + Float32Array) : bool :=
  match r with
  | inr out => isFinite (nth 0 out nan)
  | inl _ => false
  end.

(** A cloud with a point at infinity. *)
Definition farCloud : list Point := [(infinity, 0, 0); (1, 2, 3)]%float.

(** A cloud with a repeated point, as padding produces. *)
Definition paddedCloud : list Point :=
  [(0, 0, 0); (1, 1, 1); (2.5, -3, 0.25); (2.5, -3, 0.25); (2.5, -3, 0.25)]%float.

(** One step of the box loop, on a point. *)
Definition growBox (b : Bounds) (p : Point) : Bounds :=
  mkBounds (if px p <? minX b then px p else minX b)%float
           (if py p <? minY b then py p else minY b)%float
           (if pz p <? minZ b then pz p else minZ b)%float
           (if maxX b <? px p then px p else maxX b)%float
           (if maxY b <? py p then py p else maxY b)%float
           (if maxZ b <? pz p then pz p else maxZ b)%float.

(** The point [p] with its height lowered by [delta], as stored. *)
Definition lowered (delta : float) (p : Point) : Point :=
  (px p, Math_fround (py p - delta)%float, pz p).

(** Four target points, two of them the same point. *)
Definition paddedCloud4 : list Point :=
  [(9, 9, 8); (0.5, 0.5, 0.5); (9, 9, 8); (5, 5, 4)]%float.

(** Four target points, one of them without a usable [x]. *)
Definition nanCloud : list Point :=
  [(9, 9, 8); (nan, 0.5, 0.5); (0, 0, 1); (5, 5, 4)]%float.
End MorphSpec.

(* ===================================================================== *)
(** * Facts about binary64 comparison and arithmetic *)
(* ===================================================================== *)

Module NumFacts.
Import JS.

Ltac cmp_cases :=
  repeat match goal with
  | |- context [Z.compare ?a ?b] =>
      destruct (Z.compare_spec a b); try subst; try discriminate; try lia
  | H : context [Z.compare ?a ?b] |- _ =>
      destruct (Z.compare_spec a b); try subst; try discriminate; try lia
  | |- context [Pos.compare_cont Eq ?a ?b] =>
      change (Pos.compare_cont Eq a b) with (Pos.compare a b);
      destruct (Pos.compare_spec a b); try subst; simpl in *;
      try discriminate; try lia
  | H : context [Pos.compare_cont Eq ?a ?b] |- _ =>
      change (Pos.compare_cont Eq a b) with (Pos.compare a b) in H;
      destruct (Pos.compare_spec a b); try subst; simpl in *;
      try discriminate; try lia
  end.

Lemma SFltb_irrefl (x : spec_float) : SFltb x x = false.
Proof.
  destruct x as [[]|[]| |[] m e]; try reflexivity; unfold SFltb; simpl;
    rewrite Z.compare_refl, Pos.compare_cont_refl; reflexivity.
Qed.

Lemma SFltb_trans (x y z : spec_float) :
  SFltb x y = true -> SFltb y z = true -> SFltb x z = true.
Proof.
  unfold SFltb.
  destruct x as [[]|[]| |[] mx ex], y as [[]|[]| |[] my ey],
           z as [[]|[]| |[] mz ez];
    simpl; intros H1 H2; try discriminate; try reflexivity;
    cmp_cases; try reflexivity.
Qed.


Lemma SFltb_not_nan_l (x y : spec_float) : SFltb x y = true -> x <> S754_nan.
Proof. intros H E; subst; discriminate. Qed.

(** [<] on numbers is a strict order, total on the numbers other than NaN. *)
Lemma ltb_irrefl (x : float) : (x <? x)%float = false.
Proof. rewrite ltb_spec; apply SFltb_irrefl. Qed.

Lemma ltb_trans (x y z : float) :
  (x <? y)%float = true -> (y <? z)%float = true -> (x <? z)%float = true.
Proof. rewrite !ltb_spec; apply SFltb_trans. Qed.

Lemma SFmul_comm (x y : spec_float) : SF64mul x y = SF64mul y x.
Proof.
  unfold SF64mul, SFmul.
  destruct x as [[]|[]| |[] mx ex], y as [[]|[]| |[] my ey]; try reflexivity;
    simpl; rewrite (Pos.mul_comm mx my), (Z.add_comm ex ey); reflexivity.
Qed.

(** Multiplication of numbers is commutative. *)
Lemma mul_comm (x y : float) : (x * y)%float = (y * x)%float.
Proof. apply Prim2SF_inj. rewrite !mul_spec. apply SFmul_comm. Qed.
(** A finite number minus itself is [+0]. *)
Lemma sub_self (x : float) : isFinite x = true -> (x - x)%float = 0%float.
Proof.
  intros H. apply Prim2SF_inj. rewrite sub_spec.
  change (Prim2SF 0) with (S754_zero false).
  unfold isFinite in H. unfold SF64sub, SFsub.
  destruct (Prim2SF x) as [[]|[]| |[] m e]; try discriminate; try reflexivity;
    match goal with
    | |- binary_normalize _ _ ?d _ _ = _ =>
        assert (Hd : d = 0%Z) by apply Z.sub_diag; rewrite Hd
    end; reflexivity.
Qed.

(** Adding [-0] changes nothing. *)
Lemma add_neg_zero (c : float) : (c + (-0))%float = c.
Proof.
  apply Prim2SF_inj. rewrite add_spec.
  change (Prim2SF (-0)) with (S754_zero true).
  unfold SF64add, SFadd. destruct (Prim2SF c) as [[]|[]| |[] m e]; reflexivity.
Qed.

(** NaN, or a number whose sign bit is clear. *)
Definition sf_pos (f : spec_float) : bool :=
  match f with
  | S754_nan => true
  | S754_zero s | S754_infinity s | S754_finite s _ _ => negb s
  end.

Lemma binary_round_aux_pos (m e : Z) (l : location) :
  sf_pos (binary_round_aux prec emax false m e l) = true.
Proof.
  unfold binary_round_aux.
  destruct (shr_fexp prec emax m e l) as [mrs' e'].
  destruct (shr_fexp prec emax _ e' loc_Exact) as [mrs'' e''].
  destruct (shr_m mrs''); [reflexivity| |reflexivity].
  destruct (e'' <=? emax - prec)%Z; reflexivity.
Qed.

Lemma SFmul_self_pos (x : spec_float) : sf_pos (SF64mul x x) = true.
Proof.
  unfold SF64mul, SFmul. destruct x as [[]|[]| |[] m e]; try reflexivity;
    apply binary_round_aux_pos.
Qed.

Lemma SFadd_pos (x y : spec_float) :
  sf_pos x = true -> sf_pos y = true -> sf_pos (SF64add x y) = true.
Proof.
  unfold SF64add, SFadd.
  destruct x as [[]|[]| |[] mx ex], y as [[]|[]| |[] my ey];
    try discriminate; try reflexivity.
  intros _ _. simpl. unfold binary_round.
  destruct (shl_align _ _ _) as [mz ez]. apply binary_round_aux_pos.
Qed.

Lemma sf_pos_not_below_zero (x : spec_float) :
  sf_pos x = true -> SFltb x (S754_zero false) = false.
Proof. destruct x as [[]|[]| |[] m e]; try discriminate; reflexivity. Qed.

(** A sum of three squares is never below zero. *)
Lemma sum_of_squares_not_negative (a b c : float) :
  (sq a + sq b + sq c <? 0)%float = false.
Proof.
  rewrite ltb_spec. change (Prim2SF 0) with (S754_zero false).
  apply sf_pos_not_below_zero. unfold sq.
  rewrite !add_spec, !mul_spec.
  repeat apply SFadd_pos; apply SFmul_self_pos.
Qed.
End NumFacts.

(* ===================================================================== *)
(** * Facts about lists and array loops *)
(* ===================================================================== *)

Module ListFacts.
Lemma combine_app {A B : Type} (l1 l2 : list A) (m1 m2 : list B) :
  length l1 = length m1 ->
  combine (l1 ++ l2) (m1 ++ m2) = combine l1 m1 ++ combine l2 m2.
Proof.
  revert m1; induction l1 as [|a l1 IH]; intros [|b m1] H; try discriminate.
  - reflexivity.
  - simpl. f_equal. apply IH. now injection H.
Qed.


Lemma fold_left_map {A B C : Type} (f : C -> B -> C) (g : A -> B)
      (l : list A) (c : C) :
  fold_left f (map g l) c = fold_left (fun acc a => f acc (g a)) l c.
Proof. revert c; induction l as [|a l IH]; intros c; simpl; auto. Qed.

Lemma fold_left_ext_in {A C : Type} (f g : C -> A -> C) (l : list A) (c : C) :
  (forall acc a, In a l -> f acc a = g acc a) ->
  fold_left f l c = fold_left g l c.
Proof.
  revert c; induction l as [|a l IH]; intros c H; simpl; [reflexivity|].
  rewrite H by (left; reflexivity). apply IH.
  intros acc b Hb. apply H. now right.
Qed.

(** A loop over the indices of a list that only reads the element at the
    index is a fold over the list. *)
Lemma fold_left_seq_nth {A C : Type} (f : C -> A -> C) (d : A)
      (l : list A) (c : C) :
  fold_left (fun acc k => f acc (nth k l d)) (seq 0 (length l)) c =
  fold_left f l c.
Proof.
  revert c; induction l as [|a l IH] using rev_ind; intros c; [reflexivity|].
  rewrite length_app, Nat.add_1_r, seq_S, !fold_left_app, Nat.add_0_l. simpl.
  rewrite nth_middle. f_equal. rewrite <- IH.
  apply fold_left_ext_in. intros acc k Hk.
  apply in_seq in Hk. now rewrite app_nth1 by lia.
Qed.

Lemma fold_left_invariant {A C : Type} (P : C -> Prop) (f : C -> A -> C)
      (l : list A) (c : C) :
  P c -> (forall acc a, In a l -> P acc -> P (f acc a)) ->
  P (fold_left f l c).
Proof.
  revert c; induction l as [|a l IH]; intros c Hc Hstep; simpl; [assumption|].
  apply IH.
  - apply Hstep; [now left|assumption].
  - intros acc b Hb. apply Hstep. now right.
Qed.
Lemma firstn_S_nth {A : Type} (l : list A) (c : nat) (d : A) :
  c < length l -> firstn (S c) l = firstn c l ++ [nth c l d].
Proof.
  revert c; induction l as [|a l IH]; intros c H; [simpl in H; lia|].
  destruct c as [|c]; [reflexivity|].
  simpl in H. cbn [firstn nth app]. f_equal. apply IH. lia.
Qed.

End ListFacts.

(* ===================================================================== *)
(** * Properties of src/lib/colors.ts *)
(* ===================================================================== *)

Module ColorsFacts.
Import JS Colors ColorsSpec NumFacts ListFacts.

Section ClosestLoop.
Variable distance : Lab -> float.
Variable dflt : Lab.

(** The distance of the candidate at index [k]. *)
Let d (pal : list Lab) (k : nat) : float := distance (nth k pal dflt).


Lemma closestLoop_snoc (pal : list Lab) (p : Lab) :
  closestLoop distance (pal ++ [p]) =
  closestStep distance (closestLoop distance pal) (length pal, p).
Proof.
  unfold closestLoop.
  rewrite length_app, Nat.add_1_r, seq_S, Nat.add_0_l.
  rewrite combine_app by (now rewrite length_seq).
  rewrite fold_left_app. reflexivity.
Qed.


End ClosestLoop.




(** C10: on an empty candidate list each of the three matchers returns
    index 0 (the loop body never runs), although no candidate is there. *)
Theorem closest_index_empty (labColor : Lab) :
  findClosestColorIndex labColor [] = 0 /\
  findClosestColorIndexAB labColor [] = 0 /\
  findClosestColorIndexL labColor [] = 0 /\
  nth_error (@nil Lab) 0 = None.
Proof. repeat split. Qed.
(** ** sortColorsByPairing *)


Lemma map_fst_combine {A B : Type} (l : list A) (l' : list B) :
  length l = length l' -> map fst (combine l l') = l.
Proof.
  revert l'. induction l as [|a l IH]; intros [|b l'] H;
    try discriminate; [reflexivity|].
  cbn [combine map fst]. f_equal. apply IH. now injection H.
Qed.

Lemma map_snd_combine {A B : Type} (l : list A) (l' : list B) :
  length l = length l' -> map snd (combine l l') = l'.
Proof.
  revert l'. induction l as [|a l IH]; intros [|b l'] H;
    try discriminate; [reflexivity|].
  cbn [combine map snd]. f_equal. apply IH. now injection H.
Qed.


Section Pairing.
Variable Math_pow : float -> float -> float.
Variable munkres : list (list float) -> option (list (nat * nat)).





End Pairing.


(** ** A check of minimality by enumeration *)

(** All lists of length [k] over [xs]. *)
Fixpoint listsOf {A : Type} (k : nat) (xs : list A) : list (list A) :=
  match k with
  | O => [[]]
  | S k' => flat_map (fun x => map (cons x) (listsOf k' xs)) xs
  end.

Lemma listsOf_complete {A : Type} (xs : list A) (l : list A) :
  (forall x, In x l -> In x xs) -> In l (listsOf (length l) xs).
Proof.
  induction l as [|a l IH]; intros Hin; [now left|].
  cbn [length listsOf]. apply in_flat_map. exists a.
  split; [apply Hin; now left|].
  apply in_map. apply IH. intros x Hx. apply Hin. now right.
Qed.

Fixpoint nodupb (l : list nat) : bool :=
  match l with
  | [] => true
  | x :: t => negb (existsb (Nat.eqb x) t) && nodupb t
  end.

Lemma nodupb_complete (l : list nat) : NoDup l -> nodupb l = true.
Proof.
  induction 1 as [|x t Hx Ht IH]; [reflexivity|].
  cbn [nodupb]. rewrite IH, andb_true_r. apply negb_true_iff.
  destruct (existsb (Nat.eqb x) t) eqn:E; [|reflexivity].
  apply existsb_exists in E. destruct E as (y & Hy & Exy).
  apply Nat.eqb_eq in Exy. subst y. contradiction.
Qed.





(** ** The contract of the solver can be honoured *)

Lemma listsOf_sound {A : Type} (xs : list A) (k : nat) :
  forall l, In l (listsOf k xs) ->
            length l = k /\ forall x, In x l -> In x xs.
Proof.
  induction k as [|k IH]; intros l Hl.
  - destruct Hl as [<-|[]]. split; [reflexivity|intros x []].
  - cbn [listsOf] in Hl. apply in_flat_map in Hl.
    destruct Hl as (a & Ha & Hl). apply in_map_iff in Hl.
    destruct Hl as (t & <- & Ht). destruct (IH t Ht) as [Hlen Hin].
    split; [cbn; now rewrite Hlen|].
    intros x [<-|Hx]; [exact Ha|now apply Hin].
Qed.

Lemma nodupb_sound (l : list nat) : nodupb l = true -> NoDup l.
Proof.
  induction l as [|x t IH]; intros H; [constructor|].
  cbn [nodupb] in H. apply andb_true_iff in H. destruct H as [Hx Ht].
  constructor; [|now apply IH].
  intros Hin. apply negb_true_iff in Hx.
  assert (E : existsb (Nat.eqb x) t = true).
  { apply existsb_exists. exists x. split; [exact Hin|apply Nat.eqb_refl]. }
  rewrite E in Hx. discriminate Hx.
Qed.

(** A list of pairs is a matching, decided. *)
Definition matchingb (other : list (nat * nat)) : bool :=
  nodupb (map fst other) && nodupb (map snd other).

(** The exact cost does not depend on the order of the pairs. *)
Lemma exactCost_permutation (m : list (list float)) (l l' : list (nat * nat)) :
  Permutation l l' -> exactCost m l = exactCost m l'.
Proof.
  unfold exactCost. induction 1 as [|x l l' _ IH|x y l|l l' l'' _ IH1 _ IH2];
    cbn [fold_right]; lia.
Qed.

Lemma isMatching_permutation (M N : nat) (l l' : list (nat * nat)) :
  Permutation l l' -> isMatching M N l -> isMatching M N l'.
Proof.
  intros Hp (Hr & Hc & Hrange). split; [|split].
  - apply (Permutation_NoDup (Permutation_map fst Hp) Hr).
  - apply (Permutation_NoDup (Permutation_map snd Hp) Hc).
  - intros pair Hin. apply Hrange.
    apply (Permutation_in _ (Permutation_sym Hp) Hin).
Qed.

(** Insertion sort by row. *)
Fixpoint insertRow (p : nat * nat) (l : list (nat * nat)) : list (nat * nat) :=
  match l with
  | [] => [p]
  | q :: t => if fst p <? fst q then p :: q :: t else q :: insertRow p t
  end.

Fixpoint sortRows (l : list (nat * nat)) : list (nat * nat) :=
  match l with
  | [] => []
  | p :: t => insertRow p (sortRows t)
  end.

Lemma insertRow_permutation (p : nat * nat) (l : list (nat * nat)) :
  Permutation (insertRow p l) (p :: l).
Proof.
  induction l as [|q t IH]; [reflexivity|]. cbn [insertRow].
  destruct (fst p <? fst q); [reflexivity|].
  rewrite IH. apply perm_swap.
Qed.

Lemma sortRows_permutation (l : list (nat * nat)) : Permutation (sortRows l) l.
Proof.
  induction l as [|p t IH]; [reflexivity|]. cbn [sortRows].
  rewrite insertRow_permutation. now constructor.
Qed.

Lemma insertRow_sorted (p : nat * nat) (l : list (nat * nat)) :
  ~ In (fst p) (map fst l) -> StronglySorted lt (map fst l) ->
  StronglySorted lt (map fst (insertRow p l)).
Proof.
  induction l as [|q t IH]; intros Hnew Hs.
  - cbn. constructor; constructor.
  - cbn [insertRow]. cbn [map] in Hs, Hnew.
    apply StronglySorted_inv in Hs. destruct Hs as [Hst Hq].
    destruct (Nat.ltb_spec (fst p) (fst q)) as [Hlt|Hge].
    + cbn [map]. constructor; [now constructor|].
      constructor; [exact Hlt|].
      eapply Forall_impl; [|exact Hq]. intros a Ha. cbn in Ha. lia.
    + cbn [map]. constructor.
      * apply IH; [|exact Hst]. intros Hin. apply Hnew. now right.
      * assert (Hqp : fst q < fst p).
        { destruct (Nat.eq_dec (fst q) (fst p)) as [E|E]; [|lia].
          exfalso. apply Hnew. now left. }
        apply Forall_forall. intros a Ha.
        apply (Permutation_in _ (Permutation_map fst (insertRow_permutation p t)))
          in Ha.
        destruct Ha as [<-|Ha]; [exact Hqp|].
        rewrite Forall_forall in Hq. now apply Hq.
Qed.

Lemma sortRows_sorted (l : list (nat * nat)) :
  NoDup (map fst l) -> StronglySorted lt (map fst (sortRows l)).
Proof.
  induction l as [|p t IH]; intros Hnd; [constructor|].
  cbn [map] in Hnd. inversion Hnd as [|? ? Hp Ht]; subst.
  cbn [sortRows]. apply insertRow_sorted; [|now apply IH].
  intros Hin. apply Hp.
  apply (Permutation_in _ (Permutation_map fst (sortRows_permutation t)) Hin).
Qed.

(** A cheapest element of a non-empty list. *)
Lemma cheapest_exists {A : Type} (cost : A -> Z) (l : list A) :
  l <> [] -> exists a, In a l /\ forall b, In b l -> (cost a <= cost b)%Z.
Proof.
  induction l as [|x l IH]; intros Hne; [congruence|].
  destruct l as [|y l'].
  - exists x. split; [now left|]. intros b [<-|[]]. lia.
  - destruct IH as (a & Ha & Hmin); [discriminate|].
    destruct (Z_le_gt_dec (cost x) (cost a)) as [Hle|Hgt].
    + exists x. split; [now left|].
      intros b [<-|Hb]; [lia|]. specialize (Hmin b Hb). lia.
    + exists a. split; [now right|].
      intros b [<-|Hb]; [lia|]. now apply Hmin.
Qed.

Lemma diagonal_matching (M N : nat) :
  isMatching M N (combine (seq 0 (Nat.min M N)) (seq 0 (Nat.min M N))) /\
  length (combine (seq 0 (Nat.min M N)) (seq 0 (Nat.min M N))) = Nat.min M N.
Proof.
  split; [split; [|split]|].
  - rewrite map_fst_combine by reflexivity. apply seq_NoDup.
  - rewrite map_snd_combine by reflexivity. apply seq_NoDup.
  - intros [i j] Hin. cbn [fst snd]. split.
    + apply in_combine_l in Hin. apply in_seq in Hin. lia.
    + apply in_combine_r in Hin. apply in_seq in Hin. lia.
  - rewrite length_combine, length_seq. lia.
Qed.

Lemma matching_listed (M N : nat) (other : list (nat * nat)) :
  isMatching M N other ->
  In other (filter matchingb
                   (listsOf (length other) (list_prod (seq 0 M) (seq 0 N)))).
Proof.
  intros (Hr & Hc & Hrange). apply filter_In. split.
  - apply listsOf_complete. intros [i j] Hij.
    destruct (Hrange _ Hij) as [Hi Hj]. cbn [fst snd] in Hi, Hj.
    apply in_prod; apply in_seq; lia.
  - unfold matchingb.
    now rewrite (nodupb_complete _ Hr), (nodupb_complete _ Hc).
Qed.

(** For every cost matrix some answer honours the contract: an exception
    when there is no row, and otherwise a cheapest matching, listed by
    ascending row. *)
Lemma solverContract_satisfiable (m : list (list float)) (M N : nat) :
  exists result, solverContract m M N result.
Proof.
  destruct M as [|M']; [exists None; reflexivity|].
  set (M := S M'). set (k := Nat.min M N).
  set (cands := filter matchingb (listsOf k (list_prod (seq 0 M) (seq 0 N)))).
  destruct (diagonal_matching M N) as [Hdm Hdl]. fold k in Hdm, Hdl.
  assert (Hne : cands <> []).
  { pose proof (matching_listed M N _ Hdm) as Hin. rewrite Hdl in Hin.
    fold cands in Hin. intros E. rewrite E in Hin. destruct Hin. }
  destruct (cheapest_exists (exactCost m) cands Hne) as (best & Hbest & Hmin).
  apply filter_In in Hbest. destruct Hbest as [Hlist Hgood].
  destruct (listsOf_sound _ _ _ Hlist) as [Hlen Hrange].
  unfold matchingb in Hgood. apply andb_true_iff in Hgood.
  destruct Hgood as [Hr Hc].
  assert (Hmatch : isMatching M N best).
  { split; [now apply nodupb_sound|split; [now apply nodupb_sound|]].
    intros [i j] Hij. specialize (Hrange _ Hij).
    apply in_prod_iff in Hrange. destruct Hrange as [Hi Hj].
    apply in_seq in Hi, Hj. cbn [fst snd]. lia. }
  pose proof (sortRows_permutation best) as Hperm.
  exists (Some (sortRows best)). cbn [solverContract].
  split; [unfold M; lia|]. split; [|split; [|split]].
  - apply (isMatching_permutation M N best); [now symmetry|exact Hmatch].
  - rewrite (Permutation_length Hperm). exact Hlen.
  - apply sortRows_sorted. apply Hmatch.
  - intros _ other Hother Hlo.
    rewrite (exactCost_permutation m _ _ Hperm).
    apply Hmin. pose proof (matching_listed M N other Hother) as Hin.
    rewrite Hlo in Hin. exact Hin.
Qed.
End ColorsFacts.

(* ===================================================================== *)
(** * Properties of the precompute script *)
(* ===================================================================== *)

Module MorphFacts.
Import JS Morph MorphSpec NumFacts ListFacts.

(** ** Point clouds and their position arrays *)

Lemma length_flat (pts : list Point) : length (flat pts) = 3 * length pts.
Proof. induction pts as [|p pts IH]; simpl; [reflexivity|]. rewrite IH. lia. Qed.

Lemma flat_app (p q : list Point) : flat (p ++ q) = flat p ++ flat q.
Proof. apply flat_map_app. Qed.

Lemma rd_flat (pts : list Point) (k : nat) :
  rd (flat pts) (k * 3) = px (pt pts k) /\
  rd (flat pts) (k * 3 + 1) = py (pt pts k) /\
  rd (flat pts) (k * 3 + 2) = pz (pt pts k).
Proof.
  revert k; induction pts as [|p pts IH]; intros k.
  - unfold rd, pt. simpl. destruct k; simpl; repeat split;
      match goal with |- context [nth ?i [] _] => destruct i end; reflexivity.
  - destruct k as [|k].
    + repeat split.
    + specialize (IH k). unfold rd, pt in *. simpl.
      replace (k * 3 + 1) with (S (k * 3)) in * by lia.
      replace (k * 3 + 2) with (S (S (k * 3))) in * by lia.
      exact IH.
Qed.

Lemma by3_0 (n : nat) : by3 0 (3 * n) = map (fun k => k * 3) (seq 0 n).
Proof.
  unfold by3. replace ((3 * n + 2 - 0) / 3) with n.
  - apply map_ext. intros k. lia.
  - apply Nat.div_unique with (r := 2); lia.
Qed.

Lemma by3_1 (n : nat) : by3 1 (3 * n) = map (fun k => k * 3 + 1) (seq 0 n).
Proof.
  unfold by3. destruct n as [|n]; [reflexivity|].
  replace ((3 * S n + 2 - 1) / 3) with (S n).
  - apply map_ext. intros k. lia.
  - apply Nat.div_unique with (r := 1); lia.
Qed.

(** A loop [for (i = 0; i < positions.length; i += 3)] that reads
    [positions[i .. i + 2]] is a fold over the points of the cloud. *)
Lemma fold_by3_flat {C : Type} (f : C -> float -> float -> float -> C)
      (pts : list Point) (c : C) :
  fold_left (fun acc i => f acc (rd (flat pts) i) (rd (flat pts) (i + 1))
                            (rd (flat pts) (i + 2)))
            (by3 0 (length (flat pts))) c =
  fold_left (fun acc p => f acc (px p) (py p) (pz p)) pts c.
Proof.
  rewrite length_flat, by3_0, fold_left_map.
  rewrite <- (fold_left_seq_nth (fun acc p => f acc (px p) (py p) (pz p))
                                (nan, nan, nan) pts c).
  apply fold_left_ext_in. intros acc k _.
  destruct (rd_flat pts k) as (-> & -> & ->). reflexivity.
Qed.

(** ** reorderToNearest: mismatched lengths *)

(** C8: when the two position arrays differ in length, reorderToNearest
    throws its error; no bounds, buckets or matching are computed, and no
    array is returned. *)
Theorem reorder_length_mismatch_throws
        (referencePositions targetPositions : Float32Array) :
  length targetPositions <> length referencePositions ->
  reorderToNearest referencePositions targetPositions =
  inl (Error "reorderToNearest requires equal-length position arrays.").
Proof.
  intros H. unfold reorderToNearest.
  apply Nat.eqb_neq in H. now rewrite H.
Qed.

Lemma reorder_length_mismatch_throws_witness :
  reorderToNearest [0; 0; 0; 1; 1; 1]%float [0; 0; 0]%float =
  inl (Error "reorderToNearest requires equal-length position arrays.").
Proof.
  apply (reorder_length_mismatch_throws [0; 0; 0; 1; 1; 1]%float [0; 0; 0]%float).
  simpl. lia.
Defined.

(** ** trimBottomRow *)

Lemma fold_pair {A : Type} (f g : float -> A -> float) (l : list A) (a b : float) :
  fold_left (fun (mm : float * float) x => (f (fst mm) x, g (snd mm) x)) l (a, b) =
  (fold_left f l a, fold_left g l b).
Proof. revert a b; induction l as [|x l IH]; intros a b; simpl; auto. Qed.

Lemma yRange_flat (pts : list Point) :
  yRange (flat pts) = (minOf (map py pts), maxOf (map py pts)).
Proof.
  unfold yRange, minOf, maxOf.
  rewrite length_flat, by3_1, fold_left_map.
  rewrite !fold_left_map.
  rewrite <- (fold_pair (fun m p => if (py p <? m)%float then py p else m)
                        (fun m p => if (m <? py p)%float then py p else m)).
  rewrite <- (fold_left_seq_nth _ (nan, nan, nan) pts).
  apply fold_left_ext_in. intros acc k _.
  destruct (rd_flat pts k) as (_ & -> & _). reflexivity.
Qed.

Lemma minOf_lower (ys : list float) (y : float) :
  In y ys -> (y <? minOf ys)%float = false.
Proof.
  unfold minOf. generalize infinity.
  induction ys as [|a ys IH] using rev_ind; intros m0 Hin; [destruct Hin|].
  rewrite fold_left_app. simpl.
  set (m := fold_left _ ys m0).
  apply in_app_or in Hin. destruct Hin as [Hin|[<-|[]]].
  - specialize (IH m0 Hin). fold m in IH.
    destruct (a <? m)%float eqn:Ha; [|exact IH].
    destruct (y <? a)%float eqn:Hy; [|reflexivity].
    rewrite <- IH. symmetry. now apply ltb_trans with (y := a).
  - destruct (a <? m)%float eqn:Ha; [apply ltb_irrefl|exact Ha].
Qed.

Lemma maxOf_upper (ys : list float) (y : float) :
  In y ys -> (maxOf ys <? y)%float = false.
Proof.
  unfold maxOf. generalize neg_infinity.
  induction ys as [|a ys IH] using rev_ind; intros m0 Hin; [destruct Hin|].
  rewrite fold_left_app. simpl.
  set (m := fold_left _ ys m0).
  apply in_app_or in Hin. destruct Hin as [Hin|[<-|[]]].
  - specialize (IH m0 Hin). fold m in IH.
    destruct (m <? a)%float eqn:Ha; [|exact IH].
    destruct (a <? y)%float eqn:Hy; [|reflexivity].
    rewrite <- IH. symmetry. now apply ltb_trans with (y := a).
  - destruct (m <? a)%float eqn:Ha; [apply ltb_irrefl|exact Ha].
Qed.

Lemma minOf_attained (ys : list float) :
  minOf ys = infinity \/ In (minOf ys) ys.
Proof.
  unfold minOf. induction ys as [|a ys IH] using rev_ind; [now left|].
  rewrite fold_left_app. simpl.
  destruct (a <? _)%float.
  - right. apply in_or_app. right. now left.
  - destruct IH as [IH|IH]; [now left|right]. apply in_or_app. now left.
Qed.

Lemma maxOf_attained (ys : list float) :
  maxOf ys = neg_infinity \/ In (maxOf ys) ys.
Proof.
  unfold maxOf. induction ys as [|a ys IH] using rev_ind; [now left|].
  rewrite fold_left_app. simpl.
  destruct (_ <? a)%float.
  - right. apply in_or_app. right. now left.
  - destruct IH as [IH|IH]; [now left|right]. apply in_or_app. now left.
Qed.

Lemma trimKept_fold (pts : list Point) (threshold : float) (acc : list float) :
  fold_left (fun kept p => if (py p <=? threshold)%float then kept
                           else kept ++ [px p; py p; pz p]) pts acc =
  acc ++ flat (survivors threshold pts).
Proof.
  revert acc; induction pts as [|p pts IH]; intros acc; simpl.
  - now rewrite app_nil_r.
  - destruct (py p <=? threshold)%float; simpl.
    + apply IH.
    + rewrite IH, <- app_assoc. reflexivity.
Qed.

Lemma trimKept_flat (pts : list Point) (threshold : float) :
  trimKept (flat pts) threshold = flat (survivors threshold pts).
Proof.
  unfold trimKept.
  rewrite (fold_by3_flat
             (fun kept x y z => if (y <=? threshold)%float then kept
                                else kept ++ [x; y; z]) pts []).
  apply trimKept_fold.
Qed.

(** C7: with the Y-range [minY, maxY] of the cloud's own heights and the
    threshold [minY + 0.01 * (maxY - minY)], trimBottomRow returns exactly
    the points whose height is not at or below the threshold, in order;
    when no point survives it returns the cloud unchanged.  No height is
    below [minY] or above [maxY]. *)
Theorem trim_bottom_row_spec (pts : list Point) :
  let minY := minOf (map py pts) in
  let maxY := maxOf (map py pts) in
  let threshold := (minY + 0.01 * (maxY - minY))%float in
  (forall p, In p pts ->
             (py p <? minY)%float = false /\ (maxY <? py p)%float = false) /\
  (minY = infinity \/ In minY (map py pts)) /\
  (maxY = neg_infinity \/ In maxY (map py pts)) /\
  (forall p, In p (survivors threshold pts) <->
             In p pts /\ (py p <=? threshold)%float = false) /\
  trimBottomRow (flat pts) =
  match survivors threshold pts with
  | [] => flat pts
  | kept => flat kept
  end.
Proof.
  intros minY maxY threshold. split; [|split; [|split; [|split]]].
  - intros p Hp. split.
    + apply minOf_lower. now apply in_map.
    + apply maxOf_upper. now apply in_map.
  - apply minOf_attained.
  - apply maxOf_attained.
  - intros p. unfold survivors. rewrite filter_In, negb_true_iff. reflexivity.
  - unfold trimBottomRow.
    assert (Hthr : trimThreshold (flat pts) = threshold).
    { unfold trimThreshold. rewrite yRange_flat.
      unfold threshold, minY, maxY. now rewrite mul_comm. }
    rewrite Hthr, trimKept_flat, !length_flat.
    destruct pts as [|p pts]; [reflexivity|].
    replace (3 * length (p :: pts) <? 3) with false
      by (symmetry; apply Nat.ltb_ge; simpl; lia).
    destruct (survivors threshold (p :: pts)) as [|q kept]; [reflexivity|].
    replace (3 <=? 3 * length (q :: kept)) with true
      by (symmetry; apply Nat.leb_le; simpl; lia).
    reflexivity.
Qed.

Example trim_four_points :
  trimBottomRow (flat [(0, 0, 0); (1, 1, 1); (2, 100, 2); (3, 0.5, 3)]%float) =
  flat [(2, 100, 2)]%float /\
  trimBottomRow (flat [(1, 5, 1); (2, 5, 2)]%float) =
  flat [(1, 5, 1); (2, 5, 2)]%float.
Proof. split; reflexivity. Qed.

(** ** Array stores *)

Lemma length_wr {A : Type} (a : list A) (i : nat) (v : A) :
  length (wr a i v) = length a.
Proof.
  revert i; induction a as [|h t IH]; intros [|i]; simpl; auto.
Qed.

Lemma wr_app_r {A : Type} (l1 l2 : list A) (j : nat) (v : A) :
  wr (l1 ++ l2) (length l1 + j) v = l1 ++ wr l2 j v.
Proof.
  induction l1 as [|h t IH]; simpl; [reflexivity|].
  destruct l2; simpl in *; f_equal; exact IH.
Qed.

Lemma wr_middle {A : Type} (l1 l2 : list A) (n : nat) (v0 v : A) :
  length l1 = n -> wr (l1 ++ v0 :: l2) n v = l1 ++ v :: l2.
Proof.
  intros <-. rewrite <- (Nat.add_0_r (length l1)), wr_app_r. reflexivity.
Qed.

(** Three consecutive stores fill one point of the array. *)
Lemma wr_point {A : Type} (l1 l2 : list A) (n : nat) (a b c x y z : A) :
  length l1 = n ->
  wr (wr (wr (l1 ++ a :: b :: c :: l2) n x) (n + 1) y) (n + 2) z =
  l1 ++ x :: y :: z :: l2.
Proof.
  intros H. rewrite (wr_middle l1 _ n a x H).
  replace (l1 ++ x :: b :: c :: l2) with ((l1 ++ [x]) ++ b :: c :: l2)
    by (now rewrite <- app_assoc).
  rewrite (wr_middle (l1 ++ [x]) _ (n + 1) b y)
    by (rewrite length_app; simpl; lia).
  replace ((l1 ++ [x]) ++ y :: c :: l2) with ((l1 ++ [x; y]) ++ c :: l2)
    by (now rewrite <- !app_assoc).
  rewrite (wr_middle (l1 ++ [x; y]) _ (n + 2) c z)
    by (rewrite length_app; simpl; lia).
  now rewrite <- app_assoc.
Qed.

Lemma repeat_3S {A : Type} (v : A) (m : nat) :
  repeat v (3 * S m) = v :: v :: v :: repeat v (3 * m).
Proof. replace (3 * S m) with (S (S (S (3 * m)))) by lia. reflexivity. Qed.

Lemma firstn_flat (pts : list Point) (k : nat) :
  firstn (3 * k) (flat pts) = flat (firstn k pts).
Proof.
  revert k; induction pts as [|p pts IH]; intros k.
  - now rewrite !firstn_nil.
  - destruct k as [|k]; [reflexivity|].
    replace (3 * S k) with (S (S (S (3 * k)))) by lia.
    change (flat (p :: pts)) with (px p :: py p :: pz p :: flat pts).
    change (flat (firstn (S k) (p :: pts)))
      with (px p :: py p :: pz p :: flat (firstn k pts)).
    cbn [firstn]. now rewrite IH.
Qed.

(** ** clampPositions *)

Lemma clampLoop_spec (pts : list Point) (stride K : nat) :
  (forall ri, ri < K -> ri * stride < length pts) ->
  forall fuel ri,
    fuel + ri = K ->
    clampLoop fuel (flat pts) (length pts) stride (ri * stride) ri
      (flat (map (fun k => pt pts (k * stride)) (seq 0 ri))
       ++ repeat 0%float (3 * fuel)) =
    flat (map (fun k => pt pts (k * stride)) (seq 0 K)).
Proof.
  intros Hin. induction fuel as [|fuel IH]; intros ri HK.
  - simpl in *. subst ri. now rewrite app_nil_r.
  - cbn [clampLoop].
    assert (Hri : ri < K) by lia.
    replace (ri * stride <? length pts) with true
      by (symmetry; apply Nat.ltb_lt; auto).
    rewrite length_app, length_flat, length_map, length_seq, repeat_length.
    replace ((3 * ri + 3 * S fuel) / 3) with K
      by (apply Nat.div_unique with (r := 0); lia).
    replace (ri <? K) with true by (symmetry; now apply Nat.ltb_lt).
    cbn [andb].
    destruct (rd_flat pts (ri * stride)) as (-> & -> & ->).
    rewrite repeat_3S, wr_point
      by (rewrite length_flat, length_map, length_seq; lia).
    specialize (IH (S ri) ltac:(lia)).
    rewrite seq_S, map_app, flat_app in IH. simpl in IH.
    rewrite <- app_assoc in IH. simpl in IH.
    replace (ri * stride + stride) with (stride + ri * stride) by lia.
    exact IH.
Qed.

Lemma div3 (n : nat) : 3 * n / 3 = n.
Proof. symmetry. apply Nat.div_unique with (r := 0); lia. Qed.

(** C6, as the script does it: a cloud within the cap is returned
    unchanged; a larger one is decimated with stride [ceil(count / max)] to
    its points at indices [0, stride, 2 * stride, ...], of which only the
    first [floor(count / stride)] are kept, and these are at most [max]. *)
Theorem clamp_positions_spec (pts : list Point) (maxVertices : nat) :
  let count := length pts in
  let stride := ceilDiv count maxVertices in
  (count <= maxVertices -> clampPositions (flat pts) maxVertices = flat pts) /\
  (maxVertices < count ->
   clampPositions (flat pts) maxVertices = flat (strided stride (count / stride) pts) /\
   count / stride <= maxVertices /\
   (forall k, k < count / stride -> k * stride < count)).
Proof.
  intros count stride. unfold clampPositions. rewrite length_flat, div3.
  fold count. split.
  - intros H. apply Nat.leb_le in H. now rewrite H.
  - intros H. apply Nat.leb_gt in H. rewrite H. apply Nat.leb_gt in H.
    fold stride.
    assert (Hin : forall k, k < count / stride -> k * stride < count).
    { intros k Hk. destruct stride as [|s]; [simpl in Hk; lia|].
      pose proof (Nat.Div0.mul_div_le count (S s)). nia. }
    split; [|split].
    + replace (count / stride * 3) with (3 * (count / stride)) by lia.
      apply (clampLoop_spec pts stride (count / stride) Hin (count / stride) 0).
      lia.
    + destruct maxVertices as [|m]; [unfold stride, ceilDiv; simpl; lia|].
      assert (Hs : count <= stride * S m).
      { unfold stride, ceilDiv.
        pose proof (Nat.div_mod_eq (count + S m - 1) (S m)).
        pose proof (Nat.mod_upper_bound (count + S m - 1) (S m) ltac:(lia)).
        nia. }
      destruct stride as [|s]; [lia|].
      apply Nat.Div0.div_le_upper_bound. nia.
    + exact Hin.
Qed.

(** With five points and a cap of two the stride is 3: the stride-th points
    are those at indices 0 and 3, but only the one at index 0 is kept. *)
Lemma clamp_drops_a_strideth_point :
  ~ clamp_keeps_every_strideth fivePoints 2.
Proof.
  intros [H _]. specialize (H ltac:(simpl; lia)).
  vm_compute in H. discriminate H.
Qed.

Example clamp_five_points_cap_two :
  clampPositions (flat fivePoints) 2 = [0; 0; 0]%float /\
  flat (everyStrideth 3 fivePoints) = [0; 0; 0; 3; 3; 3]%float.
Proof. split; reflexivity. Qed.

Lemma clamp_positions_spec_witness :
  clampPositions (flat fivePoints) 2 = flat (strided 3 1 fivePoints) /\
  1 <= 2 /\ (forall k, k < 1 -> k * 3 < 5).
Proof.
  apply (proj2 (clamp_positions_spec fivePoints 2)). simpl. lia.
Defined.

(** ** adjustVertexCount *)

Lemma copy_loop (positions : Float32Array) (n c : nat) :
  c <= length positions -> c <= n ->
  fold_left (fun a i => wr a i (rd positions i)) (seq 0 c) (repeat 0%float n) =
  firstn c positions ++ repeat 0%float (n - c).
Proof.
  induction c as [|c IH]; intros Hc Hn.
  - simpl. now rewrite Nat.sub_0_r.
  - rewrite seq_S, fold_left_app, IH by lia. cbn [fold_left Nat.add].
    replace (n - c) with (S (n - S c)) by lia. cbn [repeat].
    rewrite wr_middle by (rewrite length_firstn; lia).
    rewrite (firstn_S_nth positions c nan) by lia.
    unfold rd. now rewrite <- app_assoc.
Qed.

Lemma padLoop_spec (x y z : float) (m : nat) :
  forall fuel pre,
    m <= fuel ->
    padLoop fuel (pre ++ repeat 0%float (3 * m)) (length pre) (length pre + 3 * m)
            x y z =
    pre ++ flat (repeat (x, y, z) m).
Proof.
  induction m as [|m IH]; intros fuel pre Hfuel.
  - simpl. rewrite Nat.add_0_r.
    destruct fuel; simpl; [reflexivity|]. now rewrite Nat.ltb_irrefl.
  - destruct fuel as [|fuel]; [lia|]. cbn [padLoop].
    replace (length pre <? length pre + 3 * S m) with true
      by (symmetry; apply Nat.ltb_lt; lia).
    rewrite repeat_3S, wr_point by reflexivity.
    assert (Hlen : length (pre ++ [x; y; z]) = length pre + 3)
      by (rewrite length_app; reflexivity).
    replace (pre ++ x :: y :: z :: repeat 0%float (3 * m))
      with ((pre ++ [x; y; z]) ++ repeat 0%float (3 * m))
      by (rewrite <- app_assoc; reflexivity).
    rewrite <- Hlen.
    replace (length pre + 3 * S m) with (length (pre ++ [x; y; z]) + 3 * m)
      by (rewrite Hlen; lia).
    rewrite IH by lia.
    rewrite <- app_assoc. reflexivity.
Qed.

Lemma orZero_cases (x : float) :
  (truthy x = true /\ orZero x = x) \/ (truthy x = false /\ orZero x = 0%float).
Proof. unfold orZero. destruct (truthy x); [left|right]; split; reflexivity. Qed.

Lemma lastPoint_pt (pts : list Point) (l : nat) :
  length pts = S l -> lastPoint pts = Some (pt pts l).
Proof.
  intros H. unfold lastPoint, pt. rewrite H. simpl. rewrite Nat.sub_0_r.
  apply nth_error_nth'. lia.
Qed.

(** C5, as the script does it: the result has exactly [targetN] points; it
    starts with the first [min(L, targetN)] input points verbatim and, when
    the input is shorter, continues with copies of the padding point: the
    final input point with each coordinate passed through [|| 0] (unchanged
    when it is a non-zero number, 0 when it is 0, -0 or NaN), or the origin
    when the input cloud is empty. *)
Theorem adjust_vertex_count_spec (pts : list Point) (targetN : nat) :
  adjustVertexCount (flat pts) targetN =
  flat (firstn targetN pts ++ repeat (padPoint pts) (targetN - length pts)) /\
  length (firstn targetN pts ++ repeat (padPoint pts) (targetN - length pts))
  = targetN /\
  (forall p, lastPoint pts = Some p ->
             truthy (px p) = true -> truthy (py p) = true -> truthy (pz p) = true ->
             padPoint pts = p) /\
  (pts = [] -> padPoint pts = (0, 0, 0)%float).
Proof.
  split; [|split; [|split]].
  - unfold adjustVertexCount. rewrite length_flat.
    replace (Nat.min (3 * length pts) (targetN * 3))
      with (3 * Nat.min (length pts) targetN) by lia.
    rewrite copy_loop by (rewrite ?length_flat; lia).
    rewrite firstn_flat, div3.
    destruct (Nat.ltb_spec (Nat.min (length pts) targetN) targetN) as [Hlt|Hge].
    + assert (HL : length pts < targetN) by lia.
      replace (Nat.min (length pts) targetN) with (length pts) by lia.
      rewrite firstn_all.
      rewrite (firstn_all2 (n := targetN)) by lia.
      replace (targetN * 3 - 3 * length pts) with (3 * (targetN - length pts))
        by lia.
      replace (length pts * 3) with (length (flat pts))
        by (rewrite length_flat; lia).
      replace (targetN * 3)
        with (length (flat pts) + 3 * (targetN - length pts))
        by (rewrite length_flat; lia).
      rewrite padLoop_spec by lia.
      rewrite flat_app. f_equal. f_equal. f_equal.
      unfold padPoint.
      destruct (length pts) as [|l] eqn:EL.
      * destruct pts; [|discriminate]. reflexivity.
      * rewrite (lastPoint_pt pts l EL).
        assert (Hrd : forall c, c < 3 ->
                  rdZ (flat pts ++ repeat 0%float (3 * (targetN - S l)))
                      (Z.of_nat (3 * S l) - 3 + Z.of_nat c) =
                  rd (flat pts) (l * 3 + c)).
        { intros c Hc. unfold rdZ.
          replace (Z.of_nat (3 * S l) - 3 + Z.of_nat c)%Z
            with (Z.of_nat (l * 3 + c)) by lia.
          replace (Z.of_nat (l * 3 + c) <? 0)%Z with false
            by (symmetry; apply Z.ltb_ge; lia).
          rewrite Nat2Z.id. unfold rd. apply app_nth1.
          rewrite length_flat. lia. }
        pose proof (Hrd 0 ltac:(lia)) as H0.
        pose proof (Hrd 1 ltac:(lia)) as H1.
        pose proof (Hrd 2 ltac:(lia)) as H2.
        rewrite Z.add_0_r, Nat.add_0_r in H0.
        replace (Z.of_nat (3 * S l) - 3 + Z.of_nat 1)%Z
          with (Z.of_nat (3 * S l) - 2)%Z in H1 by lia.
        replace (Z.of_nat (3 * S l) - 3 + Z.of_nat 2)%Z
          with (Z.of_nat (3 * S l) - 1)%Z in H2 by lia.
        rewrite H0, H1, H2.
        destruct (rd_flat pts l) as (-> & -> & ->). reflexivity.
    + assert (HL : targetN <= length pts) by lia.
      replace (Nat.min (length pts) targetN) with targetN by lia.
      replace (targetN * 3 - 3 * targetN) with 0 by lia.
      replace (targetN - length pts) with 0 by lia.
      cbn [repeat]. now rewrite !app_nil_r.
  - rewrite length_app, repeat_length, length_firstn. lia.
  - intros p Hp Hx Hy Hz. unfold padPoint, orZero. rewrite Hp, Hx, Hy, Hz.
    destruct p as [[x y] z]. reflexivity.
  - intros ->. reflexivity.
Qed.

Example adjust_empty_cloud :
  adjustVertexCount [] 1 = [0; 0; 0]%float.
Proof. reflexivity. Qed.

Example adjust_nan_coordinate :
  adjustVertexCount [1; 2; nan]%float 2 = [1; 2; nan; 1; 2; 0]%float.
Proof. reflexivity. Qed.

(** An empty cloud has no final point and is padded with the origin; a
    final point with a NaN coordinate is repeated with 0 in its place. *)
Lemma adjust_padding_is_not_the_final_point :
  ~ adjust_pads_with_final_point [] 1 /\
  ~ adjust_pads_with_final_point [(1, 2, nan)%float] 2.
Proof.
  split.
  - intros (out & _ & Hlen & _ & Hpad).
    specialize (Hpad ltac:(simpl; lia) 0 ltac:(simpl; lia)).
    destruct out as [|p out]; [discriminate Hlen|]. discriminate Hpad.
  - intros (out & Hout & Hlen & _ & Hpad).
    specialize (Hpad ltac:(simpl; lia) 1 ltac:(simpl; lia)).
    destruct out as [|p [|q [|r out]]]; try discriminate Hlen.
    cbn in Hpad. injection Hpad as Hq. subst q.
    change (adjustVertexCount (flat [(1, 2, nan)%float]) 2)
      with [1; 2; nan; 1; 2; 0]%float in Hout.
    apply (f_equal (fun out => is_nan (nth 5 out 0%float))) in Hout.
    vm_compute in Hout. discriminate Hout.
Qed.

Lemma adjust_vertex_count_spec_witness :
  adjustVertexCount (flat [(1, 2, 3); (4, 5, 6)]%float) 4 =
  flat [(1, 2, 3); (4, 5, 6); (4, 5, 6); (4, 5, 6)]%float.
Proof.
  exact (proj1 (adjust_vertex_count_spec [(1, 2, 3); (4, 5, 6)]%float 4)).
Defined.

(** ** reorderToNearest: the nearest-candidate search *)

Lemma nth_wr {A : Type} (a : list A) (i j : nat) (v d : A) :
  i < length a ->
  nth j (wr a i v) d = if j =? i then v else nth j a d.
Proof.
  revert i j; induction a as [|h t IH]; intros i j Hi; [simpl in Hi; lia|].
  destruct i as [|i], j as [|j]; simpl; try reflexivity.
  apply IH. simpl in Hi. lia.
Qed.

Section Search.
Variable targetPositions : Float32Array.
Variable av : list bool.
Variables rx ry rz : float.

(** The squared distance from target point [idx] to the reference point. *)
Definition targetDist2 (idx : nat) : float :=
  dist2 (rd targetPositions (idx * 3)) (rd targetPositions (idx * 3 + 1))
        (rd targetPositions (idx * 3 + 2)) rx ry rz.

(** A search state is sound: nothing found yet and the best distance still
    [Infinity], or an index found that is available. *)
Definition bestOk (best : Best) : Prop :=
  match fst best with
  | None => snd best = infinity
  | Some j => nth j av false = true
  end.

Lemma consider_ok (best : Best) (idx : nat) :
  bestOk best -> bestOk (consider targetPositions av rx ry rz best idx).
Proof.
  unfold consider. intros H.
  destruct (nth idx av false) eqn:Ha; simpl; [|exact H].
  destruct (_ <? snd best)%float; [|exact H].
  unfold bestOk. simpl. exact Ha.
Qed.

Lemma consider_found (best : Best) (idx : nat) :
  fst best <> None ->
  fst (consider targetPositions av rx ry rz best idx) <> None.
Proof.
  unfold consider. intros H.
  destruct (nth idx av false); simpl; [|exact H].
  destruct (_ <? snd best)%float; [simpl; discriminate|exact H].
Qed.

Lemma scan_ok (arr : list nat) (best : Best) :
  bestOk best ->
  bestOk (fold_left (consider targetPositions av rx ry rz) arr best).
Proof.
  intros H. apply fold_left_invariant; [exact H|].
  intros acc a _. apply consider_ok.
Qed.

Lemma scan_found (arr : list nat) (best : Best) :
  fst best <> None ->
  fst (fold_left (consider targetPositions av rx ry rz) arr best) <> None.
Proof.
  intros H.
  apply (fold_left_invariant (fun b : Best => fst b <> None)); [exact H|].
  intros acc a _. apply consider_found.
Qed.

Lemma scanCell_ok (bk : Buckets) (cx cy cz : float) (best : Best)
      (d : float * float * float) :
  bestOk best ->
  bestOk (scanCell targetPositions bk av cx cy cz rx ry rz best d).
Proof.
  intros H. unfold scanCell. destruct d as [[dx dy] dz].
  destruct (bucket_get _ bk); [now apply scan_ok|exact H].
Qed.

Lemma ringSearch_ok (bk : Buckets) (cx cy cz : float) (rs : list nat) :
  forall best,
    bestOk best ->
    bestOk (ringSearch targetPositions bk av cx cy cz rx ry rz rs best).
Proof.
  induction rs as [|r rs IH]; intros best H; simpl; [exact H|].
  destruct (fst best) eqn:E; [exact H|].
  apply IH. apply fold_left_invariant; [exact H|].
  intros acc d _. apply scanCell_ok.
Qed.

(** The linear scan finds a candidate as soon as one index is available
    and at a finite distance. *)
Lemma linear_scan_finds (l : list nat) :
  forall best,
    bestOk best ->
    (exists idx, In idx l /\ nth idx av false = true /\
                 (targetDist2 idx <? infinity)%float = true) ->
    fst (fold_left (consider targetPositions av rx ry rz) l best) <> None.
Proof.
  induction l as [|i l IH]; intros best Hok (idx & Hin & Ha & Hd);
    [destruct Hin|].
  simpl. destruct (fst best) eqn:Eb.
  - apply scan_found. apply consider_found. congruence.
  - destruct Hin as [->|Hin].
    + apply scan_found. unfold consider. rewrite Ha. simpl.
      unfold bestOk in Hok. rewrite Eb in Hok. rewrite Hok.
      fold (targetDist2 idx). rewrite Hd. simpl. discriminate.
    + apply IH; [now apply consider_ok|].
      exists idx. auto.
Qed.
End Search.

Section Matching.
Variables referencePositions targetPositions : Float32Array.

Lemma findNearest_available (bk : Buckets) (av : list bool) (rx ry rz : float)
      (j : nat) :
  findNearest referencePositions targetPositions bk av rx ry rz = Some j ->
  nth j av false = true.
Proof.
  unfold findNearest.
  set (best := ringSearch _ _ _ _ _ _ _ _ _ _ _).
  assert (Hok : bestOk av best).
  { apply ringSearch_ok. reflexivity. }
  destruct (fst best) eqn:E.
  - intros H. unfold bestOk in Hok. rewrite E in Hok. congruence.
  - intros H.
    pose proof (scan_ok targetPositions av rx ry rz
                        (seq 0 (len referencePositions)) best Hok) as Hok'.
    unfold bestOk in Hok'. rewrite H in Hok'. exact Hok'.
Qed.

Lemma findNearest_finds (bk : Buckets) (av : list bool) (rx ry rz : float) :
  (exists idx, idx < len referencePositions /\ nth idx av false = true /\
               (targetDist2 targetPositions rx ry rz idx <? infinity)%float = true) ->
  findNearest referencePositions targetPositions bk av rx ry rz <> None.
Proof.
  intros (idx & Hidx & Ha & Hd). unfold findNearest.
  set (best := ringSearch _ _ _ _ _ _ _ _ _ _ _).
  assert (Hok : bestOk av best).
  { apply ringSearch_ok. reflexivity. }
  destruct (fst best) eqn:E; [congruence|].
  apply linear_scan_finds; [exact Hok|].
  exists idx. split; [apply in_seq; lia|auto].
Qed.
End Matching.

(** ** reorderToNearest: the main loop consumes each target index once *)

Lemma available_or_exhausted (av : list bool) (n : nat) :
  (forall j, j < n -> nth j av false = false) \/
  (exists j, j < n /\ nth j av false = true).
Proof.
  induction n as [|n [IH|(j & Hj & Ha)]].
  - left. intros j Hj. lia.
  - destruct (nth n av false) eqn:E.
    + right. exists n. split; [lia|exact E].
    + left. intros j Hj. destruct (Nat.eq_dec j n) as [->|]; [exact E|].
      apply IH. lia.
  - right. exists j. split; [lia|exact Ha].
Qed.

Lemma choices_app (l1 l2 : list (option nat)) :
  choices (l1 ++ l2) = choices l1 ++ choices l2.
Proof. apply flat_map_app. Qed.

Lemma length_choices (l : list (option nat)) : length (choices l) <= length l.
Proof.
  induction l as [|[j|] l IH]; simpl; lia.
Qed.

Lemma choices_all_found (l : list (option nat)) :
  Forall (fun c => c <> None) l -> l = map Some (choices l).
Proof.
  induction 1 as [|[j|] l Hc Hl IH]; simpl; [reflexivity| |congruence].
  now rewrite <- IH.
Qed.

Section Loop.
Variables referencePositions targetPositions : Float32Array.
Variable N : nat.
Hypothesis ref_length : length referencePositions = 3 * N.
Hypothesis tgt_length : length targetPositions = 3 * N.

(** Target point [j], as the three stores of the loop body read it. *)
Definition targetPoint (j : nat) : Point :=
  (rd targetPositions (j * 3), rd targetPositions (j * 3 + 1),
   rd targetPositions (j * 3 + 2)).

(** What one iteration leaves in its slot of [reordered]: the chosen target
    point, or the initial zeros when the iteration was skipped. *)
Definition slotOf (c : option nat) : Point :=
  match c with
  | Some j => targetPoint j
  | None => (0, 0, 0)%float
  end.

(** Every target point is at a finite squared distance from every
    reference point. *)
Definition finiteDistances : Prop :=
  forall i j, i < N -> j < N ->
    (targetDist2 targetPositions
       (rd referencePositions (i * 3)) (rd referencePositions (i * 3 + 1))
       (rd referencePositions (i * 3 + 2)) j <? infinity)%float = true.

(** The state before iteration [i]: the unavailable indices are exactly the
    chosen ones, no index was chosen twice, and the first [i] slots of
    [reordered] are filled. *)
Record LoopInv (i : nat) (st : MatchState) : Prop := mkLoopInv
  { inv_available_length : length (available st) = N;
    inv_chosen_length : length (chosen st) = i;
    inv_unavailable : forall j, j < N ->
        (nth j (available st) false = false <-> In j (choices (chosen st)));
    inv_nodup : NoDup (choices (chosen st));
    inv_range : forall j, In j (choices (chosen st)) -> j < N;
    inv_reordered :
      reordered st = flat (map slotOf (chosen st)) ++ repeat 0%float (3 * (N - i)) }.

Lemma len_N : len referencePositions = N.
Proof. unfold len. rewrite ref_length. apply div3. Qed.

Definition initialState : MatchState :=
  mkState (repeat true (len referencePositions))
          (initialBuckets referencePositions targetPositions)
          (repeat 0%float (length targetPositions)) [].

Lemma loop_inv_init : LoopInv 0 initialState.
Proof.
  unfold initialState. rewrite len_N, tgt_length. constructor; simpl.
  - apply repeat_length.
  - reflexivity.
  - intros j Hj. rewrite nth_repeat_lt by assumption. split; [discriminate|tauto].
  - constructor.
  - intros j [].
  - now rewrite Nat.sub_0_r.
Qed.

Lemma chosen_matchStep (st : MatchState) (i : nat) :
  chosen (matchStep referencePositions targetPositions st i) =
  chosen st ++
  [findNearest referencePositions targetPositions (buckets st) (available st)
     (rd referencePositions (i * 3)) (rd referencePositions (i * 3 + 1))
     (rd referencePositions (i * 3 + 2))].
Proof. unfold matchStep. destruct (findNearest _ _ _ _ _ _ _); reflexivity. Qed.

Lemma loop_inv_step (i : nat) (st : MatchState) :
  i < N -> LoopInv i st ->
  LoopInv (S i) (matchStep referencePositions targetPositions st i).
Proof.
  intros Hi [Hal Hcl Hun Hnd Hrg Hre]. unfold matchStep.
  destruct (findNearest referencePositions targetPositions (buckets st)
                        (available st) _ _ _) as [n|] eqn:Efind.
  - apply findNearest_available in Efind.
    assert (Hn : n < N).
    { destruct (Nat.lt_ge_cases n N) as [|Hge]; [assumption|].
      rewrite nth_overflow in Efind by lia. discriminate. }
    assert (Hfresh : ~ In n (choices (chosen st))).
    { intros Hin. apply Hun in Hin; [congruence|exact Hn]. }
    constructor; cbn [available buckets reordered chosen].
    + now rewrite length_wr.
    + rewrite length_app. simpl. lia.
    + intros k Hk. rewrite nth_wr by lia. rewrite choices_app, in_app_iff.
      simpl. destruct (Nat.eqb_spec k n) as [->|Hne].
      * split; [auto|reflexivity].
      * rewrite (Hun k Hk). split; [auto|].
        intros [H|[H|[]]]; [exact H|congruence].
    + rewrite choices_app.
      apply NoDup_app; [exact Hnd|repeat constructor; intros []|].
      intros c Hc [<-|[]]. contradiction.
    + intros k Hk. rewrite choices_app in Hk. apply in_app_or in Hk.
      destruct Hk as [Hk|[<-|[]]]; auto.
    + rewrite Hre, map_app, flat_app.
      replace (N - i) with (S (N - S i)) by lia.
      rewrite repeat_3S, wr_point
        by (rewrite length_flat, length_map; lia).
      rewrite <- app_assoc. reflexivity.
  - constructor; cbn [available buckets reordered chosen].
    + exact Hal.
    + rewrite length_app. simpl. lia.
    + intros k Hk. rewrite choices_app, app_nil_r. now apply Hun.
    + now rewrite choices_app, app_nil_r.
    + intros k Hk. rewrite choices_app, app_nil_r in Hk. now apply Hrg.
    + rewrite Hre, map_app, flat_app.
      replace (N - i) with (S (N - S i)) by lia.
      rewrite repeat_3S, <- app_assoc. reflexivity.
Qed.

Lemma loop_inv_prefix (n : nat) :
  n <= N ->
  LoopInv n (fold_left (matchStep referencePositions targetPositions) (seq 0 n)
                       initialState).
Proof.
  induction n as [|n IH]; intros Hn.
  - apply loop_inv_init.
  - rewrite seq_S, fold_left_app. simpl.
    apply loop_inv_step; [lia|apply IH; lia].
Qed.

(** While fewer than [N] indices are chosen, one is still available. *)
Lemma some_index_available (i : nat) (st : MatchState) :
  i < N -> LoopInv i st -> exists j, j < N /\ nth j (available st) false = true.
Proof.
  intros Hi [Hal Hcl Hun Hnd Hrg Hre].
  destruct (available_or_exhausted (available st) N) as [Hnone|H]; [|exact H].
  exfalso.
  assert (Hincl : incl (seq 0 N) (choices (chosen st))).
  { intros j Hj. apply in_seq in Hj. apply Hun; [lia|]. apply Hnone. lia. }
  apply NoDup_incl_length in Hincl; [|apply seq_NoDup].
  rewrite length_seq in Hincl.
  pose proof (length_choices (chosen st)). lia.
Qed.

(** With finite distances no iteration is skipped. *)
Lemma every_iteration_finds (n : nat) :
  finiteDistances -> n <= N ->
  Forall (fun c => c <> None)
         (chosen (fold_left (matchStep referencePositions targetPositions)
                            (seq 0 n) initialState)).
Proof.
  intros Hfin. induction n as [|n IH]; intros Hn; [constructor|].
  rewrite seq_S, fold_left_app. simpl. rewrite chosen_matchStep.
  apply Forall_app. split; [apply IH; lia|].
  constructor; [|constructor].
  apply findNearest_finds.
  destruct (some_index_available n _ ltac:(lia) (loop_inv_prefix n ltac:(lia)))
    as (j & Hj & Ha).
  exists j. rewrite len_N.
  split; [exact Hj|split; [exact Ha|apply Hfin; lia]].
Qed.

Lemma matchLoop_unfold :
  matchLoop referencePositions targetPositions =
  fold_left (matchStep referencePositions targetPositions) (seq 0 N) initialState.
Proof. unfold matchLoop, initialState. now rewrite len_N. Qed.

Lemma matchLoop_inv : LoopInv N (matchLoop referencePositions targetPositions).
Proof. rewrite matchLoop_unfold. apply loop_inv_prefix. lia. Qed.

Lemma matchLoop_bijection :
  finiteDistances ->
  exists sigma,
    Permutation sigma (seq 0 N) /\
    chosen (matchLoop referencePositions targetPositions) = map Some sigma /\
    reordered (matchLoop referencePositions targetPositions) =
    flat (map targetPoint sigma).
Proof.
  intros Hfin.
  pose proof (every_iteration_finds N Hfin (Nat.le_refl N)) as Hall.
  rewrite <- matchLoop_unfold in Hall.
  destruct matchLoop_inv as [_ Hcl _ Hnd Hrg Hre].
  apply choices_all_found in Hall.
  set (sigma := choices (chosen (matchLoop referencePositions targetPositions))) in *.
  exists sigma. split; [|split].
  - apply NoDup_Permutation_bis.
    + exact Hnd.
    + rewrite Hall, length_map in Hcl. rewrite length_seq. lia.
    + intros j Hj. apply in_seq. specialize (Hrg j Hj). lia.
  - exact Hall.
  - rewrite Hre, Nat.sub_diag. rewrite Hall at 1. rewrite map_map. simpl.
    now rewrite app_nil_r.
Qed.
End Loop.

Lemma targetPoint_flat (pts : list Point) (j : nat) :
  targetPoint (flat pts) j = pt pts j.
Proof.
  unfold targetPoint. destruct (rd_flat pts j) as (-> & -> & ->).
  now destruct (pt pts j) as [[x y] z].
Qed.

Lemma reorderToNearest_runs (refPts tgtPts : list Point) :
  length refPts = length tgtPts ->
  reorderToNearest (flat refPts) (flat tgtPts) =
  inr (reordered (matchLoop (flat refPts) (flat tgtPts))).
Proof.
  intros H. unfold reorderToNearest. rewrite !length_flat, H, Nat.eqb_refl.
  replace (3 * length tgtPts mod 3) with 0; [reflexivity|].
  symmetry. rewrite Nat.mul_comm. apply Nat.Div0.mod_mul.
Qed.

(** X19: whatever the coordinates, an index that was chosen is never chosen
    again: the chosen indices are distinct target indices, and output slot
    [i] holds the point chosen at iteration [i] (zeros if it was skipped). *)
Lemma reorder_never_reuses_an_index (refPts tgtPts : list Point) :
  length refPts = length tgtPts ->
  let picks := chosen (matchLoop (flat refPts) (flat tgtPts)) in
  length picks = length tgtPts /\
  NoDup (choices picks) /\
  (forall j, In j (choices picks) -> j < length tgtPts) /\
  reorderToNearest (flat refPts) (flat tgtPts) =
  inr (flat (map (slotOf (flat tgtPts)) picks)).
Proof.
  intros Hlen picks.
  destruct (matchLoop_inv (flat refPts) (flat tgtPts) (length tgtPts))
    as [_ Hcl _ Hnd Hrg Hre].
  - rewrite length_flat. now rewrite Hlen.
  - apply length_flat.
  - repeat split; try assumption.
    rewrite reorderToNearest_runs by exact Hlen. rewrite Hre, Nat.sub_diag.
    simpl. now rewrite app_nil_r.
Qed.

Example reorder_skips_a_point_without_candidate :
  reorderToNearest [0; 0; 0]%float [nan; 0; 0]%float = inr [0; 0; 0]%float /\
  chosen (matchLoop [0; 0; 0]%float [nan; 0; 0]%float) = [None].
Proof. split; reflexivity. Qed.

(** C1, corrected: for a reference and a target cloud of the same count N
    whose points are at finite squared distances from each other, the
    indices chosen by the successive iterations form a permutation of
    [0 .. N-1] (each target index is chosen for exactly one reference
    index), and output point [i] is the target point chosen for reference
    index [i]. *)
Theorem reorder_is_bijection (refPts tgtPts : list Point) :
  length refPts = length tgtPts ->
  (forall r t, In r refPts -> In t tgtPts ->
     (dist2 (px t) (py t) (pz t) (px r) (py r) (pz r) <? infinity)%float = true) ->
  uses_every_target_once refPts tgtPts.
Proof.
  intros Hlen Hfin. unfold uses_every_target_once.
  destruct (matchLoop_bijection (flat refPts) (flat tgtPts) (length tgtPts))
    as (sigma & Hperm & Hchosen & Hre).
  - rewrite length_flat. now rewrite Hlen.
  - apply length_flat.
  - intros i j Hi Hj. unfold targetDist2.
    destruct (rd_flat refPts i) as (-> & -> & ->).
    destruct (rd_flat tgtPts j) as (-> & -> & ->).
    apply Hfin; apply nth_In; lia.
  - exists sigma. split; [exact Hperm|split; [exact Hchosen|]].
    rewrite reorderToNearest_runs by exact Hlen. rewrite Hre.
    do 2 f_equal. apply map_ext. intros j. apply targetPoint_flat.
Qed.

Example reorder_clouds :
  reorderToNearest (flat refCloud) (flat tgtCloud) =
  inr (flat [(0.5, 0.5, 0.5); (0, 0, 1); (5, 5, 4); (9, 9, 8)]%float) /\
  chosen (matchLoop (flat refCloud) (flat tgtCloud)) = [Some 1; Some 2; Some 3; Some 0].
Proof. split; vm_compute; reflexivity. Qed.

Lemma reorder_is_bijection_witness : uses_every_target_once refCloud tgtCloud.
Proof.
  apply (reorder_is_bijection refCloud tgtCloud).
  - reflexivity.
  - intros r t Hr Ht.
    destruct Hr as [<-|[<-|[<-|[<-|[]]]]];
      destruct Ht as [<-|[<-|[<-|[<-|[]]]]]; vm_compute; reflexivity.
Defined.

Example reorder_skips_the_nan_point :
  chosen (matchLoop (flat refCloud) (flat nanCloud))
  = [Some 2; Some 3; Some 0; None] /\
  reorderToNearest (flat refCloud) (flat nanCloud)
  = inr [0; 0; 1; 5; 5; 4; 9; 9; 8; 0; 0; 0]%float.
Proof. split; vm_compute; reflexivity. Qed.

(** For clouds of equal count the wording fails when a target point has no
    finite distance to the reference points.  The target point with a NaN
    coordinate is never chosen: target index 1 is omitted, the last
    iteration finds no candidate, and the last output point is the zeros of
    the fresh array, which is no point of the target cloud. *)
Lemma reorder_omits_a_nan_point :
  ~ uses_every_target_once refCloud nanCloud.
Proof.
  intros (sigma & _ & Hchosen & _).
  assert (E : chosen (matchLoop (flat refCloud) (flat nanCloud))
              = [Some 2; Some 3; Some 0; None])
    by (vm_compute; reflexivity).
  rewrite E in Hchosen.
  destruct sigma as [|a [|b [|c [|d sigma]]]]; discriminate Hchosen.
Qed.

(** ** reorderToNearest: the bucket map *)

Lemma sf_eqb_eq (x y : spec_float) : sf_eqb x y = true <-> x = y.
Proof.
  destruct x as [s|s| |s m e], y as [s'|s'| |s' m' e']; simpl;
    try (split; [discriminate|intros H; discriminate H]);
    try (rewrite Bool.eqb_true_iff; split; [intros ->; reflexivity|];
         intros H; now injection H).
  - split; reflexivity.
  - rewrite !andb_true_iff, Bool.eqb_true_iff, Pos.eqb_eq, Z.eqb_eq. split.
    + intros [[-> ->] ->]. reflexivity.
    + intros H. injection H as -> -> ->. auto.
Qed.

Lemma key_eqb_eq (k k' : Key) : key_eqb k k' = true <-> k = k'.
Proof.
  destruct k as [[a b] c], k' as [[a' b'] c']. simpl.
  rewrite !andb_true_iff, !sf_eqb_eq. split.
  - intros [[-> ->] ->]. reflexivity.
  - intros H. injection H as -> -> ->. auto.
Qed.

Lemma key_eqb_spec (k k' : Key) : reflect (k = k') (key_eqb k k').
Proof. apply iff_reflect. symmetry. apply key_eqb_eq. Qed.

Lemma key_eqb_refl (k : Key) : key_eqb k k = true.
Proof. now apply key_eqb_eq. Qed.

Lemma bucket_get_modify (k k' : Key) (f : list nat -> list nat) (bk : Buckets) :
  bucket_get k (bucket_modify k' f bk) =
  if key_eqb k' k then option_map f (bucket_get k bk) else bucket_get k bk.
Proof.
  induction bk as [|[k0 arr] bk IH]; simpl.
  - now destruct (key_eqb k' k).
  - destruct (key_eqb_spec k0 k') as [->|Hne]; simpl.
    + destruct (key_eqb k' k); reflexivity.
    + rewrite IH.
      destruct (key_eqb_spec k0 k) as [->|Hne']; [|reflexivity].
      destruct (key_eqb_spec k' k) as [->|]; [congruence|reflexivity].
Qed.

Lemma bucket_get_app (k k' : Key) (arr : list nat) (bk : Buckets) :
  bucket_get k (bk ++ [(k', arr)]) =
  match bucket_get k bk with
  | Some a => Some a
  | None => if key_eqb k' k then Some arr else None
  end.
Proof.
  induction bk as [|[k0 a0] bk IH]; simpl; [reflexivity|].
  destruct (key_eqb k0 k); [reflexivity|exact IH].
Qed.

Lemma bucket_get_push (k k' : Key) (i : nat) (bk : Buckets) :
  bucket_get k (bucket_push k' i bk) =
  if key_eqb k' k
  then Some (match bucket_get k bk with Some arr => arr ++ [i] | None => [i] end)
  else bucket_get k bk.
Proof.
  unfold bucket_push. destruct (bucket_get k' bk) as [arr'|] eqn:E.
  - rewrite bucket_get_modify.
    destruct (key_eqb_spec k' k) as [->|]; [|reflexivity]. now rewrite E.
  - rewrite bucket_get_app.
    destruct (key_eqb_spec k' k) as [->|].
    + now rewrite E.
    + now destruct (bucket_get k bk).
Qed.

(** After bucketing the indices [0 .. n-1] by key, the bucket of a key holds
    exactly the indices with that key, in ascending order. *)
Lemma bucket_get_fill (key : nat -> Key) (k : Key) (n : nat) :
  bucket_get k (fold_left (fun bk i => bucket_push (key i) i bk) (seq 0 n) []) =
  match filter (fun j => key_eqb (key j) k) (seq 0 n) with
  | [] => None
  | l => Some l
  end.
Proof.
  induction n as [|n IH]; [reflexivity|].
  rewrite seq_S, fold_left_app, filter_app. simpl.
  rewrite bucket_get_push, IH.
  destruct (key_eqb (key n) k).
  - destruct (filter _ (seq 0 n)); reflexivity.
  - rewrite app_nil_r. reflexivity.
Qed.

(** ** reorderToNearest: a cloud aligned with itself *)

Lemma dist2_self (p : Point) :
  finitePoint p = true -> dist2 (px p) (py p) (pz p) (px p) (py p) (pz p) = 0%float.
Proof.
  unfold finitePoint. rewrite !andb_true_iff. intros [[Hx Hy] Hz].
  unfold dist2. rewrite !sub_self by assumption. reflexivity.
Qed.

Section Identity.
Variable pts : list Point.
Hypothesis pts_finite : forall p, In p pts -> finitePoint p = true.

Let P : Float32Array := flat pts.
Let N : nat := length pts.
Let K (j : nat) : Key := targetKey P P j.

(** The indices from [i] on whose key is that of index [j]. *)
Definition sameCell (i j : nat) : list nat :=
  filter (fun j' => key_eqb (K j') (K j)) (seq i (N - i)).

Record IdInv (i : nat) (st : MatchState) : Prop := mkIdInv
  { id_available : available st = repeat false i ++ repeat true (N - i);
    id_buckets : forall j, j < N ->
        bucket_get (K j) (buckets st) = Some (sameCell i j);
    id_reordered : reordered st = flat (firstn i pts) ++ repeat 0%float (3 * (N - i));
    id_chosen : chosen st = map Some (seq 0 i) }.

Lemma len_P : len P = N.
Proof. unfold len, P. rewrite length_flat. apply div3. Qed.

Lemma sameCell_head (i : nat) :
  i < N -> sameCell i i = i :: sameCell (S i) i.
Proof.
  intros Hi. unfold sameCell.
  replace (N - i) with (S (N - S i)) by lia. cbn [seq filter].
  now rewrite key_eqb_refl.
Qed.

Lemma sameCell_other (i j : nat) :
  i < N -> key_eqb (K i) (K j) = false -> sameCell i j = sameCell (S i) j.
Proof.
  intros Hi Hne. unfold sameCell.
  replace (N - i) with (S (N - S i)) by lia. cbn [seq filter].
  now rewrite Hne.
Qed.

Lemma id_inv_init :
  IdInv 0 (mkState (repeat true (len P)) (initialBuckets P P)
                   (repeat 0%float (length P)) []).
Proof.
  rewrite len_P. constructor; simpl.
  - now rewrite Nat.sub_0_r.
  - intros j Hj. unfold initialBuckets. rewrite len_P.
    rewrite (bucket_get_fill (targetKey P P) (K j) N).
    unfold sameCell. rewrite Nat.sub_0_r.
    destruct (filter _ (seq 0 N)) as [|a l] eqn:E; [|reflexivity].
    assert (Hin : In j (filter (fun j' => key_eqb (targetKey P P j') (K j))
                               (seq 0 N))).
    { apply filter_In. split; [apply in_seq; lia|apply key_eqb_refl]. }
    rewrite E in Hin. destruct Hin.
  - unfold P. rewrite length_flat, Nat.sub_0_r. reflexivity.
  - reflexivity.
Qed.

(** Once the candidate at distance 0 is held, no later candidate replaces
    it. *)
Lemma scan_keeps_zero (av : list bool) (rx ry rz : float) (i : nat)
      (arr : list nat) :
  fold_left (consider P av rx ry rz) arr (Some i, 0%float) = (Some i, 0%float).
Proof.
  induction arr as [|a arr IH]; simpl; [reflexivity|].
  unfold consider at 2. destruct (nth a av false); simpl; [|exact IH].
  unfold dist2. rewrite sum_of_squares_not_negative. exact IH.
Qed.

Lemma ringSearch_found (bk : Buckets) (av : list bool)
      (cx cy cz rx ry rz : float) (rs : list nat) (j : nat) (d : float) :
  ringSearch P bk av cx cy cz rx ry rz rs (Some j, d) = (Some j, d).
Proof. destruct rs; reflexivity. Qed.

Lemma ringSearch_next (bk : Buckets) (av : list bool)
      (cx cy cz rx ry rz : float) (r : nat) (rs : list nat) (d : float) :
  ringSearch P bk av cx cy cz rx ry rz (r :: rs) (None, d) =
  ringSearch P bk av cx cy cz rx ry rz rs
    (fold_left (scanCell P bk av cx cy cz rx ry rz) (cells r) (None, d)).
Proof. reflexivity. Qed.

(** The pass at radius 0 looks into the reference point's own cell, whose
    first remaining index is [i] itself, at distance 0. *)
Lemma ring0_self (i : nat) (st : MatchState) :
  i < N -> IdInv i st ->
  let rx := rd P (i * 3) in
  let ry := rd P (i * 3 + 1) in
  let rz := rd P (i * 3 + 2) in
  fold_left
    (scanCell P (buckets st) (available st)
              (cellOf rx (minX (bounds P P)) (cellSize P P))
              (cellOf ry (minY (bounds P P)) (cellSize P P))
              (cellOf rz (minZ (bounds P P)) (cellSize P P)) rx ry rz)
    (cells 0) (None, infinity) = (Some i, 0%float).
Proof.
  intros Hi [Hav Hbk _ _] rx ry rz.
  change (cells 0) with [((-0)%float, (-0)%float, (-0)%float)].
  cbn [fold_left scanCell]. rewrite !add_neg_zero.
  change (bucketKey _ _ _) with (K i).
  rewrite (Hbk i Hi), sameCell_head by exact Hi.
  cbn [fold_left].
  assert (Hfirst : consider P (available st) rx ry rz (None, infinity) i =
                   (Some i, 0%float)).
  { unfold consider.
    replace (nth i (available st) false) with true.
    2:{ rewrite Hav, app_nth2 by (rewrite repeat_length; lia).
        rewrite repeat_length, nth_repeat_lt by lia. reflexivity. }
    cbn [negb snd]. unfold rx, ry, rz.
    destruct (rd_flat pts i) as (Hx & Hy & Hz). fold P in Hx, Hy, Hz.
    rewrite Hx, Hy, Hz, dist2_self by (apply pts_finite, nth_In; exact Hi).
    reflexivity. }
  rewrite Hfirst. apply scan_keeps_zero.
Qed.

Lemma findNearest_self (i : nat) (st : MatchState) :
  i < N -> IdInv i st ->
  findNearest P P (buckets st) (available st)
              (rd P (i * 3)) (rd P (i * 3 + 1)) (rd P (i * 3 + 2)) = Some i.
Proof.
  intros Hi Hinv. unfold findNearest.
  change (seq 0 (maxRadius + 1)) with [0; 1; 2].
  rewrite ringSearch_next, (ring0_self i st Hi Hinv), ringSearch_found.
  reflexivity.
Qed.

Lemma id_inv_step (i : nat) (st : MatchState) :
  i < N -> IdInv i st -> IdInv (S i) (matchStep P P st i).
Proof.
  intros Hi Hinv. unfold matchStep.
  rewrite (findNearest_self i st Hi Hinv).
  destruct Hinv as [Hav Hbk Hre Hch].
  constructor; cbn [available buckets reordered chosen].
  - rewrite Hav. replace (N - i) with (S (N - S i)) by lia. cbn [repeat].
    rewrite wr_middle by apply repeat_length.
    rewrite (repeat_cons i false), <- app_assoc. reflexivity.
  - intros j Hj. unfold removeFromBucket. fold (K i).
    rewrite bucket_get_modify, (Hbk j Hj).
    destruct (key_eqb_spec (K i) (K j)) as [E|Hne].
    + unfold sameCell. rewrite <- E. fold (sameCell i i) (sameCell (S i) i).
      rewrite sameCell_head by exact Hi. cbn [option_map splice_out].
      now rewrite Nat.eqb_refl.
    + rewrite sameCell_other; [reflexivity|exact Hi|].
      destruct (key_eqb_spec (K i) (K j)); [contradiction|reflexivity].
  - rewrite Hre. replace (N - i) with (S (N - S i)) by lia.
    rewrite repeat_3S, wr_point
      by (rewrite length_flat, length_firstn; fold N; lia).
    destruct (rd_flat pts i) as (Hx & Hy & Hz). fold P in Hx, Hy, Hz.
    rewrite Hx, Hy, Hz.
    rewrite (firstn_S_nth pts i (nan, nan, nan)) by exact Hi.
    rewrite flat_app, <- app_assoc. reflexivity.
  - rewrite Hch, seq_S, map_app. reflexivity.
Qed.

Lemma id_inv_prefix (n : nat) :
  n <= N ->
  IdInv n (fold_left (matchStep P P) (seq 0 n)
             (mkState (repeat true (len P)) (initialBuckets P P)
                      (repeat 0%float (length P)) [])).
Proof.
  induction n as [|n IH]; intros Hn.
  - apply id_inv_init.
  - rewrite seq_S, fold_left_app. simpl.
    apply id_inv_step; [lia|apply IH; lia].
Qed.

Lemma matchLoop_identity :
  reordered (matchLoop P P) = P /\ chosen (matchLoop P P) = map Some (seq 0 N).
Proof.
  pose proof (id_inv_prefix N (Nat.le_refl N)) as Hinv.
  rewrite <- len_P in Hinv at 2. fold (matchLoop P P) in Hinv.
  destruct Hinv as [_ _ Hre Hch]. split; [|exact Hch].
  rewrite Hre, Nat.sub_diag. unfold N. rewrite firstn_all. simpl.
  now rewrite app_nil_r.
Qed.
End Identity.

(** C4, corrected: aligning a cloud of points with finite coordinates
    with itself returns the cloud unchanged, point for point; iteration [i]
    chooses target index [i]. *)
Theorem reorder_identity (pts : list Point) :
  (forall p, In p pts -> finitePoint p = true) ->
  returns_the_cloud pts.
Proof.
  intros Hfin. destruct (matchLoop_identity pts Hfin) as [Hre Hch].
  split; [|exact Hch].
  rewrite reorderToNearest_runs by reflexivity. now rewrite Hre.
Qed.

Lemma reorder_identity_witness : returns_the_cloud paddedCloud.
Proof.
  apply (reorder_identity paddedCloud).
  intros p [<-|[<-|[<-|[<-|[<-|[]]]]]]; vm_compute; reflexivity.
Defined.

(** Without finite coordinates the identity case fails.  A point at
    infinity, or with a NaN coordinate, is at squared distance NaN from
    itself: no comparison selects it, its iteration is skipped, and its
    output slot keeps the zeros of the fresh array. *)
Lemma identity_fails_for_a_point_at_infinity :
  ~ returns_the_cloud farCloud /\
  ~ returns_the_cloud [(nan, 0, 0)%float].
Proof.
  split; intros [Hout _];
    apply (f_equal firstIsFinite) in Hout; vm_compute in Hout;
    discriminate Hout.
Qed.

Example identity_skips_the_point_at_infinity :
  reorderToNearest (flat farCloud) (flat farCloud) = inr [0; 0; 0; 1; 2; 3]%float /\
  chosen (matchLoop (flat farCloud) (flat farCloud)) = [None; Some 1].
Proof. split; vm_compute; reflexivity. Qed.
End MorphFacts.

(* ===================================================================== *)
(** * Further properties of the numbers *)
(* ===================================================================== *)

Module FloatFacts.
Import JS NumFacts.

Lemma SFsqrt_pos (x : spec_float) : sf_pos x = true -> sf_pos (SF64sqrt x) = true.
Proof.
  unfold SF64sqrt, SFsqrt.
  destruct x as [[]|[]| |[] m e]; try discriminate; try reflexivity.
  intros _.
  destruct (SFsqrt_core_binary prec emax (Zpos m) e) as [[mz ez] lz].
  apply binary_round_aux_pos.
Qed.

Lemma SFmul_pos (x y : spec_float) :
  sf_pos x = true -> sf_pos y = true -> sf_pos (SF64mul x y) = true.
Proof.
  unfold SF64mul, SFmul.
  destruct x as [[]|[]| |[] mx ex], y as [[]|[]| |[] my ey];
    try discriminate; try reflexivity.
  intros _ _. apply binary_round_aux_pos.
Qed.

Lemma SFabs_pos (x : spec_float) : sf_pos (SFabs x) = true.
Proof. destruct x; reflexivity. Qed.

(** A value that is not negative and not above [+0] is NaN or [+0]. *)
Lemma sf_pos_not_above_zero (x : spec_float) :
  sf_pos x = true -> SFltb (S754_zero false) x = false ->
  x = S754_nan \/ x = S754_zero false.
Proof.
  destruct x as [[]|[]| |[] m e]; try discriminate; auto.
Qed.

Lemma binary_round_aux_opp (s : bool) (m e : Z) (l : location) :
  binary_round_aux prec emax (negb s) m e l
  = SFopp (binary_round_aux prec emax s m e l).
Proof.
  unfold binary_round_aux.
  destruct (shr_fexp prec emax m e l) as [mrs' e'].
  destruct (shr_fexp prec emax _ e' loc_Exact) as [mrs'' e''].
  destruct (shr_m mrs''); try reflexivity.
  destruct (e'' <=? emax - prec)%Z; reflexivity.
Qed.

Lemma binary_round_opp (s : bool) (m : positive) (e : Z) :
  binary_round prec emax (negb s) m e = SFopp (binary_round prec emax s m e).
Proof.
  unfold binary_round. destruct (shl_align _ _ _) as [mz ez].
  apply binary_round_aux_opp.
Qed.

Lemma binary_normalize_opp (m e : Z) :
  binary_normalize prec emax (- m) e false = binary_normalize prec emax m e false \/
  binary_normalize prec emax (- m) e false
  = SFopp (binary_normalize prec emax m e false).
Proof.
  destruct m as [|p|p]; [left; reflexivity| |]; right.
  - exact (binary_round_opp false p e).
  - exact (binary_round_opp true p e).
Qed.

Lemma SFmul_opp_opp (w : spec_float) : SF64mul (SFopp w) (SFopp w) = SF64mul w w.
Proof.
  unfold SF64mul, SFmul. destruct w as [[]|[]| |[] m e]; reflexivity.
Qed.

Lemma SFsub_swap (x y : spec_float) :
  SF64sub y x = SF64sub x y \/ SF64sub y x = SFopp (SF64sub x y).
Proof.
  unfold SF64sub, SFsub.
  destruct x as [[]|[]| |[] mx ex], y as [[]|[]| |[] my ey]; auto.
  all: cbv zeta; rewrite (Z.min_comm ey ex);
    match goal with
    | |- context [binary_normalize _ _ (Z.sub ?a ?b) ?e false] =>
        assert (Hd : Z.sub b a = (- (Z.sub a b))%Z) by lia; rewrite Hd;
        apply binary_normalize_opp
    end.
Qed.

(** The square of a difference does not depend on its direction. *)
Lemma sq_sub_comm (a b : float) : sq (a - b) = sq (b - a).
Proof.
  apply Prim2SF_inj. unfold sq. rewrite !mul_spec, !sub_spec.
  destruct (SFsub_swap (Prim2SF b) (Prim2SF a)) as [E|E]; rewrite E;
    [reflexivity | apply SFmul_opp_opp].
Qed.

(** A number other than NaN equals itself. *)
Lemma eqb_refl (x : float) : is_nan x = false -> (x =? x)%float = true.
Proof. unfold is_nan. intros H. apply negb_false_iff in H. exact H. Qed.

Lemma sqrt_not_negative (x : float) :
  sf_pos (Prim2SF x) = true -> sf_pos (Prim2SF (sqrt x)) = true.
Proof. rewrite sqrt_spec. apply SFsqrt_pos. Qed.

Lemma sum_of_squares_pos (a b c : float) :
  sf_pos (Prim2SF (sq a + sq b + sq c)) = true.
Proof.
  unfold sq. rewrite !add_spec, !mul_spec.
  repeat apply SFadd_pos; apply SFmul_self_pos.
Qed.

Lemma sum_of_two_squares_pos (a b : float) :
  sf_pos (Prim2SF (sq a + sq b)) = true.
Proof.
  unfold sq. rewrite !add_spec, !mul_spec.
  apply SFadd_pos; apply SFmul_self_pos.
Qed.

(** A number that is not negative and that [0] is not below is [+0],
    unless it is NaN. *)
Lemma zero_of_not_above (x : float) :
  sf_pos (Prim2SF x) = true -> (0 <? x)%float = false -> is_nan x = false ->
  x = 0%float.
Proof.
  intros Hp Hl Hn. rewrite ltb_spec in Hl.
  change (Prim2SF 0) with (S754_zero false) in Hl.
  destruct (sf_pos_not_above_zero _ Hp Hl) as [E|E].
  - exfalso. unfold is_nan in Hn. apply negb_false_iff in Hn.
    rewrite FloatAxioms.eqb_spec, E in Hn. discriminate.
  - apply Prim2SF_inj. exact E.
Qed.

Lemma SFeqb_refl (x : spec_float) : x <> S754_nan -> SFeqb x x = true.
Proof.
  destruct x as [[]|[]| |[] m e]; try reflexivity; try congruence; intros _;
    unfold SFeqb, SFcompare; rewrite Z.compare_refl, Pos.compare_cont_refl;
    reflexivity.
Qed.

Lemma ltb_not_nan_l (x y : float) : (x <? y)%float = true -> is_nan x = false.
Proof.
  rewrite ltb_spec. intros H. unfold is_nan. apply negb_false_iff.
  rewrite FloatAxioms.eqb_spec. apply SFeqb_refl. exact (SFltb_not_nan_l _ _ H).
Qed.
End FloatFacts.

(* ===================================================================== *)
(** * Further properties of src/lib/colors.ts *)
(* ===================================================================== *)

Module PaletteFacts.
Import JS Colors ColorsSpec NumFacts ListFacts FloatFacts.

Section NearestLoop.
Variable distance : Lab -> float.
Variable dflt : Lab.

(** What the nearest-colour loop keeps for any distances, NaN and
    infinities included: no scanned distance is below the smallest one so
    far; the index is either still the initial [0] with the initial
    [MAX_VALUE], or that of a scanned candidate whose distance is the
    smallest one; and no earlier candidate has that distance. *)
Definition scanInv (pal : list Lab) (st : nat * float) : Prop :=
  (forall k, k < length pal ->
             (distance (nth k pal dflt) <? snd st)%float = false) /\
  ((fst st = 0 /\ snd st = MAX_VALUE) \/
   (fst st < length pal /\ snd st = distance (nth (fst st) pal dflt) /\
    (snd st <? MAX_VALUE)%float = true)) /\
  (forall j, j < fst st -> distance (nth j pal dflt) <> snd st).

Lemma scanInv_loop (pal : list Lab) :
  scanInv pal (closestLoop distance pal).
Proof.
  induction pal as [|p pal IH] using rev_ind.
  - split; [|split].
    + intros k Hk. inversion Hk.
    + left. split; reflexivity.
    + intros j Hj. inversion Hj.
  - rewrite (ColorsFacts.closestLoop_snoc distance pal p).
    destruct (closestLoop distance pal) as [ci sd].
    destruct IH as (Hlow & Hwhere & Hfirst). cbn [fst snd] in *.
    unfold closestStep, scanInv. cbn [fst snd].
    assert (Hnth : forall k, k < length pal ->
                             nth k (pal ++ [p]) dflt = nth k pal dflt)
      by (intros k Hk; apply app_nth1; exact Hk).
    assert (Hlast : nth (length pal) (pal ++ [p]) dflt = p)
      by (rewrite app_nth2, Nat.sub_diag by lia; reflexivity).
    destruct (distance p <? sd)%float eqn:Hlt; cbn [fst snd];
      (split; [|split]).
    + intros k Hk. rewrite length_app, Nat.add_1_r in Hk.
      destruct (Nat.eq_dec k (length pal)) as [->|Hne].
      * rewrite Hlast. apply ltb_irrefl.
      * rewrite Hnth by lia.
        destruct (distance (nth k pal dflt) <? distance p)%float eqn:E;
          [|reflexivity].
        specialize (Hlow k ltac:(lia)).
        rewrite (ltb_trans _ _ _ E Hlt) in Hlow. discriminate Hlow.
    + right. rewrite length_app, Nat.add_1_r, Hlast.
      split; [lia|split; [reflexivity|]].
      destruct Hwhere as [[_ ->]|(_ & _ & Hmax)]; [exact Hlt|].
      exact (ltb_trans _ _ _ Hlt Hmax).
    + intros j Hj E. rewrite Hnth in E by exact Hj.
      specialize (Hlow j Hj). rewrite E, Hlt in Hlow. discriminate Hlow.
    + intros k Hk. rewrite length_app, Nat.add_1_r in Hk.
      destruct (Nat.eq_dec k (length pal)) as [->|Hne].
      * rewrite Hlast. exact Hlt.
      * rewrite Hnth by lia. apply Hlow. lia.
    + destruct Hwhere as [H0|(Hci & Hsd & Hmax)]; [left; exact H0|right].
      rewrite length_app, Nat.add_1_r, Hnth by exact Hci.
      split; [lia|split; assumption].
    + intros j Hj.
      destruct Hwhere as [[-> _]|(Hci & _ & _)]; [inversion Hj|].
      rewrite Hnth by lia. apply Hfirst. exact Hj.
Qed.

(** The returned index is a position of the palette whenever there is one. *)
Lemma closestLoop_in_range (pal : list Lab) :
  pal <> [] -> fst (closestLoop distance pal) < length pal.
Proof.
  intros Hne. destruct (scanInv_loop pal) as (_ & [[-> _]|(H & _)] & _).
  - destruct pal; [congruence|cbn; lia].
  - exact H.
Qed.

(** When the distances are never negative and some candidate is at
    distance [+0], the loop returns the first such candidate. *)
Lemma closestLoop_firstZero (pal : list Lab) (i : nat) :
  (forall p, sf_pos (Prim2SF (distance p)) = true) ->
  i < length pal -> distance (nth i pal dflt) = 0%float ->
  firstZero distance pal dflt (fst (closestLoop distance pal)).
Proof.
  intros Hpos Hi Hzero.
  destruct (scanInv_loop pal) as (Hlow & Hwhere & Hfirst).
  destruct (closestLoop distance pal) as [ci sd]. cbn [fst snd] in *.
  specialize (Hlow i Hi). rewrite Hzero in Hlow.
  destruct Hwhere as [[_ ->]|(Hci & Hsd & Hmax)].
  - vm_compute in Hlow. discriminate Hlow.
  - assert (Hsd0 : sd = 0%float).
    { apply zero_of_not_above; [rewrite Hsd; apply Hpos|exact Hlow|].
      exact (ltb_not_nan_l _ _ Hmax). }
    split; [exact Hci|split].
    + rewrite <- Hsd. exact Hsd0.
    + intros j Hj. rewrite <- Hsd0. apply Hfirst. exact Hj.
Qed.
End NearestLoop.

Lemma distFull_pos (q p : Lab) : sf_pos (Prim2SF (distFull q p)) = true.
Proof. apply sqrt_not_negative, sum_of_squares_pos. Qed.

Lemma distAB_pos (q p : Lab) : sf_pos (Prim2SF (distAB q p)) = true.
Proof.
  unfold distAB. rewrite add_spec, !mul_spec.
  apply SFadd_pos; apply SFmul_pos;
    try reflexivity; [apply distFull_pos|].
  apply sqrt_not_negative, sum_of_two_squares_pos.
Qed.

Lemma distL_pos (q p : Lab) : sf_pos (Prim2SF (distL q p)) = true.
Proof.
  unfold distL. rewrite add_spec, mul_spec, abs_spec.
  apply SFadd_pos; [apply SFmul_pos; [apply distFull_pos|reflexivity]|].
  apply SFabs_pos.
Qed.

Lemma finiteLab_parts (c : Lab) :
  finiteLab c = true ->
  isFinite (lab_l c) = true /\ isFinite (lab_a c) = true /\
  isFinite (lab_b c) = true.
Proof.
  unfold finiteLab. intros H.
  apply andb_true_iff in H. destruct H as [H Hb].
  apply andb_true_iff in H. destruct H as [Hl Ha]. auto.
Qed.

(** A colour with finite coordinates is at distance [+0] from itself, for
    each of the three distances. *)
Lemma dist_self (c : Lab) :
  finiteLab c = true ->
  distFull c c = 0%float /\ distAB c c = 0%float /\ distL c c = 0%float.
Proof.
  intros H. destruct (finiteLab_parts c H) as (Hl & Ha & Hb).
  unfold distAB, distL, distFull.
  rewrite !(sub_self _ Hl), !(sub_self _ Ha), !(sub_self _ Hb).
  repeat split; vm_compute; reflexivity.
Qed.

(** X1: the index returned by each of the three nearest-colour searches is
    a position of the palette whenever the palette is not empty, whatever
    numbers (NaN and infinities included) the colours hold; so the entry
    [paletteLab[closestIndex]] read by the callers exists. *)
Theorem closest_index_in_range (labColor : Lab) (paletteLab : list Lab) :
  paletteLab <> [] ->
  findClosestColorIndex labColor paletteLab < length paletteLab /\
  findClosestColorIndexAB labColor paletteLab < length paletteLab /\
  findClosestColorIndexL labColor paletteLab < length paletteLab.
Proof.
  intros Hne. repeat split; apply (closestLoop_in_range _ labColor _ Hne).
Qed.

Lemma closest_index_in_range_witness :
  findClosestColorIndex (mkLab nan 0 0) tiedPalette < length tiedPalette /\
  findClosestColorIndexAB (mkLab nan 0 0) tiedPalette < length tiedPalette /\
  findClosestColorIndexL (mkLab nan 0 0) tiedPalette < length tiedPalette.
Proof.
  apply (closest_index_in_range (mkLab nan 0 0) tiedPalette).
  intros H; discriminate H.
Defined.

(** X2: when the palette holds the query colour itself and the query's
    coordinates are finite, each of the three searches returns the first
    palette index whose colour is at distance exactly 0 from the query,
    whatever the other candidates are. *)
Theorem closest_index_of_exact_copy (labColor : Lab) (paletteLab : list Lab) :
  finiteLab labColor = true -> In labColor paletteLab ->
  firstZero (distFull labColor) paletteLab labColor
            (findClosestColorIndex labColor paletteLab) /\
  firstZero (distAB labColor) paletteLab labColor
            (findClosestColorIndexAB labColor paletteLab) /\
  firstZero (distL labColor) paletteLab labColor
            (findClosestColorIndexL labColor paletteLab).
Proof.
  intros Hfin Hin.
  destruct (In_nth _ _ labColor Hin) as (i & Hi & Hnth).
  destruct (dist_self labColor Hfin) as (H1 & H2 & H3).
  split; [|split].
  - apply (closestLoop_firstZero _ _ _ i (distFull_pos labColor) Hi).
    rewrite Hnth. exact H1.
  - apply (closestLoop_firstZero _ _ _ i (distAB_pos labColor) Hi).
    rewrite Hnth. exact H2.
  - apply (closestLoop_firstZero _ _ _ i (distL_pos labColor) Hi).
    rewrite Hnth. exact H3.
Qed.

Lemma closest_index_of_exact_copy_witness :
  firstZero (distFull (mkLab 10 0 0)) tiedPalette (mkLab 10 0 0)
            (findClosestColorIndex (mkLab 10 0 0) tiedPalette) /\
  firstZero (distAB (mkLab 10 0 0)) tiedPalette (mkLab 10 0 0)
            (findClosestColorIndexAB (mkLab 10 0 0) tiedPalette) /\
  firstZero (distL (mkLab 10 0 0)) tiedPalette (mkLab 10 0 0)
            (findClosestColorIndexL (mkLab 10 0 0) tiedPalette).
Proof.
  apply (closest_index_of_exact_copy (mkLab 10 0 0) tiedPalette).
  - reflexivity.
  - right. left. reflexivity.
Defined.

Section Conversions.
Variable Math_pow : float -> float -> float.

(** X3: [colorDistance] does not depend on the order of its two colours and
    is never negative (it can be NaN), whatever [Math.pow] computes. *)
Theorem color_distance_symmetric (color1 color2 : RGB) :
  colorDistance Math_pow color1 color2 = colorDistance Math_pow color2 color1 /\
  (colorDistance Math_pow color1 color2 <? 0)%float = false.
Proof.
  unfold colorDistance. split.
  - cbv zeta.
    rewrite (sq_sub_comm (lab_l (rgbToLab Math_pow color1))),
            (sq_sub_comm (lab_a (rgbToLab Math_pow color1))),
            (sq_sub_comm (lab_b (rgbToLab Math_pow color1))).
    reflexivity.
  - rewrite ltb_spec. change (Prim2SF 0) with (S754_zero false).
    apply sf_pos_not_below_zero, sqrt_not_negative, sum_of_squares_pos.
Qed.

Lemma colorDistance_comm (color1 color2 : RGB) :
  colorDistance Math_pow color1 color2 = colorDistance Math_pow color2 color1.
Proof.
  unfold colorDistance. cbv zeta.
  rewrite (sq_sub_comm (lab_l (rgbToLab Math_pow color1))),
          (sq_sub_comm (lab_a (rgbToLab Math_pow color1))),
          (sq_sub_comm (lab_b (rgbToLab Math_pow color1))).
  reflexivity.
Qed.

Lemma costAt_matrix (colors1 colors2 : list RGB) (i j : nat) (c1 c2 : RGB) :
  nth_error colors1 i = Some c1 -> nth_error colors2 j = Some c2 ->
  costAt (createDistanceMatrix Math_pow colors1 colors2) (i, j)
  = colorDistance Math_pow c1 c2.
Proof.
  intros H1 H2. unfold costAt, createDistanceMatrix. cbn [fst snd].
  rewrite (nth_error_nth _ _ _
             (map_nth_error
                (fun c1 => map (fun c2 => colorDistance Math_pow c1 c2) colors2)
                _ _ H1)).
  exact (nth_error_nth _ _ _
           (map_nth_error (fun c2 => colorDistance Math_pow c1 c2) _ _ H2)).
Qed.

(** X4: [createDistanceMatrix(colors1, colors2)] has one row per colour of
    [colors1], each with one entry per colour of [colors2]; entry [i][j] is
    the distance of [colors1[i]] and [colors2[j]], and it is equal to entry
    [j][i] of the matrix built with the two lists exchanged. *)
Theorem distance_matrix_shape (colors1 colors2 : list RGB) :
  let m := createDistanceMatrix Math_pow colors1 colors2 in
  length m = length colors1 /\
  (forall row, In row m -> length row = length colors2) /\
  (forall i j c1 c2,
      nth_error colors1 i = Some c1 -> nth_error colors2 j = Some c2 ->
      costAt m (i, j) = colorDistance Math_pow c1 c2 /\
      costAt (createDistanceMatrix Math_pow colors2 colors1) (j, i)
      = costAt m (i, j)).
Proof.
  cbv zeta. split; [|split].
  - apply length_map.
  - intros row Hin. unfold createDistanceMatrix in Hin.
    apply in_map_iff in Hin. destruct Hin as (c1 & <- & _). apply length_map.
  - intros i j c1 c2 H1 H2.
    rewrite (costAt_matrix colors1 colors2 i j c1 c2 H1 H2),
            (costAt_matrix colors2 colors1 j i c2 c1 H2 H1).
    split; [reflexivity|apply colorDistance_comm].
Qed.

Lemma orZero_plain (x : float) : plainNumber (orZero x).
Proof.
  unfold plainNumber, orZero, truthy.
  destruct (is_nan x) eqn:Hn; cbn [orb negb].
  - split; [reflexivity|intros _; reflexivity].
  - destruct (is_zero x) eqn:Hz; cbn [negb].
    + split; [reflexivity|intros _; reflexivity].
    + split; [exact Hn|intros H; rewrite Hz in H; discriminate H].
Qed.

(** X5: every channel that [lrgb2rgb] and [labToRgb] return is a plain
    number, never NaN and never [-0], for any Lab input (NaN and infinite
    coordinates included) and whatever [Math.pow] computes. *)
Theorem lab_to_rgb_channels_plain (x : float) (c : Lab) :
  plainNumber (lrgb2rgb Math_pow x) /\
  plainNumber (rgb_r (labToRgb Math_pow c)) /\
  plainNumber (rgb_g (labToRgb Math_pow c)) /\
  plainNumber (rgb_b (labToRgb Math_pow c)).
Proof.
  unfold labToRgb, lrgb2rgb. cbn [rgb_r rgb_g rgb_b].
  repeat split; apply orZero_plain.
Qed.

Lemma is_nan_eq (x : float) : is_nan x = true -> x = nan.
Proof.
  unfold is_nan. intros H. apply negb_true_iff in H.
  rewrite FloatAxioms.eqb_spec in H. apply Prim2SF_inj.
  change (Prim2SF nan) with S754_nan.
  destruct (Prim2SF x) as [[]|[]| |[] m e]; try reflexivity;
    try discriminate H; exfalso;
    unfold SFeqb, SFcompare in H;
    rewrite Z.compare_refl, Pos.compare_cont_refl in H; discriminate H.
Qed.

Lemma lightness_finite (y : float) :
  isFinite (116 * y - 16) = true -> isFinite y = true.
Proof.
  unfold isFinite. rewrite sub_spec, mul_spec.
  destruct (Prim2SF y) as [[]|[]| |[] m e]; try reflexivity;
    intros H; vm_compute in H; discriminate H.
Qed.

(** X6: a colour whose three channels are the same number is converted to
    a Lab colour with [a] and [b] exactly [0], whenever its lightness is a
    finite number, whatever [Math.pow] computes. *)
Theorem gray_has_no_chroma (color : RGB) :
  rgb_g color = rgb_r color -> rgb_b color = rgb_r color ->
  isFinite (lab_l (rgbToLab Math_pow color)) = true ->
  lab_a (rgbToLab Math_pow color) = 0%float /\
  lab_b (rgbToLab Math_pow color) = 0%float.
Proof.
  intros Hg Hb. unfold rgbToLab. cbn [lab_l lab_a lab_b]. rewrite Hg, Hb.
  set (v := rgb2lrgb Math_pow (rgb_r color)).
  intros Hfin.
  destruct (is_nan v) eqn:Hn.
  - exfalso. rewrite (is_nan_eq v Hn) in Hfin.
    vm_compute in Hfin. discriminate Hfin.
  - rewrite (eqb_refl v Hn). cbn [andb].
    rewrite (sub_self _ (lightness_finite _ Hfin)).
    split; vm_compute; reflexivity.
Qed.
End Conversions.

Lemma gray_has_no_chroma_witness :
  lab_a (rgbToLab powBase (mkRGB 128 128 128)) = 0%float /\
  lab_b (rgbToLab powBase (mkRGB 128 128 128)) = 0%float.
Proof.
  apply (gray_has_no_chroma powBase (mkRGB 128 128 128));
    vm_compute; reflexivity.
Defined.

(** ** interpolatePalette *)

(** The map over [palette1], started at index [k]. *)
Lemma interpolate_from (palette2 : list RGB) (i : float) (palette1 : list RGB) :
  forall k,
    (k + length palette1 <= length palette2 ->
     mapThrowing
       (fun ic : nat * RGB =>
          match nth_error palette2 (fst ic) with
          | None => None
          | Some color2 => Some (blendColor i (snd ic) color2)
          end)
       (combine (seq k (length palette1)) palette1)
     = Some (map (fun cc => blendColor i (fst cc) (snd cc))
                 (combine palette1 (skipn k palette2)))) /\
    (k <= length palette2 -> length palette2 < k + length palette1 ->
     mapThrowing
       (fun ic : nat * RGB =>
          match nth_error palette2 (fst ic) with
          | None => None
          | Some color2 => Some (blendColor i (snd ic) color2)
          end)
       (combine (seq k (length palette1)) palette1)
     = None).
Proof.
  induction palette1 as [|color1 rest IH]; intros k.
  - split; [reflexivity|]. cbn [length]. intros H1 H2. lia.
  - cbn [length seq combine mapThrowing fst snd].
    destruct (nth_error palette2 k) as [color2|] eqn:E.
    + assert (Hk : k < length palette2)
        by (apply nth_error_Some; congruence).
      destruct (IH (S k)) as [IHs IHn]. split.
      * intros Hle. rewrite IHs by lia.
        destruct (skipn k palette2) as [|c2' tl] eqn:Es.
        { apply (f_equal (@length RGB)) in Es. rewrite length_skipn in Es.
          cbn [length] in Es. lia. }
        assert (Hc : c2' = color2 /\ tl = skipn (S k) palette2).
        { rewrite <- (firstn_skipn k palette2) in E.
          rewrite nth_error_app2 in E by (rewrite length_firstn; lia).
          rewrite length_firstn, Nat.min_l, Nat.sub_diag, Es in E by lia.
          cbn in E. split; [congruence|].
          change (S k) with (1 + k).
          rewrite <- (skipn_skipn 1 k palette2), Es. reflexivity. }
        destruct Hc as [-> ->]. reflexivity.
      * intros _ Hlt. rewrite IHn by lia. reflexivity.
    + split; [|reflexivity]. intros Hle. exfalso.
      apply nth_error_None in E. lia.
Qed.

Lemma interpolatePalette_zip (palette1 palette2 : list RGB) (i : float) :
  (length palette1 <= length palette2 ->
   interpolatePalette palette1 palette2 i
   = Some (map (fun cc => blendColor i (fst cc) (snd cc))
               (combine palette1 palette2))) /\
  (length palette2 < length palette1 ->
   interpolatePalette palette1 palette2 i = None).
Proof.
  destruct (interpolate_from palette2 i palette1 0) as [H1 H2].
  split; intros H.
  - exact (H1 H).
  - apply H2; [lia|exact H].
Qed.

(** X7: [interpolatePalette] throws exactly when the second palette is
    shorter than the first; otherwise the result has the length of the
    first palette and its entry [j] is blended from the entries [j] of the
    two palettes, the extra colours of the second being ignored. *)
Theorem interpolate_palette_entries (palette1 palette2 : list RGB) (i : float) :
  (length palette2 < length palette1 ->
   interpolatePalette palette1 palette2 i = None) /\
  (length palette1 <= length palette2 ->
   exists newPalette,
     interpolatePalette palette1 palette2 i = Some newPalette /\
     length newPalette = length palette1 /\
     forall j color1 color2,
       nth_error palette1 j = Some color1 ->
       nth_error palette2 j = Some color2 ->
       nth_error newPalette j = Some (blendColor i color1 color2)).
Proof.
  destruct (interpolatePalette_zip palette1 palette2 i) as [H1 H2].
  split; [exact H2|]. intros Hle.
  exists (map (fun cc => blendColor i (fst cc) (snd cc))
              (combine palette1 palette2)).
  split; [exact (H1 Hle)|split].
  - rewrite length_map, length_combine. lia.
  - intros j color1 color2 E1 E2.
    apply (map_nth_error (fun cc => blendColor i (fst cc) (snd cc))
                         j (combine palette1 palette2) (d := (color1, color2))).
    clear H1 H2 Hle. revert palette2 j E1 E2.
    induction palette1 as [|a p1 IH]; intros [|b p2] [|j] E1 E2;
      cbn in *; try discriminate; try congruence.
    apply IH; assumption.
Qed.

(** The endpoints hold for all 65536 pairs of channel values. *)
Lemma blendsAt_bytes :
  forallb (fun a => forallb (blendsAt a) bytes) bytes = true.
Proof. vm_cast_no_check (eq_refl true). Qed.

Lemma existsb_leibniz (l : list float) (x : float) :
  existsb (fun b => PrimFloat.Leibniz.eqb x b) l = true -> In x l.
Proof.
  intros H. apply existsb_exists in H. destruct H as (b & Hin & E).
  apply FloatAxioms.Leibniz.eqb_spec in E. rewrite E. exact Hin.
Qed.

Lemma forallb_pairs (l : list float) (P : float -> float -> bool) :
  forallb (fun a => forallb (P a) l) l = true ->
  forall a b, In a l -> In b l -> P a b = true.
Proof.
  intros H a b Ha Hb. rewrite forallb_forall in H. specialize (H a Ha).
  rewrite forallb_forall in H. exact (H b Hb).
Qed.

Lemma isByte_In (a : float) : isByte a = true -> In a bytes.
Proof. intros Ha. exact (existsb_leibniz bytes a Ha). Qed.

Lemma blendsAt_In (a b : float) :
  In a bytes -> In b bytes -> blendsAt a b = true.
Proof. exact (forallb_pairs bytes blendsAt blendsAt_bytes a b). Qed.

Lemma blendsAt_eq (a b : float) :
  blendsAt a b = true -> blend a b 0 = a /\ blend a b 1 = b.
Proof.
  intros H. unfold blendsAt in H. apply andb_true_iff in H.
  destruct H as [H0 H1]. apply FloatAxioms.Leibniz.eqb_spec in H0, H1. auto.
Qed.

Lemma blend_endpoints (a b : float) :
  isByte a = true -> isByte b = true -> blend a b 0 = a /\ blend a b 1 = b.
Proof.
  intros Ha Hb.
  exact (blendsAt_eq a b (blendsAt_In a b (isByte_In a Ha) (isByte_In b Hb))).
Qed.

Lemma blendColor_endpoints (c1 c2 : RGB) :
  byteColor c1 = true -> byteColor c2 = true ->
  blendColor 0 c1 c2 = c1 /\ blendColor 1 c1 c2 = c2.
Proof.
  unfold byteColor. intros H1 H2.
  apply andb_true_iff in H1. destruct H1 as [H1 Hb1].
  apply andb_true_iff in H1. destruct H1 as [Hr1 Hg1].
  apply andb_true_iff in H2. destruct H2 as [H2 Hb2].
  apply andb_true_iff in H2. destruct H2 as [Hr2 Hg2].
  destruct (blend_endpoints _ _ Hr1 Hr2) as [R0 R1].
  destruct (blend_endpoints _ _ Hg1 Hg2) as [G0 G1].
  destruct (blend_endpoints _ _ Hb1 Hb2) as [B0 B1].
  unfold blendColor. rewrite R0, R1, G0, G1, B0, B1.
  destruct c1, c2. split; reflexivity.
Qed.

(** X8: for palettes whose channels are integers from 0 to 255, with the
    second at least as long as the first, interpolating at [0] returns the
    first palette and interpolating at [1] returns the colours of the
    second palette that have a partner. *)
Theorem interpolate_palette_endpoints (palette1 palette2 : list RGB) :
  forallb byteColor palette1 = true -> forallb byteColor palette2 = true ->
  length palette1 <= length palette2 ->
  interpolatePalette palette1 palette2 0 = Some palette1 /\
  interpolatePalette palette1 palette2 1
  = Some (firstn (length palette1) palette2).
Proof.
  intros Hb1 Hb2 Hle.
  destruct (interpolatePalette_zip palette1 palette2 0) as [-> _]; [|exact Hle].
  destruct (interpolatePalette_zip palette1 palette2 1) as [-> _]; [|exact Hle].
  revert palette2 Hb2 Hle.
  induction palette1 as [|c1 p1 IH]; intros [|c2 p2] Hb2 Hle;
    cbn [length] in Hle; try lia.
  - split; reflexivity.
  - split; reflexivity.
  - cbn [forallb] in Hb1, Hb2.
    apply andb_true_iff in Hb1. destruct Hb1 as [Hc1 Hb1].
    apply andb_true_iff in Hb2. destruct Hb2 as [Hc2 Hb2].
    destruct (IH Hb1 p2 Hb2 ltac:(lia)) as [E0 E1].
    destruct (blendColor_endpoints c1 c2 Hc1 Hc2) as [C0 C1].
    cbn [combine map fst snd length firstn].
    rewrite C0, C1. split; f_equal; f_equal; congruence.
Qed.

Lemma interpolate_palette_endpoints_witness :
  interpolatePalette [mkRGB 0 128 255; mkRGB 17 3 200]
                     [mkRGB 255 0 7; mkRGB 90 91 92; mkRGB 1 2 3] 0
  = Some [mkRGB 0 128 255; mkRGB 17 3 200] /\
  interpolatePalette [mkRGB 0 128 255; mkRGB 17 3 200]
                     [mkRGB 255 0 7; mkRGB 90 91 92; mkRGB 1 2 3] 1
  = Some (firstn (length [mkRGB 0 128 255; mkRGB 17 3 200])
                 [mkRGB 255 0 7; mkRGB 90 91 92; mkRGB 1 2 3]).
Proof.
  apply (interpolate_palette_endpoints
           [mkRGB 0 128 255; mkRGB 17 3 200]
           [mkRGB 255 0 7; mkRGB 90 91 92; mkRGB 1 2 3]).
  - vm_compute. reflexivity.
  - vm_compute. reflexivity.
  - cbn [length]. lia.
Defined.
End PaletteFacts.

(* ===================================================================== *)
(** * Nearest-colour searches with a NaN query *)
(* ===================================================================== *)

Module NanFacts.
Import JS Colors ColorsSpec NumFacts ListFacts FloatFacts PaletteFacts.

(** ** A query without a usable coordinate *)

Lemma nan_sub (y : float) : (nan - y)%float = nan.
Proof. apply Prim2SF_inj. rewrite sub_spec. reflexivity. Qed.

Lemma nan_mul (y : float) : (nan * y)%float = nan.
Proof. apply Prim2SF_inj. rewrite mul_spec. reflexivity. Qed.

Lemma nan_add_l (y : float) : (nan + y)%float = nan.
Proof. apply Prim2SF_inj. rewrite add_spec. reflexivity. Qed.

Lemma nan_add_r (x : float) : (x + nan)%float = nan.
Proof.
  apply Prim2SF_inj. rewrite add_spec.
  change (Prim2SF nan) with S754_nan.
  destruct (Prim2SF x) as [[]|[]| |[] m e]; reflexivity.
Qed.

Lemma nan_mul_r (x : float) : (x * nan)%float = nan.
Proof.
  apply Prim2SF_inj. rewrite mul_spec.
  change (Prim2SF nan) with S754_nan.
  destruct (Prim2SF x) as [[]|[]| |[] m e]; reflexivity.
Qed.

Lemma nan_not_below (m : float) : (nan <? m)%float = false.
Proof. rewrite ltb_spec. reflexivity. Qed.

Lemma distFull_nan (q p : Lab) : nanLab q = true -> distFull q p = nan.
Proof.
  unfold nanLab, distFull, sq. intros H.
  apply orb_true_iff in H. destruct H as [H|H];
    [apply orb_true_iff in H; destruct H as [H|H]|];
    rewrite (is_nan_eq _ H), nan_sub, nan_mul,
      ?nan_add_l, ?nan_add_r, ?nan_add_l; reflexivity.
Qed.

Lemma distAB_nan (q p : Lab) : nanLab q = true -> distAB q p = nan.
Proof.
  intros H. unfold distAB. rewrite (distFull_nan q p H), nan_mul.
  apply nan_add_l.
Qed.

Lemma distL_nan (q p : Lab) : nanLab q = true -> distL q p = nan.
Proof.
  intros H. unfold distL. rewrite (distFull_nan q p H), nan_mul.
  apply nan_add_l.
Qed.

Lemma closestLoop_all_nan (distance : Lab -> float) (pal : list Lab) :
  (forall p, distance p = nan) ->
  closestLoop distance pal = (0, MAX_VALUE).
Proof.
  intros Hnan. induction pal as [|p pal IH] using rev_ind; [reflexivity|].
  rewrite (ColorsFacts.closestLoop_snoc distance pal p), IH.
  unfold closestStep. cbn [fst snd]. now rewrite Hnan, nan_not_below.
Qed.

(** X24: when a coordinate of the query colour is NaN, every distance is
    NaN, no comparison succeeds, and each of the three searches returns
    index 0 whatever the palette holds. *)
Theorem closest_index_of_nan_query (labColor : Lab) (paletteLab : list Lab) :
  nanLab labColor = true ->
  findClosestColorIndex labColor paletteLab = 0 /\
  findClosestColorIndexAB labColor paletteLab = 0 /\
  findClosestColorIndexL labColor paletteLab = 0.
Proof.
  intros H.
  unfold findClosestColorIndex, findClosestColorIndexAB, findClosestColorIndexL.
  rewrite !closestLoop_all_nan;
    [repeat split| | |]; intros p;
    [apply distL_nan|apply distAB_nan|apply distFull_nan]; exact H.
Qed.

Lemma closest_index_of_nan_query_witness :
  findClosestColorIndex (mkLab 10 nan 0) tiedPalette = 0 /\
  findClosestColorIndexAB (mkLab 10 nan 0) tiedPalette = 0 /\
  findClosestColorIndexL (mkLab 10 nan 0) tiedPalette = 0.
Proof.
  apply (closest_index_of_nan_query (mkLab 10 nan 0) tiedPalette).
  reflexivity.
Defined.
End NanFacts.

(* ===================================================================== *)
(** * Further properties of the precompute script and of doubleVertices *)
(* ===================================================================== *)

Module CloudFacts.
Import JS Morph MorphSpec NumFacts ListFacts MorphFacts.

(** ** adjustVertexCount *)

Lemma adjust_flat (pts : list Point) (targetN : nat) :
  adjustVertexCount (flat pts) targetN =
  flat (firstn targetN pts ++ repeat (padPoint pts) (targetN - length pts)).
Proof.
  unfold adjustVertexCount. rewrite length_flat.
  replace (Nat.min (3 * length pts) (targetN * 3))
    with (3 * Nat.min (length pts) targetN) by lia.
  rewrite copy_loop by (rewrite ?length_flat; lia).
  rewrite firstn_flat, div3.
  destruct (Nat.ltb_spec (Nat.min (length pts) targetN) targetN) as [Hlt|Hge].
  - assert (HL : length pts < targetN) by lia.
    replace (Nat.min (length pts) targetN) with (length pts) by lia.
    rewrite firstn_all.
    rewrite (firstn_all2 (n := targetN)) by lia.
    replace (targetN * 3 - 3 * length pts) with (3 * (targetN - length pts))
      by lia.
    replace (length pts * 3) with (length (flat pts))
      by (rewrite length_flat; lia).
    replace (targetN * 3)
      with (length (flat pts) + 3 * (targetN - length pts))
      by (rewrite length_flat; lia).
    rewrite padLoop_spec by lia.
    rewrite flat_app. f_equal. f_equal. f_equal.
    unfold padPoint.
    destruct (length pts) as [|l] eqn:EL.
    + destruct pts; [|discriminate]. reflexivity.
    + rewrite (lastPoint_pt pts l EL).
      assert (Hrd : forall c, c < 3 ->
                rdZ (flat pts ++ repeat 0%float (3 * (targetN - S l)))
                    (Z.of_nat (3 * S l) - 3 + Z.of_nat c) =
                rd (flat pts) (l * 3 + c)).
      { intros c Hc. unfold rdZ.
        replace (Z.of_nat (3 * S l) - 3 + Z.of_nat c)%Z
          with (Z.of_nat (l * 3 + c)) by lia.
        replace (Z.of_nat (l * 3 + c) <? 0)%Z with false
          by (symmetry; apply Z.ltb_ge; lia).
        rewrite Nat2Z.id. unfold rd. apply app_nth1.
        rewrite length_flat. lia. }
      pose proof (Hrd 0 ltac:(lia)) as H0.
      pose proof (Hrd 1 ltac:(lia)) as H1.
      pose proof (Hrd 2 ltac:(lia)) as H2.
      rewrite Z.add_0_r, Nat.add_0_r in H0.
      replace (Z.of_nat (3 * S l) - 3 + Z.of_nat 1)%Z
        with (Z.of_nat (3 * S l) - 2)%Z in H1 by lia.
      replace (Z.of_nat (3 * S l) - 3 + Z.of_nat 2)%Z
        with (Z.of_nat (3 * S l) - 1)%Z in H2 by lia.
      rewrite H0, H1, H2.
      destruct (rd_flat pts l) as (-> & -> & ->). reflexivity.
  - assert (HL : targetN <= length pts) by lia.
    replace (Nat.min (length pts) targetN) with targetN by lia.
    replace (targetN * 3 - 3 * targetN) with 0 by lia.
    replace (targetN - length pts) with 0 by lia.
    cbn [repeat]. now rewrite !app_nil_r.
Qed.

Lemma length_copy (positions a : Float32Array) (l : list nat) :
  length (fold_left (fun a i => wr a i (rd positions i)) l a) = length a.
Proof.
  revert a. induction l as [|i l IH]; intros a; [reflexivity|].
  cbn [fold_left]. rewrite IH. apply length_wr.
Qed.

Lemma length_padLoop (fuel : nat) :
  forall a pIndex finalLength x y z,
    length (padLoop fuel a pIndex finalLength x y z) = length a.
Proof.
  induction fuel as [|fuel IH]; intros a pIndex finalLength x y z;
    [reflexivity|].
  cbn [padLoop]. destruct (pIndex <? finalLength); [|reflexivity].
  rewrite IH, !length_wr. reflexivity.
Qed.

(** The result has [finalCount * 3] entries for every input array. *)
Lemma length_adjustVertexCount (positions : Float32Array) (finalCount : nat) :
  length (adjustVertexCount positions finalCount) = finalCount * 3.
Proof.
  unfold adjustVertexCount.
  destruct (_ <? finalCount);
    rewrite ?length_padLoop, length_copy, repeat_length; reflexivity.
Qed.

Lemma firstn_repeat {A : Type} (v : A) (m n : nat) :
  m <= n -> firstn m (repeat v n) = repeat v m.
Proof.
  revert n. induction m as [|m IH]; intros [|n] H; cbn; try lia;
    try reflexivity.
  f_equal. apply IH. lia.
Qed.

(** X9: equalising a cloud to [n] points and then to [m <= n] points gives
    the same array as equalising it to [m] points directly; equalising to
    the count the cloud already has returns it unchanged. *)
Theorem adjust_vertex_count_twice (pts : list Point) (n m : nat) :
  m <= n ->
  adjustVertexCount (adjustVertexCount (flat pts) n) m
  = adjustVertexCount (flat pts) m /\
  adjustVertexCount (flat pts) (length pts) = flat pts.
Proof.
  intros Hmn. split.
  - rewrite (adjust_flat pts n), (adjust_flat _ m), (adjust_flat pts m).
    f_equal.
    set (Q := firstn n pts ++ repeat (padPoint pts) (n - length pts)).
    assert (HQ : length Q = n).
    { unfold Q. rewrite length_app, repeat_length, length_firstn. lia. }
    rewrite HQ. replace (m - n) with 0 by lia. cbn [repeat].
    rewrite app_nil_r. unfold Q. rewrite firstn_app, firstn_firstn.
    rewrite length_firstn.
    destruct (Nat.le_gt_cases m (length pts)) as [Hle|Hgt].
    + replace (Nat.min m n) with m by lia.
      replace (m - Nat.min n (length pts)) with 0 by lia.
      replace (m - length pts) with 0 by lia.
      reflexivity.
    + replace (Nat.min n (length pts)) with (length pts) by lia.
      rewrite firstn_repeat by lia.
      rewrite !firstn_all2 by lia. reflexivity.
  - rewrite adjust_flat, firstn_all, Nat.sub_diag. cbn [repeat].
    now rewrite app_nil_r.
Qed.

Lemma adjust_vertex_count_twice_witness :
  adjustVertexCount (adjustVertexCount (flat fivePoints) 8) 6
  = adjustVertexCount (flat fivePoints) 6 /\
  adjustVertexCount (flat fivePoints) (length fivePoints) = flat fivePoints.
Proof. apply (adjust_vertex_count_twice fivePoints 8 6). lia. Defined.

(** ** clampPositions *)

Lemma strided_in_range (count stride : nat) :
  forall k, k < count / stride -> k * stride < count.
Proof.
  intros k Hk. destruct stride as [|s]; [simpl in Hk; lia|].
  pose proof (Nat.Div0.mul_div_le count (S s)). nia.
Qed.

Lemma ceilDiv_covers (count maxVertices : nat) :
  0 < maxVertices -> count <= ceilDiv count maxVertices * maxVertices.
Proof.
  intros Hm. unfold ceilDiv.
  pose proof (Nat.div_mod_eq (count + maxVertices - 1) maxVertices).
  pose proof (Nat.mod_upper_bound (count + maxVertices - 1) maxVertices
                                  ltac:(lia)).
  nia.
Qed.

Lemma ceilDiv_le (count maxVertices : nat) :
  0 < maxVertices -> ceilDiv count maxVertices <= count.
Proof.
  intros Hm. unfold ceilDiv.
  destruct count as [|c]; [rewrite Nat.div_small by lia; lia|].
  apply Nat.Div0.div_le_upper_bound. nia.
Qed.

Lemma clamp_flat (pts : list Point) (maxVertices : nat) :
  clampPositions (flat pts) maxVertices =
  if length pts <=? maxVertices then flat pts
  else flat (strided (ceilDiv (length pts) maxVertices)
                     (length pts / ceilDiv (length pts) maxVertices) pts).
Proof.
  unfold clampPositions. rewrite length_flat, div3.
  destruct (length pts <=? maxVertices); [reflexivity|].
  set (stride := ceilDiv (length pts) maxVertices).
  replace (length pts / stride * 3) with (3 * (length pts / stride)) by lia.
  apply (clampLoop_spec pts stride (length pts / stride)
                        (strided_in_range (length pts) stride)
                        (length pts / stride) 0).
  lia.
Qed.

Lemma clamp_out (pts : list Point) (maxVertices : nat) :
  0 < maxVertices ->
  exists out : list Point,
    clampPositions (flat pts) maxVertices = flat out /\
    length out <= Nat.min (length pts) maxVertices /\
    incl out pts /\
    hd_error out = hd_error pts /\
    clampPositions (flat out) maxVertices = flat out.
Proof.
  intros Hmax. rewrite clamp_flat.
  destruct (Nat.leb_spec (length pts) maxVertices) as [Hle|Hgt].
  - exists pts. split; [reflexivity|]. split; [lia|].
    split; [apply incl_refl|]. split; [reflexivity|].
    rewrite clamp_flat. apply Nat.leb_le in Hle. now rewrite Hle.
  - set (stride := ceilDiv (length pts) maxVertices).
    set (kept := length pts / stride).
    assert (Hcov : length pts <= stride * maxVertices)
      by apply (ceilDiv_covers _ _ Hmax).
    assert (Hsle : stride <= length pts) by apply (ceilDiv_le _ _ Hmax).
    assert (Hspos : 0 < stride) by nia.
    assert (Hkept : kept <= maxVertices).
    { apply Nat.Div0.div_le_upper_bound. nia. }
    assert (Hkept1 : 1 <= kept).
    { unfold kept. apply Nat.div_le_lower_bound; lia. }
    assert (Hkeptle : kept <= length pts).
    { unfold kept. apply Nat.Div0.div_le_upper_bound. nia. }
    assert (Hlen : length (strided stride kept pts) = kept).
    { unfold strided. now rewrite length_map, length_seq. }
    exists (strided stride kept pts).
    split; [reflexivity|]. split; [rewrite Hlen; lia|]. split; [|split].
    + intros p Hin. unfold strided in Hin. apply in_map_iff in Hin.
      destruct Hin as (k & <- & Hk). apply in_seq in Hk.
      unfold pt. apply nth_In.
      apply (strided_in_range (length pts) stride). fold kept. lia.
    + unfold strided. destruct kept as [|kept']; [lia|].
      cbn [seq map hd_error]. unfold pt.
      destruct pts as [|p pts']; [cbn in Hgt; lia|reflexivity].
    + rewrite clamp_flat, Hlen.
      apply Nat.leb_le in Hkept. now rewrite Hkept.
Qed.

(** X10: with a cap of at least one vertex, [clampPositions] returns a whole
    cloud of at most [maxVertices] points, all of them points of the input;
    the first point is always kept, so a non-empty cloud stays non-empty;
    and clamping the result again changes nothing. *)
Theorem clamp_positions_bounds (pts : list Point) (maxVertices : nat) :
  0 < maxVertices ->
  exists out : list Point,
    clampPositions (flat pts) maxVertices = flat out /\
    length out <= Nat.min (length pts) maxVertices /\
    incl out pts /\
    hd_error out = hd_error pts /\
    clampPositions (flat out) maxVertices = flat out.
Proof. exact (clamp_out pts maxVertices). Qed.

Lemma clamp_positions_bounds_witness :
  exists out : list Point,
    clampPositions (flat fivePoints) 2 = flat out /\
    length out <= Nat.min (length fivePoints) 2 /\
    incl out fivePoints /\
    hd_error out = hd_error fivePoints /\
    clampPositions (flat out) 2 = flat out.
Proof. apply (clamp_positions_bounds fivePoints 2). lia. Defined.

(** ** trimBottomRow *)

Lemma trim_flat (pts : list Point) :
  trimBottomRow (flat pts) =
  match survivors (trimThreshold (flat pts)) pts with
  | [] => flat pts
  | kept => flat kept
  end.
Proof.
  unfold trimBottomRow. rewrite trimKept_flat, !length_flat.
  destruct pts as [|p pts]; [reflexivity|].
  replace (3 * length (p :: pts) <? 3) with false
    by (symmetry; apply Nat.ltb_ge; simpl; lia).
  destruct (survivors _ (p :: pts)) as [|q kept]; [reflexivity|].
  replace (3 <=? 3 * length (q :: kept)) with true
    by (symmetry; apply Nat.leb_le; simpl; lia).
  reflexivity.
Qed.

Lemma trim_filter (pts : list Point) :
  exists keep : Point -> bool,
    trimBottomRow (flat pts) = flat (filter keep pts) /\
    (pts <> [] -> filter keep pts <> []).
Proof.
  rewrite trim_flat. unfold survivors.
  set (test := fun p => negb (py p <=? trimThreshold (flat pts))%float).
  destruct (filter test pts) as [|q kept] eqn:E.
  - exists (fun _ => true).
    assert (Hall : filter (fun _ : Point => true) pts = pts).
    { clear. induction pts as [|p pts IH]; [reflexivity|].
      cbn [filter]. now rewrite IH. }
    rewrite Hall. split; [reflexivity|auto].
  - exists test. rewrite E. split; [reflexivity|]. intros _ H. discriminate H.
Qed.

(** X11: [trimBottomRow] returns the points that pass one test, in their
    original order, and never an empty cloud for a non-empty one. *)
Theorem trim_bottom_row_keeps_a_subcloud (pts : list Point) :
  exists keep : Point -> bool,
    trimBottomRow (flat pts) = flat (filter keep pts) /\
    (pts <> [] -> filter keep pts <> []).
Proof. exact (trim_filter pts). Qed.

Lemma finite_between_infinities (y : float) :
  isFinite y = true ->
  (y <? infinity)%float = true /\ (neg_infinity <? y)%float = true.
Proof.
  unfold isFinite. rewrite !ltb_spec.
  change (Prim2SF infinity) with (S754_infinity false).
  change (Prim2SF neg_infinity) with (S754_infinity true).
  destruct (Prim2SF y) as [[]|[]| |[] m e]; try discriminate;
    split; reflexivity.
Qed.

Lemma leb_add_zero (y : float) :
  isFinite y = true -> (y <=? y + 0)%float = true.
Proof.
  unfold isFinite. rewrite leb_spec, add_spec.
  change (Prim2SF 0) with (S754_zero false).
  destruct (Prim2SF y) as [[]|[]| |[] m e]; try discriminate;
    try reflexivity; intros _;
    unfold SF64add, SFadd, SFleb, SFcompare;
    rewrite Z.compare_refl, Pos.compare_cont_refl; reflexivity.
Qed.

Lemma fold_level (step : float -> float -> float) (y : float)
      (ys : list float) :
  step y y = y -> (forall a, In a ys -> a = y) -> fold_left step ys y = y.
Proof.
  intros Hstep. induction ys as [|a ys IH]; intros Hall; [reflexivity|].
  cbn [fold_left]. rewrite (Hall a (or_introl eq_refl)), Hstep.
  apply IH. intros b Hb. apply Hall. now right.
Qed.

Lemma level_range (ys : list float) (y : float) :
  isFinite y = true -> ys <> [] -> (forall a, In a ys -> a = y) ->
  minOf ys = y /\ maxOf ys = y.
Proof.
  intros Hfin Hne Hall. destruct ys as [|a ys]; [congruence|].
  destruct (finite_between_infinities y Hfin) as [Hlt Hgt].
  pose proof (Hall a (or_introl eq_refl)) as ->.
  unfold minOf, maxOf. cbn [fold_left]. rewrite Hlt, Hgt.
  split; apply fold_level.
  - now rewrite ltb_irrefl.
  - intros b Hb. apply Hall. now right.
  - now rewrite ltb_irrefl.
  - intros b Hb. apply Hall. now right.
Qed.

(** X12: a cloud whose points all have the same finite height is returned
    unchanged by [trimBottomRow]: every point is at or below the threshold,
    nothing is kept, and the input is returned instead of an empty cloud. *)
Theorem trim_level_cloud_unchanged (pts : list Point) (y : float) :
  isFinite y = true -> (forall p, In p pts -> py p = y) ->
  trimBottomRow (flat pts) = flat pts.
Proof.
  intros Hfin Hall. rewrite trim_flat.
  destruct pts as [|p0 pts0] eqn:Epts; [reflexivity|]. rewrite <- Epts in *.
  assert (Hthr : (y <=? trimThreshold (flat pts))%float = true).
  { unfold trimThreshold. rewrite yRange_flat.
    destruct (level_range (map py pts) y Hfin) as [-> ->].
    - rewrite Epts. intros H; discriminate H.
    - intros a Ha. apply in_map_iff in Ha. destruct Ha as (p & <- & Hp).
      now apply Hall.
    - rewrite (sub_self y Hfin).
      change (0 * 0.01)%float with 0%float.
      now apply leb_add_zero. }
  assert (Hnone : survivors (trimThreshold (flat pts)) pts = []).
  { unfold survivors.
    assert (Hgen : forall l, (forall p, In p l -> py p = y) ->
              filter (fun p => negb (py p <=? trimThreshold (flat pts))%float) l
              = []).
    { induction l as [|p l IH]; intros Hl; [reflexivity|].
      cbn [filter]. rewrite (Hl p (or_introl eq_refl)), Hthr. cbn [negb].
      apply IH. intros q Hq. apply Hl. now right. }
    now apply Hgen. }
  now rewrite Hnone.
Qed.

Lemma trim_level_cloud_unchanged_witness :
  trimBottomRow (flat [(1, 5, 1); (2, 5, 2); (-3, 5, 0.5)]%float)
  = flat [(1, 5, 1); (2, 5, 2); (-3, 5, 0.5)]%float.
Proof.
  apply (trim_level_cloud_unchanged
           [(1, 5, 1); (2, 5, 2); (-3, 5, 0.5)]%float 5%float).
  - reflexivity.
  - intros p [<-|[<-|[<-|[]]]]; reflexivity.
Defined.

(** ** The bounding box *)

Lemma updateBounds_flat (pts : list Point) (b : Bounds) :
  updateBounds (flat pts) b = fold_left growBox pts b.
Proof.
  unfold updateBounds.
  exact (fold_by3_flat
           (fun b x y z =>
              mkBounds (if x <? minX b then x else minX b)%float
                       (if y <? minY b then y else minY b)%float
                       (if z <? minZ b then z else minZ b)%float
                       (if maxX b <? x then x else maxX b)%float
                       (if maxY b <? y then y else maxY b)%float
                       (if maxZ b <? z then z else maxZ b)%float)
           pts b).
Qed.

Lemma min_step_keeps (m a y : float) :
  (y <? m)%float = false ->
  (y <? (if a <? m then a else m))%float = false.
Proof.
  intros H. destruct (a <? m)%float eqn:Ha; [|exact H].
  destruct (y <? a)%float eqn:Hy; [|reflexivity].
  rewrite <- H. symmetry. now apply ltb_trans with (y := a).
Qed.

Lemma max_step_keeps (m a y : float) :
  (m <? y)%float = false ->
  ((if m <? a then a else m) <? y)%float = false.
Proof.
  intros H. destruct (m <? a)%float eqn:Ha; [|exact H].
  destruct (a <? y)%float eqn:Hy; [|reflexivity].
  rewrite <- H. symmetry. now apply ltb_trans with (y := a).
Qed.

Lemma min_step_self (m a : float) :
  (a <? (if a <? m then a else m))%float = false.
Proof.
  destruct (a <? m)%float eqn:Ha; [apply ltb_irrefl|exact Ha].
Qed.

Lemma max_step_self (m a : float) :
  ((if m <? a then a else m) <? a)%float = false.
Proof.
  destruct (m <? a)%float eqn:Ha; [apply ltb_irrefl|exact Ha].
Qed.

Lemma growBox_keeps (b : Bounds) (q p : Point) :
  encloses b p -> encloses (growBox b q) p.
Proof.
  intros (H1 & H2 & H3 & H4 & H5 & H6). unfold encloses, growBox.
  cbn [minX minY minZ maxX maxY maxZ].
  repeat split; (apply min_step_keeps || apply max_step_keeps); assumption.
Qed.

Lemma growBox_self (b : Bounds) (p : Point) : encloses (growBox b p) p.
Proof.
  unfold encloses, growBox. cbn [minX minY minZ maxX maxY maxZ].
  repeat split; (apply min_step_self || apply max_step_self).
Qed.

Lemma box_encloses (pts : list Point) :
  forall b p, In p pts \/ encloses b p -> encloses (fold_left growBox pts b) p.
Proof.
  induction pts as [|q pts IH]; intros b p H.
  - destruct H as [[]|H]. exact H.
  - cbn [fold_left]. apply IH. destruct H as [[<-|H]|H].
    + right. apply growBox_self.
    + now left.
    + right. now apply growBox_keeps.
Qed.

(** X16: the bounding box that [reorderToNearest] computes over the
    reference and the target arrays encloses every point of both clouds: no
    coordinate of a point is below the box's minimum or above its maximum
    on that axis. *)
Theorem bounds_enclose_both_clouds (refPts tgtPts : list Point) (p : Point) :
  In p refPts \/ In p tgtPts ->
  encloses (bounds (flat refPts) (flat tgtPts)) p.
Proof.
  intros H. unfold bounds. rewrite !updateBounds_flat.
  rewrite <- fold_left_app. apply box_encloses. left.
  apply in_or_app. exact H.
Qed.

Lemma bounds_enclose_both_clouds_witness :
  encloses (bounds (flat refCloud) (flat tgtCloud)) (9, 9, 8)%float.
Proof.
  apply (bounds_enclose_both_clouds refCloud tgtCloud (9, 9, 8)%float).
  right. left. reflexivity.
Defined.

(** ** Loops that store one point per round *)

Lemma point_loop (g : nat -> Point) (pre : list float) (n : nat) :
  fold_left
    (fun a k =>
       wr (wr (wr a (length pre + k * 3) (px (g k)))
              (length pre + k * 3 + 1) (py (g k)))
          (length pre + k * 3 + 2) (pz (g k)))
    (seq 0 n) (pre ++ repeat 0%float (3 * n))
  = pre ++ flat (map g (seq 0 n)).
Proof.
  assert (H : forall k, k <= n ->
    fold_left
      (fun a k =>
         wr (wr (wr a (length pre + k * 3) (px (g k)))
                (length pre + k * 3 + 1) (py (g k)))
            (length pre + k * 3 + 2) (pz (g k)))
      (seq 0 k) (pre ++ repeat 0%float (3 * n))
    = (pre ++ flat (map g (seq 0 k))) ++ repeat 0%float (3 * (n - k))).
  { induction k as [|k IH]; intros Hk.
    - cbn [seq map flat flat_map fold_left]. rewrite app_nil_r, Nat.sub_0_r.
      reflexivity.
    - rewrite seq_S, fold_left_app, IH by lia. cbn [fold_left Nat.add].
      replace (n - k) with (S (n - S k)) by lia. rewrite repeat_3S.
      rewrite wr_point
        by (rewrite length_app, length_flat, length_map, length_seq; lia).
      rewrite map_app, flat_app. cbn [map flat flat_map].
      rewrite app_nil_r, <- !app_assoc. reflexivity. }
  rewrite (H n (le_n n)), Nat.sub_diag. cbn [repeat Nat.mul].
  now rewrite app_nil_r.
Qed.

Lemma map_pt_seq (pts : list Point) (f : Point -> Point) :
  map (fun k => f (pt pts k)) (seq 0 (length pts)) = map f pts.
Proof.
  induction pts as [|p pts IH]; [reflexivity|].
  cbn [length seq map]. f_equal.
  rewrite <- seq_shift, map_map. exact IH.
Qed.

(** ** normalizePositions *)

Lemma normalize_flat (pts : list Point) :
  normalizePositions (flat pts)
  = flat (map (normalizedPoint (updateBounds (flat pts) noBounds)) pts).
Proof.
  unfold normalizePositions. cbv zeta.
  set (b := updateBounds (flat pts) noBounds).
  rewrite length_flat, by3_0, fold_left_map.
  rewrite <- (map_pt_seq pts (normalizedPoint b)).
  refine (eq_trans _ (point_loop (fun k => normalizedPoint b (pt pts k)) []
                                 (length pts))).
  cbn [app length Nat.add].
  apply fold_left_ext_in. intros acc k _.
  destruct (rd_flat pts k) as (-> & -> & ->). reflexivity.
Qed.

(** X13: [normalizePositions] moves every point separately: the point [p] of
    the input becomes the offset of [p] from the centre of the bounding box
    times one scale, rounded to single precision; and that box encloses
    every point of the input. *)
Theorem normalize_positions_pointwise (pts : list Point) :
  let b := updateBounds (flat pts) noBounds in
  normalizePositions (flat pts) = flat (map (normalizedPoint b) pts) /\
  forall p, In p pts -> encloses b p.
Proof.
  cbv zeta. split; [apply normalize_flat|].
  intros p Hp. rewrite updateBounds_flat. apply box_encloses. now left.
Qed.

(** ** loadGLB *)

Lemma map_fround_flat (pts : list Point) :
  map Math_fround (flat pts) = flat (map froundPoint pts).
Proof.
  induction pts as [|p pts IH]; [reflexivity|].
  change (flat (p :: pts)) with ([px p; py p; pz p] ++ flat pts).
  rewrite map_app, IH. reflexivity.
Qed.

Lemma flat_nil (pts : list Point) : flat pts = [] -> pts = [].
Proof.
  intros H. apply (f_equal (@length float)) in H. rewrite length_flat in H.
  destruct pts; [reflexivity|cbn in H; lia].
Qed.

(** X14: [loadGLB] rejects with "No vertices found in GLB" when the scene
    holds no position, and otherwise resolves to a whole cloud of at least
    one point and at most [MAX_VERTEX_COUNT] points, never more than the
    scene held. *)
Theorem load_glb_vertex_count (pts : list Point) :
  loadGLB [] = inl (Error "No vertices found in GLB") /\
  (pts <> [] ->
   exists out : list Point,
     loadGLB (flat pts) = inr (flat out) /\
     1 <= length out /\
     length out <= Nat.min (length pts) MAX_VERTEX_COUNT).
Proof.
  split; [reflexivity|]. intros Hne. unfold loadGLB.
  assert (Hlen : (length (flat pts) =? 0) = false).
  { apply Nat.eqb_neq. intros H. apply length_zero_iff_nil in H.
    apply Hne. now apply flat_nil. }
  rewrite Hlen, map_fround_flat, normalize_flat. cbv zeta.
  set (normalized := map (normalizedPoint _) (map froundPoint pts)).
  assert (Hn : length normalized = length pts)
    by (unfold normalized; now rewrite !length_map).
  destruct (trim_filter normalized) as (keep & -> & Hkeep).
  assert (Hmax : 0 < MAX_VERTEX_COUNT)
    by (apply Nat.ltb_lt; vm_compute; reflexivity).
  destruct (clamp_out (filter keep normalized) MAX_VERTEX_COUNT Hmax)
    as (out & -> & Hle & _ & Hhd & _).
  exists out. split; [reflexivity|].
  pose proof (filter_length_le keep normalized) as Hf.
  assert (Hne1 : filter keep normalized <> []).
  { apply Hkeep. intros E. rewrite E in Hn. destruct pts; [congruence|].
    discriminate Hn. }
  split; [|lia].
  destruct out as [|q out]; [|cbn; lia].
  destruct (filter keep normalized); [congruence|discriminate Hhd].
Qed.

(** ** main *)

Lemma length_reordered (ref tgt : Float32Array) (l : list nat) :
  forall st,
    length (reordered (fold_left (matchStep ref tgt) l st))
    = length (reordered st).
Proof.
  induction l as [|i l IH]; intros st; [reflexivity|].
  cbn [fold_left]. rewrite IH. unfold matchStep.
  destruct (findNearest _ _ _ _ _ _ _); cbn [reordered];
    rewrite ?length_wr; reflexivity.
Qed.

Lemma reorder_defined (ref tgt : Float32Array) :
  length tgt = length ref -> length ref mod 3 = 0 ->
  exists out, reorderToNearest ref tgt = inr out /\ length out = length tgt.
Proof.
  intros Hlen Hmod. unfold reorderToNearest.
  rewrite Hlen, Nat.eqb_refl, Hmod. cbn [negb Nat.eqb].
  eexists. split; [reflexivity|].
  unfold matchLoop. rewrite length_reordered. cbn [reordered].
  rewrite repeat_length. exact Hlen.
Qed.

Lemma alignAll_defined (reference : Float32Array) (T : nat)
      (rest : list Float32Array) :
  length reference = T * 3 ->
  exists aligned,
    alignAll reference T rest = inr aligned /\
    length aligned = length rest /\
    forall positions, In positions aligned -> length positions = T * 3.
Proof.
  intros Href. induction rest as [|positions rest IH].
  - exists []. repeat split. intros p [].
  - cbn [alignAll].
    destruct (reorder_defined reference (adjustVertexCount positions T))
      as (out & -> & Hout).
    + now rewrite length_adjustVertexCount.
    + rewrite Href. apply Nat.Div0.mod_mul.
    + destruct IH as (aligned & -> & Hl & Hall).
      exists (out :: aligned). split; [reflexivity|]. split.
      * cbn [length]. now rewrite Hl.
      * intros p [<-|Hp]; [|now apply Hall].
        now rewrite Hout, length_adjustVertexCount.
Qed.

Lemma fold_max_bounds (l : list nat) :
  forall a, a <= fold_left Nat.max l a /\
            forall x, In x l -> x <= fold_left Nat.max l a.
Proof.
  induction l as [|y l IH]; intros a;
    [cbn [fold_left]; split; [lia|intros x []]|].
  cbn [fold_left]. destruct (IH (Nat.max a y)) as [H1 H2].
  split; [lia|]. intros x [<-|Hx]; [lia|now apply H2].
Qed.

Lemma fold_max_attained (l : list nat) :
  forall a, fold_left Nat.max l a = a \/ In (fold_left Nat.max l a) l.
Proof.
  induction l as [|y l IH]; intros a; [now left|].
  cbn [fold_left]. destruct (IH (Nat.max a y)) as [H|H].
  - rewrite H. destruct (Nat.max_spec a y) as [[_ ->]|[_ ->]];
      [right; now left|now left].
  - right. now right.
Qed.

Lemma targetVertexCountOf_flat (firstPts : list Point)
      (restPts : list (list Point)) :
  targetVertexCountOf (flat firstPts) (map flat restPts)
  = fold_left Nat.max (map (@length Point) restPts) (length firstPts).
Proof.
  unfold targetVertexCountOf. rewrite length_flat, div3, map_map.
  f_equal. apply map_ext. intros pts. now rewrite length_flat, div3.
Qed.

(** X15: for any loaded models [main] throws nothing between loading and
    writing.  [targetVertexCount] is the largest vertex count among the
    loaded models; one model is emitted per loaded model, each with exactly
    [targetVertexCount] vertices, and the first is the first loaded model's
    cloud equalised. *)
Theorem main_equalises_all_models (firstPts : list Point)
        (restPts : list (list Point)) :
  exists (targetVertexCount : nat) (processed : list Float32Array),
    main (flat firstPts) (map flat restPts) = inr (targetVertexCount, processed) /\
    (forall pts, In pts (firstPts :: restPts) -> length pts <= targetVertexCount) /\
    (exists pts, In pts (firstPts :: restPts) /\ length pts = targetVertexCount) /\
    length processed = S (length restPts) /\
    (forall positions, In positions processed ->
                       length positions = targetVertexCount * 3) /\
    hd_error processed
    = Some (adjustVertexCount (flat firstPts) targetVertexCount).
Proof.
  unfold main. cbv zeta.
  set (T := targetVertexCountOf (flat firstPts) (map flat restPts)).
  destruct (alignAll_defined (adjustVertexCount (flat firstPts) T) T
                             (map flat restPts)
                             (length_adjustVertexCount (flat firstPts) T))
    as (aligned & -> & Hl & Hall).
  exists T, (adjustVertexCount (flat firstPts) T :: aligned).
  assert (HT : T = fold_left Nat.max (map (@length Point) restPts)
                             (length firstPts))
    by apply targetVertexCountOf_flat.
  split; [reflexivity|]. split; [|split; [|split; [|split]]].
  - rewrite HT.
    destruct (fold_max_bounds (map (@length Point) restPts) (length firstPts))
      as [H1 H2].
    intros pts [<-|Hp]; [exact H1|]. apply H2. now apply in_map.
  - rewrite HT.
    destruct (fold_max_attained (map (@length Point) restPts)
                                (length firstPts)) as [H|H].
    + exists firstPts. split; [now left|now rewrite H].
    + apply in_map_iff in H. destruct H as (pts & Hlen & Hin).
      exists pts. split; [now right|exact Hlen].
  - cbn [length]. now rewrite Hl, length_map.
  - intros p [<-|Hp]; [apply length_adjustVertexCount|now apply Hall].
  - reflexivity.
Qed.

(** ** doubleVertices *)

(** X21: [doubleVertices] of a cloud is the cloud followed by a second copy
    of itself. *)
Theorem double_vertices_appends_a_copy (pts : list Point) :
  doubleVertices (flat pts) = flat (pts ++ pts).
Proof.
  unfold doubleVertices. cbv zeta. rewrite length_flat, div3.
  rewrite copy_loop by (rewrite ?length_flat; lia).
  rewrite firstn_flat, firstn_all.
  replace (3 * length pts * 2 - 3 * length pts) with (3 * length pts) by lia.
  rewrite flat_app.
  transitivity
    (flat pts ++ flat (map (fun k => pt pts k) (seq 0 (length pts))));
    [|now rewrite (map_pt_seq pts (fun p => p)), map_id].
  refine (eq_trans _ (point_loop (fun k => pt pts k) (flat pts) (length pts))).
  apply fold_left_ext_in. intros acc k _.
  destruct (rd_flat pts k) as (-> & -> & ->).
  rewrite length_flat.
  replace ((length pts + k) * 3) with (3 * length pts + k * 3) by lia.
  reflexivity.
Qed.

(** ** reorderToNearest *)

Lemma pts_as_map (pts : list Point) :
  map (pt pts) (seq 0 (length pts)) = pts.
Proof. exact (eq_trans (map_pt_seq pts (fun p => p)) (map_id pts)). Qed.

(** X20: when every target point is at a finite squared distance from every
    reference point, the cloud returned by [reorderToNearest] is a
    rearrangement of the target cloud: the same points with the same
    multiplicities, none lost and none invented. *)
Theorem reorder_output_is_a_rearrangement (refPts tgtPts : list Point) :
  length refPts = length tgtPts ->
  (forall r t, In r refPts -> In t tgtPts ->
     (dist2 (px t) (py t) (pz t) (px r) (py r) (pz r) <? infinity)%float = true) ->
  exists out : list Point,
    reorderToNearest (flat refPts) (flat tgtPts) = inr (flat out) /\
    Permutation out tgtPts.
Proof.
  intros Hlen Hfin.
  destruct (matchLoop_bijection (flat refPts) (flat tgtPts) (length tgtPts))
    as (sigma & Hperm & _ & Hre).
  - rewrite length_flat. now rewrite Hlen.
  - apply length_flat.
  - intros i j Hi Hj. unfold targetDist2.
    destruct (rd_flat refPts i) as (-> & -> & ->).
    destruct (rd_flat tgtPts j) as (-> & -> & ->).
    apply Hfin; apply nth_In; lia.
  - exists (map (pt tgtPts) sigma). split.
    + rewrite reorderToNearest_runs by exact Hlen. rewrite Hre.
      do 2 f_equal. apply map_ext. intros j. apply targetPoint_flat.
    + rewrite <- (pts_as_map tgtPts) at 2. now apply Permutation_map.
Qed.

Lemma reorder_output_is_a_rearrangement_witness :
  exists out : list Point,
    reorderToNearest (flat refCloud) (flat paddedCloud4) = inr (flat out) /\
    Permutation out paddedCloud4.
Proof.
  apply (reorder_output_is_a_rearrangement refCloud paddedCloud4).
  - reflexivity.
  - intros r t Hr Ht.
    destruct Hr as [<-|[<-|[<-|[<-|[]]]]];
      destruct Ht as [<-|[<-|[<-|[<-|[]]]]]; vm_compute; reflexivity.
Defined.

Lemma reorder_never_reuses_an_index_witness :
  length (chosen (matchLoop (flat refCloud) (flat nanCloud))) = length nanCloud /\
  NoDup (choices (chosen (matchLoop (flat refCloud) (flat nanCloud)))) /\
  (forall j, In j (choices (chosen (matchLoop (flat refCloud) (flat nanCloud)))) ->
             j < length nanCloud) /\
  reorderToNearest (flat refCloud) (flat nanCloud) =
  inr (flat (map (slotOf (flat nanCloud))
                 (chosen (matchLoop (flat refCloud) (flat nanCloud))))).
Proof. apply (reorder_never_reuses_an_index refCloud nanCloud). reflexivity. Defined.

(** ** The buckets *)

Lemma filter_absent (idx : nat) (arr : list nat) :
  ~ In idx arr -> filter (fun j => negb (j =? idx)) arr = arr.
Proof.
  induction arr as [|a t IH]; intros Hn; [reflexivity|].
  cbn [filter]. destruct (Nat.eqb_spec a idx) as [->|Ha]; cbn [negb].
  - exfalso. apply Hn. now left.
  - f_equal. apply IH. intros H. apply Hn. now right.
Qed.

Lemma splice_out_filter (idx : nat) (arr : list nat) :
  NoDup arr ->
  splice_out idx arr = filter (fun j => negb (j =? idx)) arr.
Proof.
  induction arr as [|h t IH]; intros Hnd; [reflexivity|].
  inversion Hnd as [|? ? Hh Ht]; subst. cbn [splice_out filter].
  destruct (Nat.eqb_spec h idx) as [->|Hne]; cbn [negb].
  - symmetry. now apply filter_absent.
  - f_equal. now apply IH.
Qed.

(** X17: after the fill loop the bucket of a key holds exactly the indices
    of the target points with that key, in ascending order, and a key that
    no target point has owns no bucket; [removeFromBucket(idx)] then takes
    [idx], and only [idx], out of its own bucket and leaves every other
    bucket as it was. *)
Theorem buckets_partition_the_targets
        (refPts tgtPts : list Point) (key : Key) (idx : nat) :
  let K := targetKey (flat refPts) (flat tgtPts) in
  let cell := filter (fun j => key_eqb (K j) key) (seq 0 (length refPts)) in
  let filled := initialBuckets (flat refPts) (flat tgtPts) in
  bucket_get key filled = match cell with [] => None | l => Some l end /\
  bucket_get key (removeFromBucket (flat refPts) (flat tgtPts) idx filled)
  = match cell with
    | [] => None
    | l => Some (if key_eqb (K idx) key
                 then filter (fun j => negb (j =? idx)) l else l)
    end.
Proof.
  cbv zeta.
  set (K := targetKey (flat refPts) (flat tgtPts)).
  assert (Hlen : len (flat refPts) = length refPts)
    by (unfold len; now rewrite length_flat, div3).
  assert (Hfill : bucket_get key (initialBuckets (flat refPts) (flat tgtPts))
                  = match filter (fun j => key_eqb (K j) key)
                                 (seq 0 (length refPts)) with
                    | [] => None
                    | l => Some l
                    end).
  { rewrite <- Hlen. apply (bucket_get_fill K key (len (flat refPts))). }
  assert (Hnd : NoDup (filter (fun j => key_eqb (K j) key)
                              (seq 0 (length refPts))))
    by (apply NoDup_filter, seq_NoDup).
  split.
  - rewrite Hfill. destruct (filter _ (seq 0 (length refPts))); reflexivity.
  - unfold removeFromBucket. rewrite bucket_get_modify. fold K. rewrite Hfill.
    destruct (filter _ (seq 0 (length refPts))) as [|a l].
    + destruct (key_eqb (K idx) key); reflexivity.
    + destruct (key_eqb (K idx) key); [|reflexivity].
      cbn [option_map]. now rewrite splice_out_filter.
Qed.
End CloudFacts.

(* ===================================================================== *)
(** * The stages of findNearest *)
(* ===================================================================== *)

Module NearestFacts.
Import JS Morph MorphSpec NumFacts ListFacts MorphFacts.

Section Stages.
Variables referencePositions targetPositions : Float32Array.
Variable bk : Buckets.
Variable av : list bool.
Variables rx ry rz : float.

Let dist (idx : nat) : float := targetDist2 targetPositions rx ry rz idx.

(** The indices that the search reads from the buckets at radius [r], in
    the order of the three nested loops. *)
Definition cellCandidates (cx cy cz : float) (r : nat) : list nat :=
  flat_map
    (fun d : float * float * float =>
       let '(dx, dy, dz) := d in
       match bucket_get (bucketKey (cx + dx) (cy + dy) (cz + dz))%float bk with
       | None => []
       | Some arr => arr
       end)
    (cells r).

(** The candidate lists of the four stages of [findNearest]: the rings of
    radius 0, 1 and 2 around the cell of the reference point, then every
    index. *)
Definition stages : list (list nat) :=
  let cx := cellOf rx (minX (bounds referencePositions targetPositions))
                   (cellSize referencePositions targetPositions) in
  let cy := cellOf ry (minY (bounds referencePositions targetPositions))
                   (cellSize referencePositions targetPositions) in
  let cz := cellOf rz (minZ (bounds referencePositions targetPositions))
                   (cellSize referencePositions targetPositions) in
  map (cellCandidates cx cy cz) (seq 0 (maxRadius + 1))
  ++ [seq 0 (len referencePositions)].

(** [j] is an available candidate of [L], and no available candidate of
    [L] is strictly closer to the reference point. *)
Definition nearestIn (L : list nat) (j : nat) : Prop :=
  In j L /\ nth j av false = true /\
  forall idx, In idx L -> nth idx av false = true ->
              (dist idx <? dist j)%float = false.

(** No available candidate of [L] is at a finite squared distance. *)
Definition noCandidate (L : list nat) : Prop :=
  forall idx, In idx L -> nth idx av false = true ->
              (dist idx <? infinity)%float = false.

(** The search state after the candidates [L0] were considered. *)
Definition stageInv (L0 : list nat) (best : Best) : Prop :=
  (forall idx, In idx L0 -> nth idx av false = true ->
               (dist idx <? snd best)%float = false) /\
  match fst best with
  | Some j => In j L0 /\ nth j av false = true /\ snd best = dist j
  | None => snd best = infinity
  end.

Lemma consider_stageInv (L0 : list nat) (best : Best) (idx : nat) :
  stageInv L0 best ->
  stageInv (L0 ++ [idx]) (consider targetPositions av rx ry rz best idx).
Proof.
  intros [Hlow Hbest]. unfold consider.
  destruct (nth idx av false) eqn:Hav; cbn [negb].
  - fold (targetDist2 targetPositions rx ry rz idx). fold (dist idx).
    destruct (dist idx <? snd best)%float eqn:Hlt.
    + split; cbn [fst snd].
      * intros k Hk Hka. apply in_app_or in Hk. destruct Hk as [Hk|[<-|[]]].
        -- specialize (Hlow k Hk Hka).
           destruct (dist k <? dist idx)%float eqn:E; [|reflexivity].
           rewrite (ltb_trans _ _ _ E Hlt) in Hlow. discriminate Hlow.
        -- apply ltb_irrefl.
      * split; [apply in_or_app; right; now left|]. now split.
    + split.
      * intros k Hk Hka. apply in_app_or in Hk. destruct Hk as [Hk|[<-|[]]].
        -- now apply Hlow.
        -- exact Hlt.
      * destruct (fst best) as [j|]; [|exact Hbest].
        destruct Hbest as (Hin & Hj & Hd).
        split; [apply in_or_app; now left|now split].
  - split.
    + intros k Hk Hka. apply in_app_or in Hk. destruct Hk as [Hk|[<-|[]]].
      * now apply Hlow.
      * rewrite Hav in Hka. discriminate Hka.
    + destruct (fst best) as [j|]; [|exact Hbest].
      destruct Hbest as (Hin & Hj & Hd).
      split; [apply in_or_app; now left|now split].
Qed.

Lemma scan_stageInv (l : list nat) :
  forall L0 best,
    stageInv L0 best ->
    stageInv (L0 ++ l) (fold_left (consider targetPositions av rx ry rz) l best).
Proof.
  induction l as [|idx l IH]; intros L0 best H.
  - rewrite app_nil_r. exact H.
  - cbn [fold_left].
    replace (L0 ++ idx :: l) with ((L0 ++ [idx]) ++ l)
      by (now rewrite <- app_assoc).
    apply IH. now apply consider_stageInv.
Qed.

(** One stage, started afresh: it finds the nearest available candidate
    of its list, or leaves the state untouched when there is none. *)
Lemma stage_result (L : list nat) :
  match fold_left (consider targetPositions av rx ry rz) L (None, infinity) with
  | (Some j, _) => nearestIn L j
  | (None, d) => d = infinity /\ noCandidate L
  end.
Proof.
  assert (H0 : stageInv [] (None, infinity)).
  { split; [intros idx []|reflexivity]. }
  pose proof (scan_stageInv L [] (None, infinity) H0) as [Hlow Hbest].
  cbn [app] in Hlow, Hbest.
  destruct (fold_left (consider targetPositions av rx ry rz) L
                     (None, infinity)) as [[j|] d]; cbn [fst snd] in *.
  - destruct Hbest as (Hin & Hj & ->). repeat split; assumption.
  - subst d. split; [reflexivity|exact Hlow].
Qed.

(** The stages in sequence: the first one that finds a candidate decides. *)
Fixpoint stageBest (ls : list (list nat)) : Best :=
  match ls with
  | [] => (None, infinity)
  | L :: rest =>
      match fold_left (consider targetPositions av rx ry rz) L (None, infinity) with
      | (Some j, d) => (Some j, d)
      | (None, _) => stageBest rest
      end
  end.

Lemma stageBest_none (ls : list (list nat)) :
  fst (stageBest ls) = None -> stageBest ls = (None, infinity).
Proof.
  induction ls as [|L rest IH]; [reflexivity|]. cbn [stageBest].
  destruct (fold_left (consider targetPositions av rx ry rz) L
                     (None, infinity)) as [[j|] d]; [discriminate|exact IH].
Qed.

Lemma stageBest_app (ls : list (list nat)) (L : list nat) :
  fst (stageBest (ls ++ [L])) =
  match fst (stageBest ls) with
  | Some j => Some j
  | None => fst (fold_left (consider targetPositions av rx ry rz) L
                           (None, infinity))
  end.
Proof.
  induction ls as [|L' rest IH]; cbn [app stageBest fst].
  - destruct (fold_left (consider targetPositions av rx ry rz) L
                     (None, infinity)) as [[j|] d]; reflexivity.
  - destruct (fold_left (consider targetPositions av rx ry rz) L'
                     (None, infinity)) as [[j|] d]; [reflexivity|].
    exact IH.
Qed.

Lemma fold_scanCell_candidates (cx cy cz : float)
      (cs : list (float * float * float)) :
  forall best,
    fold_left (scanCell targetPositions bk av cx cy cz rx ry rz) cs best =
    fold_left (consider targetPositions av rx ry rz)
      (flat_map
         (fun d : float * float * float =>
            let '(dx, dy, dz) := d in
            match bucket_get (bucketKey (cx + dx) (cy + dy) (cz + dz))%float bk with
            | None => []
            | Some arr => arr
            end) cs)
      best.
Proof.
  induction cs as [|[[dx dy] dz] cs IH]; intros best; [reflexivity|].
  cbn [fold_left flat_map]. rewrite fold_left_app, IH. unfold scanCell.
  destruct (bucket_get _ bk); reflexivity.
Qed.

Lemma ringSearch_stageBest (cx cy cz : float) (rs : list nat) :
  ringSearch targetPositions bk av cx cy cz rx ry rz rs (None, infinity) =
  stageBest (map (cellCandidates cx cy cz) rs).
Proof.
  induction rs as [|r rs IH]; [reflexivity|].
  cbn [ringSearch fst map stageBest].
  rewrite fold_scanCell_candidates. fold (cellCandidates cx cy cz r).
  pose proof (stage_result (cellCandidates cx cy cz r)) as Hst.
  destruct (fold_left (consider targetPositions av rx ry rz) (cellCandidates cx cy cz r)
                     (None, infinity))
    as [[j|] d].
  - destruct rs; reflexivity.
  - destruct Hst as [-> _]. exact IH.
Qed.

Lemma findNearest_stages :
  findNearest referencePositions targetPositions bk av rx ry rz =
  fst (stageBest stages).
Proof.
  unfold findNearest, stages. cbv zeta.
  rewrite ringSearch_stageBest, stageBest_app.
  destruct (fst (stageBest _)) as [j|] eqn:E; [exact E|].
  now rewrite (stageBest_none _ E).
Qed.

Lemma stageBest_found (ls : list (list nat)) :
  match fst (stageBest ls) with
  | Some j =>
      exists before L after,
        ls = before ++ L :: after /\ nearestIn L j /\ Forall noCandidate before
  | None => Forall noCandidate ls
  end.
Proof.
  induction ls as [|L rest IH]; [constructor|].
  cbn [stageBest]. pose proof (stage_result L) as Hst.
  destruct (fold_left (consider targetPositions av rx ry rz) L
                     (None, infinity)) as [[j|] d]; cbn [fst].
  - exists [], L, rest. repeat split; try apply Hst. constructor.
  - destruct Hst as [_ Hno].
    destruct (fst (stageBest rest)) as [j|].
    + destruct IH as (before & L' & after & -> & Hnear & Hbefore).
      exists (L :: before), L', after. repeat split; try apply Hnear.
      now constructor.
    + now constructor.
Qed.
End Stages.

(** X18: [findNearest] works in four stages, the rings of radius 0, 1 and 2
    around the cell of the reference point and then all indices.  The index
    it returns is an available candidate of one stage with no available
    candidate of that stage strictly closer, and no earlier stage had an
    available candidate at a finite squared distance; it returns [-1] only
    when no stage has one. *)
Theorem find_nearest_is_nearest_of_its_stage
        (refPts tgtPts : list Point) (bk : Buckets) (av : list bool)
        (rx ry rz : float) :
  match findNearest (flat refPts) (flat tgtPts) bk av rx ry rz with
  | Some j =>
      exists before L after,
        stages (flat refPts) (flat tgtPts) bk rx ry rz = before ++ L :: after /\
        nearestIn (flat tgtPts) av rx ry rz L j /\
        Forall (noCandidate (flat tgtPts) av rx ry rz) before
  | None =>
      Forall (noCandidate (flat tgtPts) av rx ry rz)
             (stages (flat refPts) (flat tgtPts) bk rx ry rz)
  end.
Proof.
  rewrite findNearest_stages.
  apply (stageBest_found (flat tgtPts) av rx ry rz).
Qed.
End NearestFacts.

(* ===================================================================== *)
(** * Properties of alignBottoms *)
(* ===================================================================== *)

Module AlignFacts.
Import JS Morph MorphSpec NumFacts ListFacts MorphFacts FloatFacts CloudFacts.

(** ** alignBottoms *)

Lemma lowestY_flat (pts : list Point) :
  lowestY (flat pts) = minOf (map py pts).
Proof.
  unfold lowestY, minOf.
  rewrite length_flat, by3_1, !fold_left_map.
  rewrite <- (fold_left_seq_nth
                (fun m p => if (py p <? m)%float then py p else m)
                (nan, nan, nan) pts).
  apply fold_left_ext_in. intros acc k _.
  destruct (rd_flat pts k) as (_ & -> & _). reflexivity.
Qed.

Lemma shiftDown_flat (pts : list Point) (delta : float) :
  shiftDown (flat pts) delta = flat (map (lowered delta) pts).
Proof.
  unfold shiftDown.
  rewrite length_flat, by3_0, fold_left_map.
  rewrite <- (map_pt_seq pts (lowered delta)).
  refine (eq_trans _ (point_loop (fun k => lowered delta (pt pts k)) []
                                 (length pts))).
  cbn [app length Nat.add].
  apply fold_left_ext_in. intros acc k _.
  destruct (rd_flat pts k) as (-> & -> & ->). reflexivity.
Qed.

Lemma finite_not_nan (m : float) : isFinite m = true -> is_nan m = false.
Proof.
  unfold isFinite, is_nan. intros H. apply negb_false_iff.
  rewrite FloatAxioms.eqb_spec. apply SFeqb_refl.
  destruct (Prim2SF m); congruence.
Qed.

Lemma Math_min_self (m : float) : isFinite m = true -> Math_min m m = m.
Proof.
  intros H. unfold Math_min.
  rewrite (finite_not_nan m H), ltb_irrefl. cbn [orb].
  destruct (is_zero m && get_sign m); reflexivity.
Qed.

Lemma Math_min_infinity (m : float) :
  isFinite m = true -> Math_min infinity m = m.
Proof.
  intros H. unfold Math_min.
  rewrite (finite_not_nan m H).
  change (is_nan infinity) with false. cbn [orb].
  destruct (finite_between_infinities m H) as [Hlt _].
  destruct (infinity <? m)%float eqn:E.
  - pose proof (ltb_trans _ _ _ Hlt E) as Hc.
    rewrite ltb_irrefl in Hc. discriminate Hc.
  - rewrite Hlt. reflexivity.
Qed.

Lemma baseline_level (mins : list float) (m : float) :
  isFinite m = true -> mins <> [] -> (forall a, In a mins -> a = m) ->
  fold_left Math_min mins infinity = m.
Proof.
  intros Hfin Hne Hall. destruct mins as [|a mins]; [congruence|].
  cbn [fold_left]. rewrite (Hall a (or_introl eq_refl)).
  rewrite (Math_min_infinity m Hfin).
  apply fold_level; [now apply Math_min_self|].
  intros b Hb. apply Hall. now right.
Qed.

Lemma map_snd_indexed {A : Type} (l : list A) (k : nat) :
  map snd (combine (seq k (length l)) l) = l.
Proof.
  revert k. induction l as [|a l IH]; intros k; [reflexivity|].
  cbn [length seq combine map snd]. now rewrite IH.
Qed.

(** X22: clouds that all have the same finite lowest height are returned
    unchanged by [alignBottoms]. *)
Theorem align_bottoms_level_clouds_unchanged
        (clouds : list (list Point)) (m : float) :
  isFinite m = true ->
  (forall pts, In pts clouds -> minOf (map py pts) = m) ->
  alignBottoms (map flat clouds) = map flat clouds.
Proof.
  intros Hfin Hall. unfold alignBottoms. cbv zeta.
  destruct (length (map flat clouds) =? 0) eqn:Hlen; [reflexivity|].
  set (targets := map flat clouds) in *.
  assert (Hmins : forall a, In a (map lowestY targets) -> a = m).
  { intros a Ha. unfold targets in Ha. rewrite map_map in Ha.
    apply in_map_iff in Ha. destruct Ha as (pts & <- & Hpts).
    rewrite lowestY_flat. now apply Hall. }
  assert (Hbase : fold_left Math_min (map lowestY targets) infinity = m).
  { apply baseline_level; [exact Hfin| |exact Hmins].
    intros E. apply (f_equal (@length float)) in E.
    rewrite length_map in E. cbn [length] in E. rewrite E in Hlen.
    discriminate Hlen. }
  rewrite Hbase.
  rewrite <- (map_snd_indexed targets 0) at 3.
  apply map_ext_in. intros [idx t] Hin. cbn [fst snd].
  assert (Hidx : idx < length (map lowestY targets)).
  { rewrite length_map. apply in_combine_l in Hin. apply in_seq in Hin. lia. }
  rewrite (Hmins (nth idx (map lowestY targets) nan))
    by (apply nth_In; exact Hidx).
  rewrite (sub_self m Hfin). reflexivity.
Qed.

Lemma align_bottoms_level_clouds_unchanged_witness :
  alignBottoms (map flat [fivePoints; [(7, 0, 7); (8, 2, 8)]%float])
  = map flat [fivePoints; [(7, 0, 7); (8, 2, 8)]%float].
Proof.
  apply (align_bottoms_level_clouds_unchanged
           [fivePoints; [(7, 0, 7); (8, 2, 8)]%float] 0%float).
  - reflexivity.
  - intros pts [<-|[<-|[]]]; vm_compute; reflexivity.
Defined.

(** X23: [alignBottoms] keeps the number of clouds and of points and only
    changes heights: each cloud is returned as it is, or with the heights
    of all its points lowered by one amount and the other two coordinates
    untouched. *)
Theorem align_bottoms_changes_heights_only (clouds : list (list Point)) :
  exists outs : list (list Point),
    alignBottoms (map flat clouds) = map flat outs /\
    Forall2 (fun pts out => out = pts \/ exists delta, out = map (lowered delta) pts)
            clouds outs.
Proof.
  unfold alignBottoms. cbv zeta.
  destruct (length (map flat clouds) =? 0) eqn:Hlen.
  - exists clouds. split; [reflexivity|].
    clear. induction clouds; constructor; auto.
  - generalize (fold_left Math_min (map lowestY (map flat clouds)) infinity)
      as baseline.
    generalize (map lowestY (map flat clouds)) as mins.
    intros mins baseline. clear Hlen. generalize 0 as k.
    induction clouds as [|pts clouds IH]; intros k.
    + exists []. split; [reflexivity|constructor].
    + destruct (IH (S k)) as (outs & Houts & Hall).
      cbn [map length seq combine fst snd]. rewrite Houts.
      destruct (abs (nth k mins nan - baseline) <? 1e-6)%float.
      * exists (pts :: outs). split; [reflexivity|]. constructor; auto.
      * exists (map (lowered (nth k mins nan - baseline)%float) pts :: outs).
        split; [now rewrite shiftDown_flat|].
        constructor; [right; eauto|exact Hall].
Qed.
End AlignFacts.

(* ===================================================================== *)
(** * The round trip through Lab on dark colours *)
(* ===================================================================== *)

Module RoundTripFacts.
Import JS Colors ColorsSpec.

Ltac each_low H :=
  vm_compute in H;
  repeat (destruct H as [<-|H]); [..|contradiction].

(** X25: a colour whose channels are integers from 0 to 10 comes back
    unchanged from [labToRgb(rgbToLab(c))], whatever [Math.pow] computes:
    on these colours both conversions stay on their linear branches and
    never call it. *)
Theorem low_colours_round_trip (Math_pow : float -> float -> float) (c : RGB) :
  lowColor c -> labToRgb Math_pow (rgbToLab Math_pow c) = c.
Proof.
  destruct c as [r g b]. unfold lowColor. cbn [rgb_r rgb_g rgb_b].
  intros (Hr & Hg & Hb).
  each_low Hr; each_low Hg; each_low Hb; vm_compute; reflexivity.
Qed.

Lemma low_colours_round_trip_witness :
  labToRgb powBase (rgbToLab powBase (mkRGB 10 7 3)) = mkRGB 10 7 3.
Proof.
  apply (low_colours_round_trip powBase (mkRGB 10 7 3)).
  repeat split; vm_compute; tauto.
Defined.
End RoundTripFacts.
